(** * Capsule core of the Codex Drift runtime: a shallow embedding

    The development follows the Python sources under [capsule_core/]:
    [scrollmath_engine.py], [memory_recursion_manager.py],
    [mesh_orchestrator.py] and [agent_activator.py].

    Conventions of the embedding.
    - Python [float] values are read as real numbers ([R]); arithmetic is the
      exact one, comparisons are the decidable order of [R].
    - Python [int] values are [Z]; [len] of a container is a [nat].
    - A [dict] is an association list in insertion order: iteration order,
      [min] and the stable [sorted] all depend on it.
    - [datetime.now()] is an explicit argument [now] (seconds, as a real).
    - Generated identifiers (md5 prefixes, uuid prefixes) are explicit
      arguments of the operation that generates them.
    - A raised exception is a value of the [outcome] type. *)

From Stdlib Require Import String.
From Stdlib Require DecimalString.
From Stdlib Require Import Reals Lra Lia ZArith List Bool Psatz.
From Stdlib Require Import Permutation Sorted FinFun.
Import ListNotations.

Open Scope R_scope.

(** ** Numeric helpers *)

Definition Rltb (a b : R) : bool := if Rlt_dec a b then true else false.
Definition Rleb (a b : R) : bool := if Rle_dec a b then true else false.
Definition Reqb (a b : R) : bool := if Req_dec_T a b then true else false.

Lemma Rltb_true (a b : R) : Rltb a b = true <-> a < b.
Proof. unfold Rltb; destruct (Rlt_dec a b); split; intros; try easy. Qed.

Lemma Rltb_false (a b : R) : Rltb a b = false <-> b <= a.
Proof.
  unfold Rltb; destruct (Rlt_dec a b); split; intros; try easy; lra.
Qed.

Lemma Rleb_true (a b : R) : Rleb a b = true <-> a <= b.
Proof. unfold Rleb; destruct (Rle_dec a b); split; intros; try easy. Qed.

Lemma Rleb_false (a b : R) : Rleb a b = false <-> b < a.
Proof.
  unfold Rleb; destruct (Rle_dec a b); split; intros; try easy; lra.
Qed.


Lemma Reqb_false (a b : R) : Reqb a b = false <-> a <> b.
Proof. unfold Reqb; destruct (Req_dec_T a b); split; intros; try easy. Qed.

(** Raised exceptions of the Python code that the claims talk about. *)
Inductive exn : Type :=
| KeyError
| ValueError
| RuntimeError (msg : string).

Inductive outcome (A : Type) : Type :=
| Returned (a : A)
| Raised (e : exn).
Arguments Returned {A} a.
Arguments Raised {A} e.

Definition bind {A B : Type} (m : outcome A) (k : A -> outcome B) : outcome B :=
  match m with
  | Returned a => k a
  | Raised e => Raised e
  end.

Notation "'do' a <- m ; k" := (bind m (fun a => k))
  (at level 10, a name, m at level 100, k at level 200).

(** ** scrollmath_engine.py *)

Record ScrollVector : Type := mkScrollVector {
  x : R;
  y : R;
  z : R;
  temporal : R;
  symbolic : R
}.

Definition zero_vector : ScrollVector := mkScrollVector 0 0 0 0 0.

(** [ScrollVector.magnitude] *)
Definition magnitude (v : ScrollVector) : R :=
  sqrt (x v ^ 2 + y v ^ 2 + z v ^ 2 + temporal v ^ 2 + symbolic v ^ 2).

(** [ScrollVector.normalize] *)
Definition normalize (v : ScrollVector) : ScrollVector :=
  let mag := magnitude v in
  if Reqb mag 0 then v
  else mkScrollVector (x v / mag) (y v / mag) (z v / mag)
                      (temporal v / mag) (symbolic v / mag).

Record CodexDriftField : Type := mkCodexDriftField {
  vectors : list ScrollVector;
  drift_coefficient : R;
  field_strength : R;
  temporal_decay : R;
  created_at : R
}.

(** Python's [sum] over a generator of floats. *)
Definition Rsum (l : list R) : R := fold_left Rplus l 0.

(** [CodexDriftField.compute_field_gradient] *)
Definition compute_field_gradient (f : CodexDriftField) : ScrollVector :=
  match vectors f with
  | [] => mkScrollVector 0 0 0 0 0
  | _ =>
    let n := INR (length (vectors f)) in
    mkScrollVector (Rsum (map x (vectors f)) / n)
                   (Rsum (map y (vectors f)) / n)
                   (Rsum (map z (vectors f)) / n)
                   (Rsum (map temporal (vectors f)) / n)
                   (Rsum (map symbolic (vectors f)) / n)
  end.

(** [ScrollMathEngine.compute_5d_transform] *)
Definition compute_5d_transform (f : CodexDriftField) (target_vector : ScrollVector)
  : ScrollVector :=
  let gradient := compute_field_gradient f in
  let transformed := mkScrollVector
    (x target_vector + x gradient * drift_coefficient f)
    (y target_vector + y gradient * drift_coefficient f)
    (z target_vector + z gradient * drift_coefficient f)
    (temporal target_vector + temporal gradient * field_strength f)
    (symbolic target_vector + symbolic gradient * field_strength f) in
  normalize transformed.

(** *** Facts on vectors *)

Definition sumsq (v : ScrollVector) : R :=
  x v ^ 2 + y v ^ 2 + z v ^ 2 + temporal v ^ 2 + symbolic v ^ 2.

Lemma sumsq_nonneg (v : ScrollVector) : 0 <= sumsq v.
Proof. unfold sumsq; nra. Qed.

Lemma magnitude_nonneg (v : ScrollVector) : 0 <= magnitude v.
Proof. apply sqrt_pos. Qed.

Lemma magnitude_sqr (v : ScrollVector) : magnitude v * magnitude v = sumsq v.
Proof. unfold magnitude; apply sqrt_sqrt, sumsq_nonneg. Qed.

Lemma magnitude_zero_iff (v : ScrollVector) :
  magnitude v = 0 <-> v = zero_vector.
Proof.
  split.
  - intros H. pose proof (magnitude_sqr v) as Hs. rewrite H in Hs.
    unfold sumsq in Hs. destruct v as [a b c d e]; simpl in *.
    assert (a = 0) by nra. assert (b = 0) by nra. assert (c = 0) by nra.
    assert (d = 0) by nra. assert (e = 0) by nra. subst; reflexivity.
  - intros ->. unfold magnitude, zero_vector; simpl.
    replace (0 * (0 * 1) + 0 * (0 * 1) + 0 * (0 * 1) + 0 * (0 * 1) + 0 * (0 * 1))
      with 0 by ring.
    apply sqrt_0.
Qed.

Lemma magnitude_scale (k : R) (v : ScrollVector) :
  0 <= k ->
  magnitude (mkScrollVector (x v * k) (y v * k) (z v * k)
                            (temporal v * k) (symbolic v * k))
  = k * magnitude v.
Proof.
  intros Hk. change (magnitude v) with (sqrt (sumsq v)).
  set (w := mkScrollVector _ _ _ _ _).
  change (magnitude w) with (sqrt (sumsq w)).
  replace (sumsq w) with (Rsqr k * sumsq v)
    by (unfold sumsq, w, Rsqr; simpl; ring).
  rewrite sqrt_mult_alt by apply Rle_0_sqr.
  rewrite sqrt_Rsqr by assumption. reflexivity.
Qed.






(** ** Python containers *)

(** A [dict] as an association list in insertion order.  Assigning to a key
    already present keeps the position of that key; a new key goes last. *)
Section Dict.
Context {K V : Type}.
Variable eqb : K -> K -> bool.

Definition dict : Type := list (K * V).

Fixpoint dict_get (k : K) (d : dict) : option V :=
  match d with
  | [] => None
  | (k', v) :: t => if eqb k k' then Some v else dict_get k t
  end.

Definition dict_mem (k : K) (d : dict) : bool :=
  match dict_get k d with Some _ => true | None => false end.

Fixpoint dict_set (k : K) (v : V) (d : dict) : dict :=
  match d with
  | [] => [(k, v)]
  | (k', v') :: t => if eqb k k' then (k', v) :: t else (k', v') :: dict_set k v t
  end.

Fixpoint dict_remove (k : K) (d : dict) : dict :=
  match d with
  | [] => []
  | (k', v') :: t => if eqb k k' then t else (k', v') :: dict_remove k t
  end.

(** [del d[k]]: a missing key raises [KeyError]. *)
Definition dict_del (k : K) (d : dict) : outcome dict :=
  if dict_mem k d then Returned (dict_remove k d) else Raised KeyError.

Definition dict_keys (d : dict) : list K := map fst d.
Definition dict_values (d : dict) : list V := map snd d.

(** In-place change of the object stored under [k], if any. *)
Fixpoint dict_update (k : K) (f : V -> V) (d : dict) : dict :=
  match d with
  | [] => []
  | (k', v') :: t =>
      if eqb k k' then (k', f v') :: t else (k', v') :: dict_update k f t
  end.

Hypothesis eqb_spec : forall a b, eqb a b = true <-> a = b.

Lemma eqb_refl_dict (a : K) : eqb a a = true.
Proof. apply eqb_spec; reflexivity. Qed.

Lemma eqb_neq_dict (a b : K) : a <> b -> eqb a b = false.
Proof.
  intros H. destruct (eqb a b) eqn:E; [|reflexivity].
  apply eqb_spec in E. contradiction.
Qed.

Lemma dict_get_In (k : K) (d : dict) (v : V) :
  dict_get k d = Some v -> In (k, v) d.
Proof.
  induction d as [|[k' v'] t IH]; simpl; [discriminate|].
  destruct (eqb k k') eqn:E.
  - intros [= <-]. apply eqb_spec in E. subst. now left.
  - intros H. right. auto.
Qed.

Lemma dict_get_None_keys (k : K) (d : dict) :
  dict_get k d = None <-> ~ In k (dict_keys d).
Proof.
  induction d as [|[k' v'] t IH]; simpl.
  - split; [intros _ []|reflexivity].
  - destruct (eqb k k') eqn:E.
    + apply eqb_spec in E. subst. split; [discriminate|].
      intros H. exfalso. apply H. now left.
    + rewrite IH. split.
      * intros H [Hk|Hk]; [|auto]. subst.
        rewrite eqb_refl_dict in E. discriminate.
      * intros H Hk. apply H. now right.
Qed.

Lemma In_dict_get (k : K) (v : V) (d : dict) :
  NoDup (dict_keys d) -> In (k, v) d -> dict_get k d = Some v.
Proof.
  induction d as [|[k' v'] t IH]; simpl; [intros _ []|].
  intros Hnd [Heq|Hin].
  - inversion Heq; subst. now rewrite eqb_refl_dict.
  - inversion Hnd as [|? ? Hnot Hnd']; subst.
    destruct (eqb k k') eqn:E.
    + apply eqb_spec in E. subst. exfalso. apply Hnot.
      change k' with (fst (k', v)). apply in_map, Hin.
    + auto.
Qed.

Lemma dict_keys_set_mem (k : K) (v : V) (d : dict) :
  In k (dict_keys d) -> dict_keys (dict_set k v d) = dict_keys d.
Proof.
  induction d as [|[k' v'] t IH]; simpl; [intros []|].
  destruct (eqb k k') eqn:E; simpl; [reflexivity|].
  intros [Hk|Hk].
  - subst. rewrite eqb_refl_dict in E. discriminate.
  - now rewrite IH.
Qed.

Lemma dict_keys_set_new (k : K) (v : V) (d : dict) :
  ~ In k (dict_keys d) -> dict_set k v d = d ++ [(k, v)].
Proof.
  induction d as [|[k' v'] t IH]; simpl; [reflexivity|].
  intros H. destruct (eqb k k') eqn:E.
  - apply eqb_spec in E. subst. exfalso. apply H. now left.
  - rewrite IH; [reflexivity|]. intros Hk. apply H. now right.
Qed.

Lemma dict_set_length_mem (k : K) (v : V) (d : dict) :
  In k (dict_keys d) -> length (dict_set k v d) = length d.
Proof.
  intros H. pose proof (dict_keys_set_mem k v d H) as E.
  apply (f_equal (@length K)) in E.
  unfold dict_keys in E. now rewrite !length_map in E.
Qed.

Lemma dict_set_length_new (k : K) (v : V) (d : dict) :
  ~ In k (dict_keys d) -> length (dict_set k v d) = S (length d).
Proof.
  intros H. rewrite dict_keys_set_new by assumption.
  rewrite length_app. simpl. lia.
Qed.

Lemma dict_set_length_le (k : K) (v : V) (d : dict) :
  (length (dict_set k v d) <= S (length d))%nat.
Proof.
  induction d as [|[k' v'] t IH]; simpl; [lia|].
  destruct (eqb k k'); simpl; lia.
Qed.

Lemma dict_get_set_same (k : K) (v : V) (d : dict) :
  dict_get k (dict_set k v d) = Some v.
Proof.
  induction d as [|[k' v'] t IH]; simpl.
  - now rewrite eqb_refl_dict.
  - destruct (eqb k k') eqn:E; simpl; rewrite E; [reflexivity|exact IH].
Qed.

Lemma dict_get_set_other (k k0 : K) (v : V) (d : dict) :
  k0 <> k -> dict_get k0 (dict_set k v d) = dict_get k0 d.
Proof.
  intros Hne. induction d as [|[k' v'] t IH]; simpl.
  - now rewrite (eqb_neq_dict k0 k Hne).
  - destruct (eqb k k') eqn:E; simpl.
    + apply eqb_spec in E. subst. now rewrite !(eqb_neq_dict k0 k' Hne).
    + destruct (eqb k0 k'); [reflexivity|exact IH].
Qed.

Lemma dict_remove_length (k : K) (d : dict) :
  In k (dict_keys d) -> S (length (dict_remove k d)) = length d.
Proof.
  induction d as [|[k' v'] t IH]; simpl; [intros []|].
  destruct (eqb k k') eqn:E; simpl; [reflexivity|].
  intros [Hk|Hk].
  - subst. rewrite eqb_refl_dict in E. discriminate.
  - now rewrite IH.
Qed.

Lemma dict_remove_keys_incl (k k0 : K) (d : dict) :
  In k0 (dict_keys (dict_remove k d)) -> In k0 (dict_keys d).
Proof.
  induction d as [|[k' v'] t IH]; simpl; [intros []|].
  destruct (eqb k k'); simpl; intuition.
Qed.

Lemma dict_remove_In (k : K) (e : K * V) (d : dict) :
  In e (dict_remove k d) -> In e d.
Proof.
  induction d as [|[k' v'] t IH]; simpl; [intros []|].
  destruct (eqb k k'); simpl; intuition.
Qed.

Lemma dict_remove_NoDup (k : K) (d : dict) :
  NoDup (dict_keys d) -> NoDup (dict_keys (dict_remove k d)).
Proof.
  induction d as [|[k' v'] t IH]; simpl; [auto|].
  intros Hnd. inversion Hnd as [|? ? Hnot Hnd']; subst.
  destruct (eqb k k'); simpl; [assumption|].
  constructor; [|auto].
  intros H. apply Hnot. eapply dict_remove_keys_incl, H.
Qed.

Lemma dict_remove_not_key (k : K) (d : dict) :
  NoDup (dict_keys d) -> ~ In k (dict_keys (dict_remove k d)).
Proof.
  induction d as [|[k' v'] t IH]; simpl; [intros _ []|].
  intros Hnd. inversion Hnd as [|? ? Hnot Hnd']; subst.
  destruct (eqb k k') eqn:E; simpl.
  - apply eqb_spec in E. now subst.
  - intros [Hk|Hk]; [|now apply IH].
    subst. rewrite eqb_refl_dict in E. discriminate.
Qed.

Lemma dict_set_keys_incl (k k0 : K) (v : V) (d : dict) :
  In k0 (dict_keys (dict_set k v d)) -> k0 = k \/ In k0 (dict_keys d).
Proof.
  induction d as [|[k' v'] t IH]; simpl.
  - intros [H|[]]; auto.
  - destruct (eqb k k') eqn:E; simpl; [tauto|].
    intros [H|H]; [auto|]. destruct (IH H); auto.
Qed.

Lemma dict_set_NoDup (k : K) (v : V) (d : dict) :
  NoDup (dict_keys d) -> NoDup (dict_keys (dict_set k v d)).
Proof.
  induction d as [|[k' v'] t IH]; simpl.
  - intros _. constructor; [intros []|constructor].
  - intros Hnd. inversion Hnd as [|? ? Hnot Hnd']; subst.
    destruct (eqb k k') eqn:E; simpl; [now constructor|].
    constructor; [|auto].
    intros H. apply dict_set_keys_incl in H as [H|H]; [|auto].
    subst. rewrite eqb_refl_dict in E. discriminate.
Qed.

Lemma dict_set_In (k : K) (v : V) (d : dict) : In (k, v) (dict_set k v d).
Proof.
  apply dict_get_In, dict_get_set_same.
Qed.

Lemma dict_set_In_inv (k : K) (v : V) (e : K * V) (d : dict) :
  In e (dict_set k v d) -> e = (k, v) \/ In e d.
Proof.
  induction d as [|[k' v'] t IH]; simpl.
  - intros [H|[]]; auto.
  - destruct (eqb k k') eqn:E; simpl.
    + apply eqb_spec in E. subst. intros [H|H]; auto.
    + intros [H|H]; auto. destruct (IH H); auto.
Qed.

Lemma dict_keys_update (k : K) (f : V -> V) (d : dict) :
  dict_keys (dict_update k f d) = dict_keys d.
Proof.
  induction d as [|[k' v'] t IH]; simpl; [reflexivity|].
  destruct (eqb k k'); simpl; [reflexivity|now rewrite IH].
Qed.

Lemma dict_get_update_same (k : K) (f : V -> V) (d : dict) :
  dict_get k (dict_update k f d) = option_map f (dict_get k d).
Proof.
  induction d as [|[k' v'] t IH]; simpl; [reflexivity|].
  destruct (eqb k k') eqn:E; simpl; rewrite E; [reflexivity|exact IH].
Qed.

Lemma dict_get_update_other (k k0 : K) (f : V -> V) (d : dict) :
  k0 <> k -> dict_get k0 (dict_update k f d) = dict_get k0 d.
Proof.
  intros Hne. induction d as [|[k' v'] t IH]; simpl; [reflexivity|].
  destruct (eqb k k') eqn:E; simpl.
  - apply eqb_spec in E. subst. now rewrite !(eqb_neq_dict k0 k' Hne).
  - destruct (eqb k0 k'); [reflexivity|exact IH].
Qed.

Lemma dict_update_length (k : K) (f : V -> V) (d : dict) :
  length (dict_update k f d) = length d.
Proof.
  induction d as [|[k' v'] t IH]; simpl; [reflexivity|].
  destruct (eqb k k'); simpl; [reflexivity|now rewrite IH].
Qed.

Lemma dict_update_In_inv (k : K) (f : V -> V) (e : K * V) (d : dict) :
  In e (dict_update k f d) ->
  In e d \/ exists v, In (k, v) d /\ e = (k, f v).
Proof.
  induction d as [|[k' v'] t IH]; simpl; [intros []|].
  destruct (eqb k k') eqn:E; simpl.
  - apply eqb_spec in E. subst. intros [H|H]; [|auto].
    right. exists v'. auto.
  - intros [H|H]; [auto|]. destruct (IH H) as [H1|[v [H1 H2]]]; [auto|].
    right. exists v. auto.
Qed.
End Dict.

Arguments dict K V : clear implicits.

Lemma firstn_In {A : Type} (n : nat) (l : list A) (a : A) :
  In a (firstn n l) -> In a l.
Proof.
  intros H. rewrite <- (firstn_skipn n l). apply in_or_app. now left.
Qed.


(** Python's [sorted] is stable.  [before a b] tells that [a], met earlier in
    the input, stays in front of [b]: for an ascending sort on [key] it is
    [key a <= key b], for [reverse=True] it is [key b <= key a] (a reversed
    sort keeps the original order of equal keys as well). *)
Section StableSort.
Context {A : Type}.
Variable before : A -> A -> bool.

Fixpoint insert_sorted (a : A) (l : list A) : list A :=
  match l with
  | [] => [a]
  | b :: t => if before a b then a :: b :: t else b :: insert_sorted a t
  end.

Definition py_sorted (l : list A) : list A := fold_right insert_sorted [] l.

Lemma insert_sorted_perm (a : A) (l : list A) :
  Permutation (a :: l) (insert_sorted a l).
Proof.
  induction l as [|b t IH]; simpl; [reflexivity|].
  destruct (before a b); [reflexivity|].
  rewrite perm_swap. now constructor.
Qed.

Lemma py_sorted_perm (l : list A) : Permutation l (py_sorted l).
Proof.
  induction l as [|a t IH]; simpl; [constructor|].
  rewrite <- insert_sorted_perm. now constructor.
Qed.

Lemma py_sorted_In (a : A) (l : list A) : In a (py_sorted l) <-> In a l.
Proof.
  split; apply Permutation_in; [symmetry|]; apply py_sorted_perm.
Qed.

Lemma py_sorted_length (l : list A) : length (py_sorted l) = length l.
Proof. symmetry. apply Permutation_length, py_sorted_perm. Qed.

Definition ordered (a b : A) : Prop := before a b = true.

Hypothesis before_total : forall a b, before a b = false -> before b a = true.
Hypothesis before_trans :
  forall a b c, before a b = true -> before b c = true -> before a c = true.

Lemma insert_sorted_sorted (a : A) (l : list A) :
  StronglySorted ordered l -> StronglySorted ordered (insert_sorted a l).
Proof.
  induction 1 as [|b t Ht IH Hb]; simpl.
  - constructor; constructor.
  - destruct (before a b) eqn:E.
    + constructor; [constructor; assumption|].
      constructor; [exact E|].
      rewrite Forall_forall in *. intros c Hc.
      eapply before_trans; [exact E|]. now apply Hb.
    + constructor; [exact IH|].
      rewrite Forall_forall in *. intros c Hc.
      apply (Permutation_in _ (Permutation_sym (insert_sorted_perm a t))) in Hc.
      destruct Hc as [<-|Hc]; [now apply before_total|now apply Hb].
Qed.

Lemma py_sorted_sorted (l : list A) : StronglySorted ordered (py_sorted l).
Proof.
  induction l as [|a t IH]; simpl; [constructor|].
  now apply insert_sorted_sorted.
Qed.

(** A list already in order is left as it is. *)
Lemma py_sorted_id (l : list A) :
  StronglySorted ordered l -> py_sorted l = l.
Proof.
  induction 1 as [|a t Ht IH Ha]; simpl; [reflexivity|].
  rewrite IH. destruct t as [|b t']; simpl; [reflexivity|].
  inversion Ha as [|? ? Hab _]; subst. unfold ordered in Hab.
  now rewrite Hab.
Qed.

End StableSort.

(** [sorted(l, key=key, reverse=True)] and [sorted(l, key=key)] on a real
    key. *)
Definition sorted_desc {A : Type} (key : A -> R) (l : list A) : list A :=
  py_sorted (fun a b => Rleb (key b) (key a)) l.

Definition sorted_asc {A : Type} (key : A -> R) (l : list A) : list A :=
  py_sorted (fun a b => Rleb (key a) (key b)) l.

(** [min(l, key=key)]: the first element whose key is minimal; [ValueError]
    on an empty sequence. *)
Definition min_by {A : Type} (key : A -> R) (l : list A) : outcome A :=
  match l with
  | [] => Raised ValueError
  | a :: t =>
      Returned (fold_left (fun best c => if Rltb (key c) (key best) then c else best) t a)
  end.

(** The slice [l[:n]] for an [int] bound. *)
Definition py_slice_to {A : Type} (n : Z) (l : list A) : list A :=
  if (0 <=? n)%Z then firstn (Z.to_nat n) l
  else firstn (length l - Z.to_nat (- n)) l.

Lemma min_by_fold_spec {A : Type} (key : A -> R) (t : list A) (a : A) :
  let m := fold_left (fun best c => if Rltb (key c) (key best) then c else best) t a in
  In m (a :: t) /\ forall b, In b (a :: t) -> key m <= key b.
Proof.
  revert a. induction t as [|c t IH]; intros a; simpl.
  - split; [now left|]. intros b [<-|[]]. lra.
  - destruct (Rltb (key c) (key a)) eqn:E.
    + apply Rltb_true in E. destruct (IH c) as [Hin Hmin]. split.
      * right. exact Hin.
      * intros b [<-|Hb]; [|now apply Hmin].
        specialize (Hmin c (or_introl eq_refl)). lra.
    + apply Rltb_false in E. destruct (IH a) as [Hin Hmin]. split.
      * destruct Hin as [<-|Hin]; [now left|right; now right].
      * intros b [<-|[<-|Hb]].
        -- apply Hmin. now left.
        -- specialize (Hmin a (or_introl eq_refl)). lra.
        -- apply Hmin. now right.
Qed.

Lemma min_by_spec {A : Type} (key : A -> R) (l : list A) (m : A) :
  min_by key l = Returned m ->
  In m l /\ forall b, In b l -> key m <= key b.
Proof.
  destruct l as [|a t]; simpl; [discriminate|].
  intros [= <-]. apply min_by_fold_spec.
Qed.

Lemma min_by_nonempty {A : Type} (key : A -> R) (l : list A) :
  l <> [] -> exists m, min_by key l = Returned m.
Proof.
  destruct l as [|a t]; [contradiction|]. intros _. simpl. eauto.
Qed.



Lemma Rleb_asc_trans {A : Type} (key : A -> R) (a b c : A) :
  Rleb (key a) (key b) = true -> Rleb (key b) (key c) = true ->
  Rleb (key a) (key c) = true.
Proof. rewrite !Rleb_true. lra. Qed.

Lemma sorted_desc_In {A : Type} (key : A -> R) (a : A) (l : list A) :
  In a (sorted_desc key l) <-> In a l.
Proof. apply py_sorted_In. Qed.


(** ** memory_recursion_manager.py *)

Open Scope string_scope.
Open Scope list_scope.

(** [content] is an opaque payload of which the code only uses [str(content)]:
    the field holds that string. *)
Record MemoryFragment : Type := mkMemoryFragment {
  fragment_id : string;
  content : string;
  context_vector : ScrollVector;
  timestamp : R;
  access_count : Z;
  importance : R;
  parent_fragments : list string;
  child_fragments : list string
}.

(** [MemoryFragment.update_access] *)
Definition update_access (now : R) (f : MemoryFragment) : MemoryFragment :=
  let time_decay := (now - timestamp f) / 86400 in
  mkMemoryFragment (fragment_id f) (content f) (context_vector f) (timestamp f)
    (access_count f + 1)%Z
    (importance f * Rmax 0.1 (1.0 - time_decay * 0.01))
    (parent_fragments f) (child_fragments f).

Definition append_parent (p : string) (f : MemoryFragment) : MemoryFragment :=
  mkMemoryFragment (fragment_id f) (content f) (context_vector f) (timestamp f)
    (access_count f) (importance f)
    (parent_fragments f ++ [p]) (child_fragments f).

Definition append_child (c : string) (f : MemoryFragment) : MemoryFragment :=
  mkMemoryFragment (fragment_id f) (content f) (context_vector f) (timestamp f)
    (access_count f) (importance f)
    (parent_fragments f) (child_fragments f ++ [c]).

Record RecursionLayer : Type := mkRecursionLayer {
  layer_id : string;
  depth : Z;
  fragments : dict string MemoryFragment;
  coherence_threshold : R;
  max_fragments : Z
}.

Definition set_fragments (l : RecursionLayer) (d : dict string MemoryFragment)
  : RecursionLayer :=
  mkRecursionLayer (layer_id l) (depth l) d (coherence_threshold l) (max_fragments l).

(** The eviction key of [add_fragment] and the ranking key of
    [retrieve_memory_fragments]. *)
Definition eviction_key (f : MemoryFragment) : R :=
  importance f * IZR (access_count f).

(** [RecursionLayer.add_fragment] *)
Definition add_fragment (l : RecursionLayer) (fragment : MemoryFragment)
  : outcome (RecursionLayer * bool) :=
  do frs <-
    (if (max_fragments l <=? Z.of_nat (length (fragments l)))%Z then
       do least_important <- min_by eviction_key (dict_values (fragments l));
       dict_del String.eqb (fragment_id least_important) (fragments l)
     else Returned (fragments l));
  Returned (set_fragments l (dict_set String.eqb (fragment_id fragment) fragment frs),
            true).

(** [RecursionLayer._calculate_vector_similarity] *)
Definition _calculate_vector_similarity (v1 v2 : ScrollVector) : R :=
  let diff := mkScrollVector (x v1 - x v2) (y v1 - y v2) (z v1 - z v2)
                (temporal v1 - temporal v2) (symbolic v1 - symbolic v2) in
  let distance := magnitude diff in
  Rmax 0.0 (1.0 - distance / 5.0).

(** [threshold or self.coherence_threshold]: a missing threshold and the
    threshold [0.0] both fall back to the layer's own. *)
Definition threshold_or (threshold : option R) (default : R) : R :=
  match threshold with
  | Some t => if Reqb t 0 then default else t
  | None => default
  end.

(** [RecursionLayer.find_similar_fragments] *)
Definition find_similar_fragments (l : RecursionLayer) (cv : ScrollVector)
           (threshold : option R) : list MemoryFragment :=
  let threshold := threshold_or threshold (coherence_threshold l) in
  let similar :=
    filter (fun fragment =>
              Rleb threshold (_calculate_vector_similarity cv (context_vector fragment)))
           (dict_values (fragments l)) in
  sorted_desc importance similar.

Record MemoryRecursionManager : Type := mkMemoryRecursionManager {
  recursion_layers : dict Z RecursionLayer;
  max_recursion_depth : Z;
  fragment_lifetime_days : R;
  manager_coherence_threshold : R
}.

Definition set_layers (m : MemoryRecursionManager) (ls : dict Z RecursionLayer)
  : MemoryRecursionManager :=
  mkMemoryRecursionManager ls (max_recursion_depth m) (fragment_lifetime_days m)
    (manager_coherence_threshold m).

(** [MemoryRecursionManager._initialize_recursion_layers], for one depth. *)
Definition initial_layer (threshold : R) (d : nat) : RecursionLayer :=
  mkRecursionLayer
    ("layer_" ++ DecimalString.NilZero.string_of_uint (Nat.to_uint d))%string
    (Z.of_nat d)
    []
    (threshold * 0.9 ^ d)
    (Z.max 100 (1000 - Z.of_nat d * 100))%Z.

(** [MemoryRecursionManager.__init__] with the configuration values
    [max_recursion_depth], [fragment_lifetime_days], [coherence_threshold]. *)
Definition new_manager (max_depth : Z) (lifetime threshold : R)
  : MemoryRecursionManager :=
  mkMemoryRecursionManager
    (map (fun d => (Z.of_nat d, initial_layer threshold d)) (seq 0 (Z.to_nat max_depth)))
    max_depth lifetime threshold.

(** [int(x)] on a float: truncation towards zero. *)
Definition py_int (r : R) : Z :=
  if Rle_dec 0 r then Int_part r else (- Int_part (- r))%Z.

(** [MemoryRecursionManager._calculate_optimal_depth] *)
Definition _calculate_optimal_depth (m : MemoryRecursionManager)
           (content : string) (cv : ScrollVector) : Z :=
  let content_complexity := INR (String.length content) / 1000.0 in
  let vector_magnitude := magnitude cv in
  let depth_factor := (content_complexity + vector_magnitude) / 2.0 in
  let optimal_depth := py_int (depth_factor * IZR (max_recursion_depth m)) in
  Z.min (Z.max 0 optimal_depth) (max_recursion_depth m - 1)%Z.

(** The two mutations of one link: [fragment.parent_fragments.append] on the
    object stored under [fid] in layer [d], [other.child_fragments.append] on
    the object stored under [oid] in layer [od]. *)
Definition update_layer (ls : dict Z RecursionLayer) (d : Z)
           (f : RecursionLayer -> RecursionLayer) : dict Z RecursionLayer :=
  dict_update Z.eqb d f ls.

Definition update_fragment (ls : dict Z RecursionLayer) (d : Z) (fid : string)
           (f : MemoryFragment -> MemoryFragment) : dict Z RecursionLayer :=
  update_layer ls d
    (fun l => set_fragments l (dict_update String.eqb fid f (fragments l))).

Definition link (ls : dict Z RecursionLayer) (d : Z) (fid : string)
           (od : Z) (oid : string) : dict Z RecursionLayer :=
  update_fragment (update_fragment ls d fid (append_parent oid))
                  od oid (append_child fid).

(** [MemoryRecursionManager._create_recursive_connections].  The manager is
    mutated in place: the state reached when an exception is raised is
    returned along with it. *)
Definition _create_recursive_connections (m : MemoryRecursionManager)
           (fragment : MemoryFragment) (d : Z)
  : MemoryRecursionManager * outcome unit :=
  match dict_get Z.eqb d (recursion_layers m) with
  | None => (m, Raised KeyError)
  | Some current_layer =>
    let similar_fragments :=
      find_similar_fragments current_layer (context_vector fragment) (Some 0.7) in
    let ls1 :=
      fold_left
        (fun ls similar =>
           if negb (String.eqb (fragment_id similar) (fragment_id fragment))
           then link ls d (fragment_id fragment) d (fragment_id similar)
           else ls)
        (firstn 3 similar_fragments) (recursion_layers m) in
    if (0 <? d)%Z then
      match dict_get Z.eqb (d - 1)%Z ls1 with
      | None => (set_layers m ls1, Raised KeyError)
      | Some parent_layer =>
        let parent_candidates :=
          find_similar_fragments parent_layer (context_vector fragment) (Some 0.6) in
        match parent_candidates with
        | [] => (set_layers m ls1, Returned tt)
        | parent :: _ =>
          (set_layers m
             (link ls1 d (fragment_id fragment) (d - 1)%Z (fragment_id parent)),
           Returned tt)
        end
      end
    else (set_layers m ls1, Returned tt)
  end.

(** The depth [store_memory_fragment] works with: the supplied one or the
    computed one, capped by [min]. *)
Definition effective_depth (m : MemoryRecursionManager)
           (content : string) (cv : ScrollVector) (target_depth : option Z) : Z :=
  let target_depth :=
    match target_depth with
    | None => _calculate_optimal_depth m content cv
    | Some d => d
    end in
  Z.min target_depth (max_recursion_depth m - 1)%Z.

(** [MemoryRecursionManager.store_memory_fragment].  [fid] is the generated
    identifier [frag_<md5 prefix>_<seconds>].  The result is the manager as
    the call leaves it and either the returned identifier or the exception. *)
Definition store_memory_fragment (m : MemoryRecursionManager)
           (fid : string) (now : R)
           (content : string) (cv : ScrollVector)
           (importance : R) (target_depth : option Z)
  : MemoryRecursionManager * outcome string :=
  let fragment := mkMemoryFragment fid content cv now 0 importance [] [] in
  let target_depth := effective_depth m content cv target_depth in
  let stored :=
    match dict_get Z.eqb target_depth (recursion_layers m) with
    | Some layer =>
      do r <- add_fragment layer fragment;
      Returned (set_layers m (dict_set Z.eqb target_depth (fst r) (recursion_layers m)))
    | None => Returned m
    end in
  match stored with
  | Raised e => (m, Raised e)
  | Returned m1 =>
    let (m2, r) := _create_recursive_connections m1 fragment target_depth in
    (m2, do _ <- r; Returned fid)
  end.

(** The first loop of [retrieve_memory_fragments]: the similar fragments of
    every layer, in layer order, each kept with the key of its layer. *)
Definition collect_candidates (m : MemoryRecursionManager)
           (query_vector : ScrollVector) (similarity_threshold : R)
  : list (Z * MemoryFragment) :=
  flat_map
    (fun kl => map (fun f => (fst kl, f))
                   (find_similar_fragments (snd kl) query_vector
                                           (Some similarity_threshold)))
    (recursion_layers m).

(** [MemoryRecursionManager.retrieve_memory_fragments].  [update_access]
    mutates a returned fragment where it is stored, in the layer it was
    found in; the returned fragments are the mutated objects. *)
Definition retrieve_memory_fragments (m : MemoryRecursionManager) (now : R)
           (query_vector : ScrollVector) (max_results : Z)
           (similarity_threshold : R)
  : MemoryRecursionManager * list MemoryFragment :=
  let all_candidates :=
    sorted_desc (fun c => eviction_key (snd c))
                (collect_candidates m query_vector similarity_threshold) in
  let top := py_slice_to max_results all_candidates in
  let ls :=
    fold_left
      (fun ls c => update_fragment ls (fst c) (fragment_id (snd c)) (update_access now))
      top (recursion_layers m) in
  (set_layers m ls, map (fun c => update_access now (snd c)) top).

(** The state dictionary of one recursive computation. *)
Record RecursionState : Type := mkRecursionState {
  recursion_id : string;
  current_vector : ScrollVector;
  computation_type : string;
  iteration : Z;
  max_iterations : Z;
  history : list ScrollVector;
  convergence_threshold : R;
  status : string
}.

Definition set_status (s : RecursionState) (st : string) : RecursionState :=
  mkRecursionState (recursion_id s) (current_vector s) (computation_type s)
    (iteration s) (max_iterations s) (history s) (convergence_threshold s) st.

(** The state after the three updates of one pass: [current_vector],
    [history.append], [iteration += 1]. *)
Definition advance (s : RecursionState) (next_vector : ScrollVector) : RecursionState :=
  mkRecursionState (recursion_id s) next_vector (computation_type s)
    (iteration s + 1)%Z (max_iterations s) (history s ++ [next_vector])
    (convergence_threshold s) (status s).

(** [MemoryRecursionManager.start_recursive_computation]: the registered
    state ([rid] is the generated [rec_<seconds>_<type>]). *)
Definition start_recursive_computation (rid : string)
           (initial_vector : ScrollVector) (computation_type : string)
           (max_iterations : Z) : RecursionState :=
  mkRecursionState rid initial_vector computation_type 0 max_iterations
    [initial_vector] 1e-6 "running".

(** [MemoryRecursionManager._compute_next_iteration] *)
Definition _compute_next_iteration (current_vector : ScrollVector)
           (memories : list MemoryFragment) (computation_type : string)
  : ScrollVector :=
  let decayed :=
    let decay := 0.95 in
    mkScrollVector (x current_vector * decay) (y current_vector * decay)
      (z current_vector * decay) (temporal current_vector * decay)
      (symbolic current_vector * decay) in
  if computation_type =? "field_convergence" then
    match memories with
    | [] => decayed
    | _ =>
      let weight_sum := Rsum (map importance memories) in
      if Rltb 0 weight_sum then
        let weighted (c : ScrollVector -> R) :=
          Rsum (map (fun m => c (context_vector m) * importance m) memories)
          / weight_sum in
        let damping := 0.1 in
        mkScrollVector
          (x current_vector + damping * (weighted x - x current_vector))
          (y current_vector + damping * (weighted y - y current_vector))
          (z current_vector + damping * (weighted z - z current_vector))
          (temporal current_vector + damping * (weighted temporal - temporal current_vector))
          (symbolic current_vector + damping * (weighted symbolic - symbolic current_vector))
      else decayed
    end
  else if computation_type =? "spiral_drift" then
    let angle := magnitude current_vector * 0.1 in
    let spiral_x := x current_vector * 0.9 + 0.1 * cos angle in
    let spiral_y := y current_vector * 0.9 + 0.1 * sin angle in
    mkScrollVector spiral_x spiral_y (z current_vector * 0.98)
      (temporal current_vector + 0.01) (symbolic current_vector * 1.01)
  else current_vector.

Definition vector_diff (a b : ScrollVector) : ScrollVector :=
  mkScrollVector (x a - x b) (y a - y b) (z a - z b)
    (temporal a - temporal b) (symbolic a - symbolic b).

Section RecursiveComputation.
(** What the loop reads from outside: the clock at the retrieval and at the
    store of each pass, the identifier generated for the fragment stored in
    a pass, and [str] of the stored content dictionary. *)
Variable retrieve_time : nat -> R.
Variable store_time : nat -> R.
Variable store_id : nat -> string.
Variable content_str : Z -> ScrollVector -> string.

(** The [while] loop of [_execute_recursive_computation]; [pass] counts the
    passes made so far.  The result is the manager, the state dictionary and
    the exception that ended the task, if any.  [None] stands for a loop
    still running when the fuel is spent. *)
Fixpoint recursion_loop (fuel : nat) (pass : nat)
         (m : MemoryRecursionManager) (state : RecursionState)
  : option (MemoryRecursionManager * RecursionState * option exn) :=
  if ((iteration state <? max_iterations state)%Z
      && (status state =? "running"))%bool then
    match fuel with
    | O => None
    | S fuel' =>
      let current := current_vector state in
      let (m1, relevant_memories) :=
        retrieve_memory_fragments m (retrieve_time pass) current 5 0.3 in
      let next_vector :=
        _compute_next_iteration current relevant_memories (computation_type state) in
      let diff := vector_diff next_vector current in
      if Rltb (magnitude diff) (convergence_threshold state) then
        Some (m1, set_status state "converged", None)
      else
        let state1 := advance state next_vector in
        match store_memory_fragment m1 (store_id pass) (store_time pass)
                (content_str (iteration state1) next_vector) next_vector 0.5 None with
        | (m2, Raised e) => Some (m2, state1, Some e)
        | (m2, Returned _) => recursion_loop fuel' (S pass) m2 state1
        end
    end
  else Some (m, state, None).

(** [MemoryRecursionManager._execute_recursive_computation] *)
Definition _execute_recursive_computation (fuel : nat)
           (m : MemoryRecursionManager) (state : RecursionState)
  : option (MemoryRecursionManager * RecursionState * option exn) :=
  match recursion_loop fuel 0 m state with
  | None => None
  | Some (m', state', Some e) => Some (m', state', Some e)
  | Some (m', state', None) =>
    Some (m', (if status state' =? "running"
               then set_status state' "max_iterations_reached"
               else state'), None)
  end.
End RecursiveComputation.


(** *** Well-formed layers *)

(** Every entry of a layer's dictionary sits under its own [fragment_id]
    ([add_fragment] is the only writer), and a dictionary has no key twice. *)
Definition wf_fragments (d : dict string MemoryFragment) : Prop :=
  NoDup (dict_keys d) /\ forall k f, In (k, f) d -> fragment_id f = k.

Definition wf_layer (l : RecursionLayer) : Prop := wf_fragments (fragments l).

Definition layer_size (l : RecursionLayer) : Z := Z.of_nat (length (fragments l)).

(** A sequence of insertions into one layer, stopping at the first raised
    exception. *)
Fixpoint add_fragments (l : RecursionLayer) (fs : list MemoryFragment)
  : outcome RecursionLayer :=
  match fs with
  | [] => Returned l
  | f :: fs' => do r <- add_fragment l f; add_fragments (fst r) fs'
  end.

Lemma string_eqb_spec (a b : string) : String.eqb a b = true <-> a = b.
Proof. apply String.eqb_eq. Qed.

Lemma Z_eqb_spec (a b : Z) : Z.eqb a b = true <-> a = b.
Proof. apply Z.eqb_eq. Qed.

Lemma In_dict_values {K V : Type} (v : V) (d : dict K V) :
  In v (dict_values d) <-> exists k, In (k, v) d.
Proof.
  unfold dict_values. rewrite in_map_iff. split.
  - intros [[k v'] [E H]]. simpl in E. subst. eauto.
  - intros [k H]. exists (k, v). auto.
Qed.

Lemma In_dict_keys {K V : Type} (k : K) (v : V) (d : dict K V) :
  In (k, v) d -> In k (dict_keys d).
Proof. intros H. change k with (fst (k, v)). apply in_map, H. Qed.

Lemma wf_fragments_nil : wf_fragments [].
Proof. split; [constructor|intros k f []]. Qed.

Lemma wf_fragments_set (f : MemoryFragment) (d : dict string MemoryFragment) :
  wf_fragments d -> wf_fragments (dict_set String.eqb (fragment_id f) f d).
Proof.
  intros [Hnd Hid]. split.
  - apply dict_set_NoDup; [apply string_eqb_spec|assumption].
  - intros k g Hin.
    apply (dict_set_In_inv String.eqb string_eqb_spec) in Hin as [E|Hin].
    + now inversion E.
    + now apply Hid.
Qed.

Lemma wf_fragments_remove (k : string) (d : dict string MemoryFragment) :
  wf_fragments d -> wf_fragments (dict_remove String.eqb k d).
Proof.
  intros [Hnd Hid]. split.
  - now apply dict_remove_NoDup.
  - intros k' g Hin. apply Hid. eapply dict_remove_In, Hin.
Qed.

Lemma wf_fragments_value_key (d : dict string MemoryFragment) (f : MemoryFragment) :
  wf_fragments d -> In f (dict_values d) -> In (fragment_id f) (dict_keys d).
Proof.
  intros [_ Hid] Hin. apply In_dict_values in Hin as [k Hin].
  rewrite (Hid k f Hin). eapply In_dict_keys, Hin.
Qed.

Lemma dict_mem_keys {V : Type} (k : string) (d : dict string V) :
  In k (dict_keys d) -> dict_mem String.eqb k d = true.
Proof.
  intros H. unfold dict_mem.
  destruct (dict_get String.eqb k d) eqn:E; [reflexivity|].
  apply (dict_get_None_keys String.eqb string_eqb_spec) in E. contradiction.
Qed.

(** What [add_fragment] does on a layer at capacity. *)
Lemma add_fragment_full (l : RecursionLayer) (f : MemoryFragment) :
  wf_layer l -> (max_fragments l <= layer_size l)%Z -> fragments l <> [] ->
  exists victim,
    min_by eviction_key (dict_values (fragments l)) = Returned victim /\
    In victim (dict_values (fragments l)) /\
    (forall g, In g (dict_values (fragments l)) ->
               eviction_key victim <= eviction_key g) /\
    add_fragment l f =
      Returned (set_fragments l
                  (dict_set String.eqb (fragment_id f) f
                     (dict_remove String.eqb (fragment_id victim) (fragments l))),
                true) /\
    S (length (dict_remove String.eqb (fragment_id victim) (fragments l)))
      = length (fragments l).
Proof.
  intros Hwf Hfull Hne.
  destruct (min_by_nonempty eviction_key (dict_values (fragments l))) as [victim Hmin].
  { unfold dict_values. destruct (fragments l); [contradiction|discriminate]. }
  destruct (min_by_spec _ _ _ Hmin) as [Hin Hleast].
  pose proof (wf_fragments_value_key _ _ Hwf Hin) as Hkey.
  exists victim. repeat split; try assumption.
  - unfold add_fragment, layer_size in *.
    apply Z.leb_le in Hfull. rewrite Hfull. rewrite Hmin. simpl.
    unfold dict_del. rewrite (dict_mem_keys _ _ Hkey). reflexivity.
  - apply (dict_remove_length String.eqb string_eqb_spec), Hkey.
Qed.

(** What [add_fragment] does below capacity. *)
Lemma add_fragment_room (l : RecursionLayer) (f : MemoryFragment) :
  (layer_size l < max_fragments l)%Z ->
  add_fragment l f =
    Returned (set_fragments l (dict_set String.eqb (fragment_id f) f (fragments l)),
              true).
Proof.
  intros H. unfold add_fragment, layer_size in *.
  apply Z.leb_gt in H. rewrite H. reflexivity.
Qed.

Lemma add_fragment_invariant (l l' : RecursionLayer) (f : MemoryFragment) (b : bool) :
  wf_layer l -> (layer_size l <= max_fragments l)%Z ->
  add_fragment l f = Returned (l', b) ->
  wf_layer l' /\ (layer_size l' <= max_fragments l')%Z /\
  max_fragments l' = max_fragments l.
Proof.
  intros Hwf Hcap Hadd.
  destruct (Z.lt_ge_cases (layer_size l) (max_fragments l)) as [Hlt|Hge].
  - rewrite (add_fragment_room l f Hlt) in Hadd. inversion Hadd; subst; clear Hadd.
    split; [|split]; [now apply wf_fragments_set| |reflexivity].
    unfold layer_size in *; simpl.
    pose proof (dict_set_length_le String.eqb (fragment_id f) f (fragments l)). lia.
  - assert (Hcases : fragments l = [] \/ fragments l <> []).
    { destruct (fragments l); [now left|right; discriminate]. }
    destruct Hcases as [Efr|Hne].
    + unfold add_fragment in Hadd. rewrite Efr in Hadd.
      unfold layer_size in Hge. rewrite Efr in Hge.
      apply Z.leb_le in Hge. rewrite Hge in Hadd. simpl in Hadd. discriminate.
    + destruct (add_fragment_full l f Hwf Hge Hne)
        as [victim [_ [_ [_ [Heq Hlen]]]]].
      rewrite Heq in Hadd. inversion Hadd; subst; clear Hadd.
      split; [|split]; [|  |reflexivity].
      * apply wf_fragments_set, wf_fragments_remove, Hwf.
      * unfold layer_size in *; simpl.
        pose proof (dict_set_length_le String.eqb (fragment_id f) f
                      (dict_remove String.eqb (fragment_id victim) (fragments l))).
        lia.
Qed.

Lemma add_fragment_returns (l : RecursionLayer) (f : MemoryFragment) :
  wf_layer l -> (1 <= max_fragments l)%Z ->
  exists l', add_fragment l f = Returned (l', true).
Proof.
  intros Hwf Hmax.
  destruct (Z.lt_ge_cases (layer_size l) (max_fragments l)) as [Hlt|Hge].
  - rewrite (add_fragment_room l f Hlt). eauto.
  - assert (Hne : fragments l <> []).
    { unfold layer_size in Hge. destruct (fragments l); [simpl in Hge; lia|discriminate]. }
    destruct (add_fragment_full l f Hwf Hge Hne) as [victim [_ [_ [_ [Heq _]]]]].
    rewrite Heq. eauto.
Qed.

Lemma add_fragments_invariant (fs : list MemoryFragment) (l l' : RecursionLayer) :
  wf_layer l -> (layer_size l <= max_fragments l)%Z ->
  add_fragments l fs = Returned l' ->
  wf_layer l' /\ (layer_size l' <= max_fragments l')%Z /\
  max_fragments l' = max_fragments l.
Proof.
  revert l. induction fs as [|f fs IH]; intros l Hwf Hcap Hrun; simpl in Hrun.
  - inversion Hrun; subst. auto.
  - destruct (add_fragment l f) as [[l1 b]|e] eqn:E; simpl in Hrun; [|discriminate].
    destruct (add_fragment_invariant l l1 f b Hwf Hcap E) as [Hwf1 [Hcap1 Hmax1]].
    destruct (IH l1 Hwf1 Hcap1 Hrun) as [Hwf' [Hcap' Hmax']].
    split; [assumption|split; [assumption|]].
    now rewrite Hmax'.
Qed.

Lemma add_fragments_returns (fs : list MemoryFragment) (l : RecursionLayer) :
  wf_layer l -> (layer_size l <= max_fragments l)%Z -> (1 <= max_fragments l)%Z ->
  exists l', add_fragments l fs = Returned l'.
Proof.
  revert l. induction fs as [|f fs IH]; intros l Hwf Hcap Hmax; simpl.
  - eauto.
  - destruct (add_fragment_returns l f Hwf Hmax) as [l1 E]. rewrite E. simpl.
    destruct (add_fragment_invariant l l1 f true Hwf Hcap E) as [Hwf1 [Hcap1 Hmax1]].
    apply IH; try assumption. lia.
Qed.

(** C2: starting from a layer within its capacity, after any sequence of
    insertions the number of fragments is at most [max_fragments] (and the
    sequence runs to its end when the capacity is at least 1); an insertion
    into a layer at capacity first deletes exactly one fragment, the one
    [min] picks, whose [importance * access_count] is minimal among the
    fragments of the layer, and then stores the new fragment. *)
Theorem C2_layer_capacity_and_eviction
        (l : RecursionLayer) (fs : list MemoryFragment) (f : MemoryFragment) :
  wf_layer l -> (layer_size l <= max_fragments l)%Z -> (1 <= max_fragments l)%Z ->
  (exists l', add_fragments l fs = Returned l' /\
              (layer_size l' <= max_fragments l')%Z /\
              max_fragments l' = max_fragments l) /\
  (layer_size l = max_fragments l ->
   exists victim,
     In victim (dict_values (fragments l)) /\
     (forall g, In g (dict_values (fragments l)) ->
        importance victim * IZR (access_count victim)
        <= importance g * IZR (access_count g)) /\
     add_fragment l f =
       Returned (set_fragments l
                   (dict_set String.eqb (fragment_id f) f
                      (dict_remove String.eqb (fragment_id victim) (fragments l))),
                 true) /\
     S (length (dict_remove String.eqb (fragment_id victim) (fragments l)))
       = length (fragments l) /\
     ~ In (fragment_id victim)
          (dict_keys (dict_remove String.eqb (fragment_id victim) (fragments l)))).
Proof.
  intros Hwf Hcap Hmax. split.
  - destruct (add_fragments_returns fs l Hwf Hcap Hmax) as [l' Hrun].
    exists l'. split; [exact Hrun|].
    destruct (add_fragments_invariant fs l l' Hwf Hcap Hrun) as [_ [H1 H2]]. auto.
  - intros Hfull.
    assert (Hne : fragments l <> []).
    { unfold layer_size in Hfull. destruct (fragments l); [simpl in Hfull; lia|discriminate]. }
    destruct (add_fragment_full l f Hwf (Z.eq_le_incl _ _ (eq_sym Hfull)) Hne)
      as [victim [_ [Hin [Hleast [Heq Hlen]]]]].
    exists victim. repeat split; try assumption.
    apply (dict_remove_not_key String.eqb string_eqb_spec), Hwf.
Qed.

Definition fragment_a : MemoryFragment :=
  mkMemoryFragment "frag_a" "a" zero_vector 0 0 1 [] [].

Definition fragment_b : MemoryFragment :=
  mkMemoryFragment "frag_b" "b" zero_vector 0 0 1 [] [].

Definition layer_of_one : RecursionLayer :=
  mkRecursionLayer "layer_0" 0 [("frag_a", fragment_a)] 0.5 1.

Lemma layer_of_one_wf : wf_layer layer_of_one.
Proof.
  split; simpl.
  - constructor; [intros []|constructor].
  - intros k f [E|[]]. inversion E; subst. reflexivity.
Qed.

Lemma C2_layer_capacity_and_eviction_witness :
  wf_layer layer_of_one /\
  (layer_size layer_of_one <= max_fragments layer_of_one)%Z /\
  (1 <= max_fragments layer_of_one)%Z /\
  exists l', add_fragments layer_of_one [fragment_b; fragment_a] = Returned l' /\
             (layer_size l' <= max_fragments l')%Z.
Proof.
  assert (H1 : (layer_size layer_of_one <= max_fragments layer_of_one)%Z)
    by (unfold layer_size; simpl; lia).
  assert (H2 : (1 <= max_fragments layer_of_one)%Z) by (simpl; lia).
  split; [exact layer_of_one_wf|]. split; [exact H1|]. split; [exact H2|].
  destruct (C2_layer_capacity_and_eviction layer_of_one [fragment_b; fragment_a]
              fragment_b layer_of_one_wf H1 H2) as [[l' [Hrun [Hcap _]]] _].
  exists l'. split; assumption.
Defined.

(** *** Well-formed managers *)

(** The layers are keyed by the depths [0 .. max_recursion_depth - 1]; each
    is well formed, within its capacity, and of capacity at least 1 (the
    constructor gives at least 100). *)
Definition wf_manager (m : MemoryRecursionManager) : Prop :=
  NoDup (dict_keys (recursion_layers m)) /\
  (forall d, In d (dict_keys (recursion_layers m))
             <-> (0 <= d < max_recursion_depth m)%Z) /\
  (forall d l, In (d, l) (recursion_layers m) ->
     wf_layer l /\ (layer_size l <= max_fragments l)%Z /\ (1 <= max_fragments l)%Z).

(** Mutations of a stored fragment that leave its identity alone. *)
Definition core_preserving (g : MemoryFragment -> MemoryFragment) : Prop :=
  forall f, fragment_id (g f) = fragment_id f /\
            context_vector (g f) = context_vector f /\
            content (g f) = content f.

Lemma append_parent_core (p : string) : core_preserving (append_parent p).
Proof. intros f. repeat split. Qed.

Lemma append_child_core (c : string) : core_preserving (append_child c).
Proof. intros f. repeat split. Qed.


Lemma wf_fragments_update (k : string) (g : MemoryFragment -> MemoryFragment)
      (d : dict string MemoryFragment) :
  core_preserving g -> wf_fragments d -> wf_fragments (dict_update String.eqb k g d).
Proof.
  intros Hg [Hnd Hid]. split.
  - now rewrite dict_keys_update.
  - intros k' f Hin.
    apply (dict_update_In_inv String.eqb string_eqb_spec) in Hin as [Hin|[v [Hin E]]].
    + now apply Hid.
    + inversion E; subst. rewrite (proj1 (Hg v)). now apply Hid.
Qed.

Definition layers_ok (ls : dict Z RecursionLayer) : Prop :=
  forall d l, In (d, l) ls ->
    wf_layer l /\ (layer_size l <= max_fragments l)%Z /\ (1 <= max_fragments l)%Z.

Lemma update_fragment_keys (ls : dict Z RecursionLayer) (d : Z) (fid : string)
      (g : MemoryFragment -> MemoryFragment) :
  dict_keys (update_fragment ls d fid g) = dict_keys ls.
Proof. apply dict_keys_update. Qed.

Lemma update_fragment_ok (ls : dict Z RecursionLayer) (d : Z) (fid : string)
      (g : MemoryFragment -> MemoryFragment) :
  core_preserving g -> layers_ok ls -> layers_ok (update_fragment ls d fid g).
Proof.
  intros Hg Hok d' l' Hin.
  apply (dict_update_In_inv Z.eqb Z_eqb_spec) in Hin as [Hin|[l [Hin E]]].
  - exact (Hok d' l' Hin).
  - inversion E; subst. destruct (Hok d l Hin) as [Hwf [Hcap Hmax]].
    split; [|split].
    + now apply wf_fragments_update.
    + unfold layer_size in *; simpl. now rewrite dict_update_length.
    + exact Hmax.
Qed.

Lemma link_keys (ls : dict Z RecursionLayer) (d : Z) (fid : string)
      (od : Z) (oid : string) :
  dict_keys (link ls d fid od oid) = dict_keys ls.
Proof. unfold link. now rewrite !update_fragment_keys. Qed.

Lemma link_ok (ls : dict Z RecursionLayer) (d : Z) (fid : string)
      (od : Z) (oid : string) :
  layers_ok ls -> layers_ok (link ls d fid od oid).
Proof.
  intros H. unfold link.
  apply update_fragment_ok; [apply append_child_core|].
  apply update_fragment_ok; [apply append_parent_core|exact H].
Qed.

(** A fragment with given identifier, context vector and content sits in
    layer [d]. *)
Definition holds_fragment (ls : dict Z RecursionLayer) (d : Z)
           (fid : string) (cv : ScrollVector) (c : string) : Prop :=
  exists l f, In (d, l) ls /\ In (fid, f) (fragments l) /\
              context_vector f = cv /\ content f = c.

Lemma dict_update_In_keep {K V : Type} (eqb : K -> K -> bool)
      (k0 : K) (g : V -> V) (k : K) (v : V) (d : dict K V) :
  In (k, v) d -> exists v', In (k, v') (dict_update eqb k0 g d) /\ (v' = v \/ v' = g v).
Proof.
  induction d as [|[k' w] t IH]; simpl; [intros []|].
  intros [E|Hin].
  - inversion E; subst. destruct (eqb k0 k); simpl; eauto.
  - destruct (IH Hin) as [v' [H1 H2]].
    destruct (eqb k0 k'); simpl; eauto.
Qed.

Lemma update_fragment_holds (ls : dict Z RecursionLayer) (d0 : Z) (k0 : string)
      (g : MemoryFragment -> MemoryFragment)
      (d : Z) (fid : string) (cv : ScrollVector) (c : string) :
  core_preserving g ->
  holds_fragment ls d fid cv c -> holds_fragment (update_fragment ls d0 k0 g) d fid cv c.
Proof.
  intros Hg [l [f [Hl [Hf [Hcv Hc]]]]].
  destruct (dict_update_In_keep Z.eqb d0
              (fun l => set_fragments l (dict_update String.eqb k0 g (fragments l)))
              d l ls Hl) as [l' [Hl' [E|E]]]; subst l'.
  - exists l, f. auto.
  - destruct (dict_update_In_keep String.eqb k0 g fid f (fragments l) Hf)
      as [f' [Hf' [E|E]]]; subst f'.
    + eexists; exists f. split; [exact Hl'|]. simpl. auto.
    + eexists; exists (g f). split; [exact Hl'|]. simpl.
      destruct (Hg f) as [_ [H1 H2]]. rewrite H1, H2. auto.
Qed.

Lemma link_holds (ls : dict Z RecursionLayer) (d0 : Z) (k0 : string)
      (od : Z) (oid : string)
      (d : Z) (fid : string) (cv : ScrollVector) (c : string) :
  holds_fragment ls d fid cv c -> holds_fragment (link ls d0 k0 od oid) d fid cv c.
Proof.
  intros H. unfold link.
  apply update_fragment_holds; [apply append_child_core|].
  apply update_fragment_holds; [apply append_parent_core|exact H].
Qed.

(** The same-layer linking loop of [_create_recursive_connections]. *)
Definition link_similar (d : Z) (fid : string) (similar : list MemoryFragment)
           (ls : dict Z RecursionLayer) : dict Z RecursionLayer :=
  fold_left
    (fun ls similar =>
       if negb (String.eqb (fragment_id similar) fid)
       then link ls d fid d (fragment_id similar)
       else ls)
    similar ls.

Lemma link_similar_inv (P : dict Z RecursionLayer -> Prop)
      (d : Z) (fid : string) (similar : list MemoryFragment)
      (ls : dict Z RecursionLayer) :
  (forall ls od oid, P ls -> P (link ls d fid od oid)) ->
  P ls -> P (link_similar d fid similar ls).
Proof.
  intros Hstep. revert ls. unfold link_similar.
  induction similar as [|s t IH]; intros ls HP; simpl; [exact HP|].
  apply IH. destruct (negb _); [now apply Hstep|exact HP].
Qed.

Lemma dict_get_of_key {V : Type} (k : Z) (d : dict Z V) :
  In k (dict_keys d) -> exists v, dict_get Z.eqb k d = Some v /\ In (k, v) d.
Proof.
  intros H. destruct (dict_get Z.eqb k d) as [v|] eqn:E.
  - exists v. split; [reflexivity|].
    now apply (dict_get_In Z.eqb Z_eqb_spec).
  - apply (dict_get_None_keys Z.eqb Z_eqb_spec) in E. contradiction.
Qed.

Lemma wf_manager_set_layers (m : MemoryRecursionManager) (ls : dict Z RecursionLayer) :
  wf_manager m -> dict_keys ls = dict_keys (recursion_layers m) -> layers_ok ls ->
  wf_manager (set_layers m ls).
Proof.
  intros [Hnd [Hkeys Hok]] Hk Hls. unfold wf_manager; simpl.
  rewrite Hk. auto.
Qed.

Lemma new_manager_keys (max_depth : Z) (lifetime threshold : R) :
  dict_keys (recursion_layers (new_manager max_depth lifetime threshold))
  = map Z.of_nat (seq 0 (Z.to_nat max_depth)).
Proof.
  unfold new_manager, dict_keys; simpl. rewrite map_map. reflexivity.
Qed.

Lemma new_manager_wf (max_depth : Z) (lifetime threshold : R) :
  wf_manager (new_manager max_depth lifetime threshold).
Proof.
  split; [|split].
  - rewrite new_manager_keys. apply Finite.Injective_map_NoDup.
    + intros a b. apply Nat2Z.inj.
    + apply seq_NoDup.
  - intros d. rewrite new_manager_keys, in_map_iff. simpl. split.
    + intros [n [<- Hn]]. apply in_seq in Hn. lia.
    + intros Hd. exists (Z.to_nat d). split; [lia|]. apply in_seq. lia.
  - intros d l Hin. simpl in Hin. apply in_map_iff in Hin as [n [E _]].
    inversion E; subst. split; [|split].
    + apply wf_fragments_nil.
    + unfold layer_size; simpl. lia.
    + simpl. lia.
Qed.

Lemma new_manager_empty (max_depth : Z) (lifetime threshold : R) (d : Z)
      (l : RecursionLayer) :
  In (d, l) (recursion_layers (new_manager max_depth lifetime threshold)) ->
  fragments l = [].
Proof.
  simpl. intros Hin. apply in_map_iff in Hin as [n [E _]].
  inversion E; subst. reflexivity.
Qed.

Lemma add_fragment_stores (l l' : RecursionLayer) (f : MemoryFragment) (b : bool) :
  add_fragment l f = Returned (l', b) -> In (fragment_id f, f) (fragments l').
Proof.
  unfold add_fragment.
  destruct (max_fragments l <=? Z.of_nat (length (fragments l)))%Z.
  - destruct (min_by eviction_key (dict_values (fragments l))) as [v|e]; simpl;
      [|discriminate].
    destruct (dict_del String.eqb (fragment_id v) (fragments l)) as [frs|e]; simpl;
      [|discriminate].
    intros [= <- _]. simpl. apply (dict_set_In String.eqb string_eqb_spec).
  - simpl. intros [= <- _]. simpl. apply (dict_set_In String.eqb string_eqb_spec).
Qed.

(** The linking step on a layer that exists: no exception, the shape of the
    store is kept, and so is every stored fragment's identity. *)
Lemma create_connections_ok (m : MemoryRecursionManager)
      (fragment : MemoryFragment) (d : Z) :
  wf_manager m -> (0 <= d < max_recursion_depth m)%Z ->
  exists m',
    _create_recursive_connections m fragment d = (m', Returned tt) /\
    wf_manager m' /\ max_recursion_depth m' = max_recursion_depth m /\
    forall d' fid cv c,
      holds_fragment (recursion_layers m) d' fid cv c ->
      holds_fragment (recursion_layers m') d' fid cv c.
Proof.
  intros Hwf Hd. destruct Hwf as [Hnd [Hkeys Hok]].
  assert (Hwf : wf_manager m) by (split; [|split]; assumption).
  unfold _create_recursive_connections.
  destruct (dict_get_of_key d (recursion_layers m)) as [cl [Hget _]];
    [now apply Hkeys|].
  rewrite Hget.
  set (similar := firstn 3 _).
  change (fold_left _ similar (recursion_layers m))
    with (link_similar d (fragment_id fragment) similar (recursion_layers m)).
  set (ls1 := link_similar d (fragment_id fragment) similar (recursion_layers m)).
  assert (Hk1 : dict_keys ls1 = dict_keys (recursion_layers m)).
  { unfold ls1. apply link_similar_inv; [|reflexivity].
    intros ls od oid H. now rewrite link_keys. }
  assert (Hok1 : layers_ok ls1).
  { unfold ls1. apply link_similar_inv; [|exact Hok].
    intros ls od oid H. now apply link_ok. }
  assert (Hh1 : forall d' fid cv c,
             holds_fragment (recursion_layers m) d' fid cv c ->
             holds_fragment ls1 d' fid cv c).
  { intros d' fid cv c H. unfold ls1. apply link_similar_inv; [|exact H].
    intros ls od oid H'. now apply link_holds. }
  destruct (0 <? d)%Z eqn:Epos.
  - apply Z.ltb_lt in Epos.
    destruct (dict_get_of_key (d - 1)%Z ls1) as [pl [Hgetp _]].
    { rewrite Hk1. apply Hkeys. lia. }
    rewrite Hgetp.
    destruct (find_similar_fragments pl (context_vector fragment) (Some 0.6))
      as [|parent rest].
    + eexists. split; [reflexivity|]. split; [|split; [reflexivity|exact Hh1]].
      now apply wf_manager_set_layers.
    + eexists. split; [reflexivity|]. split; [|split; [reflexivity|]].
      * apply wf_manager_set_layers; [exact Hwf| |now apply link_ok].
        now rewrite link_keys.
      * intros d' fid cv c H. simpl. apply link_holds, Hh1, H.
  - eexists. split; [reflexivity|]. split; [|split; [reflexivity|exact Hh1]].
    now apply wf_manager_set_layers.
Qed.

(** A store at an existing depth returns the identifier and leaves the
    fragment in that layer. *)
Lemma store_at_valid_depth (m : MemoryRecursionManager)
      (fid : string) (now : R) (c : string) (cv : ScrollVector)
      (imp : R) (target_depth : option Z) :
  wf_manager m ->
  (0 <= effective_depth m c cv target_depth < max_recursion_depth m)%Z ->
  exists m',
    store_memory_fragment m fid now c cv imp target_depth = (m', Returned fid) /\
    wf_manager m' /\ max_recursion_depth m' = max_recursion_depth m /\
    holds_fragment (recursion_layers m') (effective_depth m c cv target_depth) fid cv c.
Proof.
  intros Hwf Hd. unfold store_memory_fragment.
  set (td := effective_depth m c cv target_depth) in *.
  set (fragment := mkMemoryFragment fid c cv now 0 imp [] []).
  destruct Hwf as [Hnd [Hkeys Hok]].
  assert (Hwf : wf_manager m) by (split; [|split]; assumption).
  destruct (dict_get_of_key td (recursion_layers m)) as [layer [Hget Hin]];
    [now apply Hkeys|].
  rewrite Hget.
  destruct (Hok td layer Hin) as [Hwfl [Hcap Hmax]].
  destruct (add_fragment_returns layer fragment Hwfl Hmax) as [l' Hadd].
  rewrite Hadd. simpl.
  set (m1 := set_layers m (dict_set Z.eqb td l' (recursion_layers m))).
  assert (Hwf1 : wf_manager m1).
  { apply wf_manager_set_layers; [exact Hwf| |].
    - apply (dict_keys_set_mem Z.eqb Z_eqb_spec). eapply In_dict_keys, Hin.
    - intros d0 l0 Hin0.
      apply (dict_set_In_inv Z.eqb Z_eqb_spec) in Hin0 as [E|Hin0].
      + inversion E; subst.
        destruct (add_fragment_invariant layer l' fragment true Hwfl Hcap Hadd)
          as [H1 [H2 H3]].
        split; [exact H1|split; [exact H2|]]. rewrite H3. exact Hmax.
      + exact (Hok d0 l0 Hin0). }
  assert (Hh1 : holds_fragment (recursion_layers m1) td fid cv c).
  { exists l', fragment. split; [|split; [|split; reflexivity]].
    - simpl. apply (dict_set_In Z.eqb Z_eqb_spec).
    - apply (add_fragment_stores layer l' fragment true Hadd). }
  destruct (create_connections_ok m1 fragment td Hwf1 Hd)
    as [m2 [Hc [Hwf2 [Hmax2 Hh2]]]].
  rewrite Hc. simpl. exists m2. split; [reflexivity|].
  split; [exact Hwf2|]. split; [exact Hmax2|]. now apply Hh2.
Qed.

Lemma store_at_missing_depth (m : MemoryRecursionManager)
      (fid : string) (now : R) (c : string) (cv : ScrollVector)
      (imp : R) (target_depth : option Z) :
  wf_manager m ->
  ~ (0 <= effective_depth m c cv target_depth < max_recursion_depth m)%Z ->
  store_memory_fragment m fid now c cv imp target_depth = (m, Raised KeyError).
Proof.
  intros [Hnd [Hkeys Hok]] Hd. unfold store_memory_fragment.
  set (td := effective_depth m c cv target_depth) in *.
  assert (Hget : dict_get Z.eqb td (recursion_layers m) = None).
  { apply (dict_get_None_keys Z.eqb Z_eqb_spec). intros H. apply Hd, Hkeys, H. }
  rewrite Hget. unfold _create_recursive_connections. rewrite Hget. reflexivity.
Qed.

Lemma optimal_depth_range (m : MemoryRecursionManager) (c : string) (cv : ScrollVector) :
  (1 <= max_recursion_depth m)%Z ->
  (0 <= _calculate_optimal_depth m c cv < max_recursion_depth m)%Z.
Proof. unfold _calculate_optimal_depth. lia. Qed.


Definition default_manager : MemoryRecursionManager := new_manager 10 30 0.5.


(** *** The depth chosen by a store *)








Definition unit_x : ScrollVector := mkScrollVector 1 0 0 0 0.

Lemma magnitude_unit_x : magnitude unit_x = 1.
Proof.
  unfold magnitude, unit_x; simpl.
  replace (1 * (1 * 1) + 0 * (0 * 1) + 0 * (0 * 1) + 0 * (0 * 1) + 0 * (0 * 1))
    with 1 by ring.
  apply sqrt_1.
Qed.





(** *** Store, then retrieve *)

Lemma magnitude_zero_vector : magnitude zero_vector = 0.
Proof. apply magnitude_zero_iff. reflexivity. Qed.

Lemma similarity_self (v : ScrollVector) : _calculate_vector_similarity v v = 1.
Proof.
  unfold _calculate_vector_similarity.
  replace (mkScrollVector (x v - x v) (y v - y v) (z v - z v)
             (temporal v - temporal v) (symbolic v - symbolic v))
    with zero_vector by (unfold zero_vector; f_equal; ring).
  rewrite magnitude_zero_vector. rewrite Rmax_right; lra.
Qed.

Lemma find_similar_In (l : RecursionLayer) (q : ScrollVector) (t : option R)
      (f : MemoryFragment) :
  In f (find_similar_fragments l q t) <->
  In f (dict_values (fragments l)) /\
  threshold_or t (coherence_threshold l)
  <= _calculate_vector_similarity q (context_vector f).
Proof.
  unfold find_similar_fragments. rewrite sorted_desc_In, filter_In, Rleb_true.
  reflexivity.
Qed.

Lemma threshold_or_nonzero (t d : R) : t <> 0 -> threshold_or (Some t) d = t.
Proof. intros H. unfold threshold_or. apply Reqb_false in H. now rewrite H. Qed.

Lemma collect_candidates_In (m : MemoryRecursionManager) (q : ScrollVector) (t : R)
      (d : Z) (l : RecursionLayer) (f : MemoryFragment) :
  In (d, l) (recursion_layers m) ->
  In f (find_similar_fragments l q (Some t)) ->
  In (d, f) (collect_candidates m q t).
Proof.
  intros Hl Hf. unfold collect_candidates. apply in_flat_map.
  exists (d, l). split; [exact Hl|]. simpl.
  apply in_map_iff. exists f. auto.
Qed.

Lemma py_slice_to_all {A : Type} (n : Z) (l : list A) :
  (Z.of_nat (length l) <= n)%Z -> py_slice_to n l = l.
Proof.
  intros H. unfold py_slice_to.
  assert (E : (0 <=? n)%Z = true) by (apply Z.leb_le; lia).
  rewrite E. apply firstn_all2. lia.
Qed.

Lemma store_returned_depth (m m1 : MemoryRecursionManager)
      (fid r : string) (now : R) (c : string) (cv : ScrollVector)
      (imp : R) (td : option Z) :
  wf_manager m ->
  store_memory_fragment m fid now c cv imp td = (m1, Returned r) ->
  (0 <= effective_depth m c cv td < max_recursion_depth m)%Z.
Proof.
  intros Hwf Hs.
  destruct (Z.le_gt_cases 0 (effective_depth m c cv td)) as [H1|H1];
    destruct (Z.lt_ge_cases (effective_depth m c cv td) (max_recursion_depth m))
      as [H2|H2]; try lia;
    rewrite (store_at_missing_depth m fid now c cv imp td Hwf) in Hs by lia;
    discriminate.
Qed.

(** C3 (amended): after a store that returned, an immediately following
    retrieval with the stored context vector and the default threshold 0.5
    and limit 10 returns the stored fragment, provided the store then holds
    at most 10 fragments that pass the threshold for that vector (the
    results are the 10 first by [importance * access_count], and a fresh
    fragment has the product 0). *)
Theorem C3_store_then_retrieve
        (m m1 : MemoryRecursionManager) (fid : string) (now now' : R)
        (c : string) (cv : ScrollVector) (imp : R) (td : option Z) :
  wf_manager m ->
  store_memory_fragment m fid now c cv imp td = (m1, Returned fid) ->
  (length (collect_candidates m1 cv 0.5) <= 10)%nat ->
  exists f,
    In f (snd (retrieve_memory_fragments m1 now' cv 10 0.5)) /\
    fragment_id f = fid /\ context_vector f = cv /\ content f = c.
Proof.
  intros Hwf Hs Hcount.
  pose proof (store_returned_depth m m1 fid fid now c cv imp td Hwf Hs) as Hd.
  destruct (store_at_valid_depth m fid now c cv imp td Hwf Hd)
    as [m' [Hs' [Hwf' [_ Hh]]]].
  rewrite Hs in Hs'. inversion Hs'; subst m'; clear Hs'.
  destruct Hh as [l [f [Hl [Hf [Hcv Hc]]]]].
  destruct Hwf' as [_ [_ Hok]].
  destruct (Hok _ l Hl) as [[_ Hid] _].
  assert (Hcand : In (effective_depth m c cv td, f) (collect_candidates m1 cv 0.5)).
  { apply (collect_candidates_In m1 cv 0.5 _ l f Hl).
    apply find_similar_In. split.
    - apply In_dict_values. eauto.
    - rewrite threshold_or_nonzero by lra. rewrite Hcv, similarity_self. lra. }
  exists (update_access now' f). split.
  - unfold retrieve_memory_fragments; simpl.
    rewrite py_slice_to_all.
    + apply in_map_iff. exists (effective_depth m c cv td, f). split; [reflexivity|].
      now apply sorted_desc_In.
    + unfold sorted_desc. rewrite py_sorted_length. lia.
  - simpl. split; [now apply Hid|]. auto.
Qed.

(** *** Stores that create no link *)

Lemma filter_none {A : Type} (p : A -> bool) (l : list A) :
  (forall a, In a l -> p a = false) -> filter p l = [].
Proof.
  induction l as [|a t IH]; intros H; simpl; [reflexivity|].
  rewrite (H a (or_introl eq_refl)). apply IH. intros b Hb. apply H. now right.
Qed.

Lemma find_similar_none (l : RecursionLayer) (q : ScrollVector) (t : R) :
  t <> 0 ->
  (forall f, In f (dict_values (fragments l)) ->
             _calculate_vector_similarity q (context_vector f) < t) ->
  find_similar_fragments l q (Some t) = [].
Proof.
  intros Ht H. unfold find_similar_fragments.
  rewrite threshold_or_nonzero by assumption.
  rewrite filter_none; [reflexivity|].
  intros f Hf. apply Rleb_false. now apply H.
Qed.

(** Every fragment of the layer passes the threshold and the layer already
    lists them by decreasing importance: the result is the layer's values. *)
Lemma find_similar_all (l : RecursionLayer) (q : ScrollVector) (t : R) :
  t <> 0 ->
  (forall f, In f (dict_values (fragments l)) ->
             t <= _calculate_vector_similarity q (context_vector f)) ->
  StronglySorted (fun a b => Rleb (importance b) (importance a) = true)
                 (dict_values (fragments l)) ->
  find_similar_fragments l q (Some t) = dict_values (fragments l).
Proof.
  intros Ht Hsim Hs. unfold find_similar_fragments.
  rewrite threshold_or_nonzero by assumption.
  rewrite forallb_filter_id.
  - apply py_sorted_id. exact Hs.
  - apply forallb_forall. intros f Hf. apply Rleb_true. now apply Hsim.
Qed.

Lemma dict_values_app {K V : Type} (d1 d2 : dict K V) :
  dict_values (d1 ++ d2) = dict_values d1 ++ dict_values d2.
Proof. apply map_app. Qed.

Lemma find_similar_only_new (l : RecursionLayer) (f : MemoryFragment) (t : R) :
  t <> 0 -> t <= 1 ->
  (forall g, In g (dict_values (fragments l)) ->
             _calculate_vector_similarity (context_vector f) (context_vector g) < t) ->
  find_similar_fragments
    (set_fragments l (fragments l ++ [(fragment_id f, f)]))
    (context_vector f) (Some t) = [f].
Proof.
  intros Ht0 Ht1 H. unfold find_similar_fragments.
  rewrite threshold_or_nonzero by assumption. simpl fragments.
  rewrite dict_values_app, filter_app. rewrite filter_none.
  - simpl. rewrite similarity_self.
    assert (E : Rleb t 1 = true) by now apply Rleb_true.
    rewrite E. reflexivity.
  - intros g Hg. apply Rleb_false. now apply H.
Qed.

Definition new_fragment (fid : string) (now : R) (c : string)
           (cv : ScrollVector) (imp : R) : MemoryFragment :=
  mkMemoryFragment fid c cv now 0 imp [] [].

(** A store into a layer with room, where no fragment of the layer is
    similar enough (0.7) and none of the layer above is (0.6): the fragment
    is appended to the layer and nothing else changes. *)
Lemma store_without_links (m : MemoryRecursionManager)
      (fid : string) (now : R) (c : string) (cv : ScrollVector)
      (imp : R) (td : option Z) (layer : RecursionLayer) :
  let d := effective_depth m c cv td in
  dict_get Z.eqb d (recursion_layers m) = Some layer ->
  (layer_size layer < max_fragments layer)%Z ->
  ~ In fid (dict_keys (fragments layer)) ->
  (forall f, In f (dict_values (fragments layer)) ->
             _calculate_vector_similarity cv (context_vector f) < 0.7) ->
  ((0 < d)%Z ->
   exists pl, dict_get Z.eqb (d - 1)%Z (recursion_layers m) = Some pl /\
              forall f, In f (dict_values (fragments pl)) ->
                        _calculate_vector_similarity cv (context_vector f) < 0.6) ->
  store_memory_fragment m fid now c cv imp td =
    (set_layers m
       (dict_set Z.eqb d
          (set_fragments layer
             (fragments layer ++ [(fid, new_fragment fid now c cv imp)]))
          (recursion_layers m)),
     Returned fid).
Proof.
  intros d Hget Hroom Hfresh Hsame Hparent.
  unfold store_memory_fragment. fold d.
  change (mkMemoryFragment fid c cv now 0 imp [] [])
    with (new_fragment fid now c cv imp).
  set (fr := new_fragment fid now c cv imp).
  rewrite Hget, (add_fragment_room layer fr Hroom). simpl bind.
  change (fragment_id fr) with fid.
  rewrite (dict_keys_set_new String.eqb string_eqb_spec fid fr (fragments layer) Hfresh).
  set (l' := set_fragments layer (fragments layer ++ [(fid, fr)])).
  unfold _create_recursive_connections. simpl recursion_layers.
  rewrite (dict_get_set_same Z.eqb Z_eqb_spec).
  change (context_vector fr) with cv. change (fragment_id fr) with fid.
  assert (Hsim : find_similar_fragments l' cv (Some 0.7) = [fr]).
  { apply (find_similar_only_new layer fr 0.7); [lra|lra|exact Hsame]. }
  rewrite Hsim. simpl firstn. simpl fold_left.
  change (fragment_id fr) with fid. rewrite String.eqb_refl. simpl negb.
  destruct (0 <? d)%Z eqn:Epos.
  - apply Z.ltb_lt in Epos. destruct (Hparent Epos) as [pl [Hgp Hpl]].
    rewrite (dict_get_set_other Z.eqb Z_eqb_spec) by lia.
    rewrite Hgp. rewrite (find_similar_none pl cv 0.6) by (try lra; exact Hpl).
    reflexivity.
  - reflexivity.
Qed.

Arguments find_similar_fragments : simpl never.

Lemma magnitude_of_sumsq (v : ScrollVector) (c : R) :
  0 <= c -> sumsq v = c * c -> magnitude v = c.
Proof.
  intros Hc Hs. change (magnitude v) with (sqrt (sumsq v)). rewrite Hs.
  now apply sqrt_square.
Qed.

Definition far_x : ScrollVector := mkScrollVector 2.25 0 0 0 0.

Lemma similarity_zero_far : _calculate_vector_similarity zero_vector far_x = 0.55.
Proof.
  unfold _calculate_vector_similarity.
  rewrite (magnitude_of_sumsq _ 2.25); [|lra|unfold sumsq; simpl; lra].
  rewrite Rmax_right; lra.
Qed.

(** The identifier and the fragment stored at depth [d] in the scenario. *)
Definition crowd_id (d : nat) : string :=
  ("frag_g" ++ DecimalString.NilZero.string_of_uint (Nat.to_uint d))%string.

Definition crowd_fragment (d : nat) : MemoryFragment :=
  new_fragment (crowd_id d) 0 "g" far_x 1.

Definition crowd_layer (k d : nat) : RecursionLayer :=
  if (k <=? d)%nat
  then set_fragments (initial_layer 0.5 d) [(crowd_id d, crowd_fragment d)]
  else initial_layer 0.5 d.

(** The default manager after the stores at depths 9, 8, ..., [k]. *)
Definition crowd_manager (k : nat) : MemoryRecursionManager :=
  mkMemoryRecursionManager
    (map (fun d => (Z.of_nat d, crowd_layer k d)) (seq 0 10)) 10 30 0.5.

Lemma crowd_manager_start : crowd_manager 10 = default_manager.
Proof. reflexivity. Qed.

Lemma crowd_manager_step (k : nat) :
  (k < 10)%nat ->
  store_memory_fragment (crowd_manager (S k)) (crowd_id k) 0 "g" far_x 1
                        (Some (Z.of_nat k))
  = (crowd_manager k, Returned (crowd_id k)).
Proof.
  intros Hk.
  do 10 (destruct k as [|k]; [
    match goal with
    | |- store_memory_fragment _ (crowd_id ?n) _ _ _ _ _ = _ =>
      rewrite (store_without_links _ _ _ _ _ _ _ (initial_layer 0.5 n));
      [reflexivity | reflexivity | reflexivity | simpl; tauto
      | simpl; tauto
      | intros Hpos;
        first [ discriminate Hpos
              | eexists; split; [reflexivity|simpl; tauto] ] ]
    end | ]).
  lia.
Qed.

Definition crowd_new : MemoryFragment := new_fragment "frag_new" 0 "n" zero_vector 1.

(** The manager after the eleventh store, at depth 9 and at the origin. *)
Definition crowd_after : MemoryRecursionManager :=
  set_layers (crowd_manager 0)
    (dict_set Z.eqb 9%Z
       (set_fragments (crowd_layer 0 9)
          (fragments (crowd_layer 0 9) ++ [("frag_new", crowd_new)]))
       (recursion_layers (crowd_manager 0))).

Lemma far_fragments_below (t : R) (l : list MemoryFragment) :
  0.55 < t ->
  Forall (fun f => context_vector f = far_x) l ->
  forall f, In f l -> _calculate_vector_similarity zero_vector (context_vector f) < t.
Proof.
  intros Ht Hl f Hf. rewrite Forall_forall in Hl.
  rewrite (Hl f Hf), similarity_zero_far. exact Ht.
Qed.

Lemma crowd_store_new :
  store_memory_fragment (crowd_manager 0) "frag_new" 0 "n" zero_vector 1 (Some 9%Z)
  = (crowd_after, Returned "frag_new").
Proof.
  rewrite (store_without_links _ _ _ _ _ _ _ (crowd_layer 0 9)).
  - reflexivity.
  - reflexivity.
  - reflexivity.
  - simpl. intros [H|[]]. discriminate H.
  - apply far_fragments_below; [lra|]. repeat constructor.
  - intros _. exists (crowd_layer 0 8). split; [reflexivity|].
    apply far_fragments_below; [lra|]. repeat constructor.
Qed.

Definition crowd_candidates : list (Z * MemoryFragment) :=
  map (fun d => (Z.of_nat d, crowd_fragment d)) (seq 0 10) ++ [(9%Z, crowd_new)].

Lemma crowd_collect :
  collect_candidates crowd_after zero_vector 0.5 = crowd_candidates.
Proof.
  unfold collect_candidates. simpl.
  repeat (rewrite find_similar_all;
          [ | lra
            | simpl; intros f Hf;
              repeat (destruct Hf as [<-|Hf]; [simpl context_vector;
                        first [rewrite similarity_zero_far | rewrite similarity_self]; lra|]);
              contradiction
            | repeat constructor; apply Rleb_true; simpl; lra ]).
  reflexivity.
Qed.

Lemma crowd_candidates_sorted :
  sorted_desc (fun c : Z * MemoryFragment => eviction_key (snd c)) crowd_candidates
  = crowd_candidates.
Proof.
  apply py_sorted_id. unfold crowd_candidates. simpl.
  repeat constructor; apply Rleb_true; unfold eviction_key; simpl; lra.
Qed.

(** The crowded store is what ten stores leave, from depth 9 down to 0. *)
Lemma crowd_manager_reachable :
  fold_left
    (fun m k => fst (store_memory_fragment m (crowd_id k) 0 "g" far_x 1
                                           (Some (Z.of_nat k))))
    (rev (seq 0 10)) default_manager
  = crowd_manager 0.
Proof.
  rewrite <- crowd_manager_start.
  change (rev (seq 0 10)) with [9; 8; 7; 6; 5; 4; 3; 2; 1; 0]%nat.
  cbn [fold_left].
  repeat (rewrite crowd_manager_step by lia; cbn [fst]).
  reflexivity.
Qed.

(** Ten fragments at distance 2.25 of the origin, one per layer, then a
    fragment stored at the origin in the last layer: the retrieval at the
    origin returns the ten and not the new one. *)
Lemma C3_store_then_retrieve_counterexample :
  exists m1,
    store_memory_fragment (crowd_manager 0) "frag_new" 0 "n" zero_vector 1 (Some 9%Z)
      = (m1, Returned "frag_new") /\
    length (snd (retrieve_memory_fragments m1 0 zero_vector 10 0.5)) = 10%nat /\
    forall f, In f (snd (retrieve_memory_fragments m1 0 zero_vector 10 0.5)) ->
              fragment_id f <> "frag_new".
Proof.
  exists crowd_after. split; [exact crowd_store_new|].
  unfold retrieve_memory_fragments. simpl snd.
  rewrite crowd_collect, crowd_candidates_sorted. split; [reflexivity|].
  simpl. intros f Hf.
  repeat (destruct Hf as [<-|Hf]; [discriminate|]). contradiction.
Qed.

Lemma find_similar_length (l : RecursionLayer) (q : ScrollVector) (t : option R) :
  (length (find_similar_fragments l q t) <= length (fragments l))%nat.
Proof.
  unfold find_similar_fragments, sorted_desc. rewrite py_sorted_length.
  etransitivity; [apply filter_length_le|].
  unfold dict_values. now rewrite length_map.
Qed.

(** No more candidates than stored fragments. *)
Lemma collect_candidates_length (m : MemoryRecursionManager) (q : ScrollVector) (t : R) :
  (length (collect_candidates m q t)
   <= list_sum (map (fun kl => length (fragments (snd kl))) (recursion_layers m)))%nat.
Proof.
  unfold collect_candidates.
  induction (recursion_layers m) as [|[d l] ls IH]; simpl; [lia|].
  rewrite length_app, length_map.
  pose proof (find_similar_length l q (Some t)). lia.
Qed.

Lemma C3_store_then_retrieve_witness :
  wf_manager default_manager /\
  store_memory_fragment default_manager (crowd_id 9) 0 "g" far_x 1 (Some 9%Z)
    = (crowd_manager 9, Returned (crowd_id 9)) /\
  (length (collect_candidates (crowd_manager 9) far_x 0.5) <= 10)%nat /\
  exists f,
    In f (snd (retrieve_memory_fragments (crowd_manager 9) 1 far_x 10 0.5)) /\
    fragment_id f = crowd_id 9 /\ context_vector f = far_x /\ content f = "g".
Proof.
  pose proof (new_manager_wf 10 30 0.5) as Hwf.
  pose proof (crowd_manager_step 9 (Nat.lt_succ_diag_r 9)) as Hs.
  assert (Hc : (length (collect_candidates (crowd_manager 9) far_x 0.5) <= 10)%nat).
  { etransitivity; [apply collect_candidates_length|]. simpl. lia. }
  split; [exact Hwf|]. split; [exact Hs|]. split; [exact Hc|].
  exact (C3_store_then_retrieve default_manager (crowd_manager 9) (crowd_id 9)
           0 1 "g" far_x 1 (Some 9%Z) Hwf Hs Hc).
Defined.

(** *** The parent link *)

(** A store into a layer [d > 0] that finds no similar fragment in its own
    layer and at least one candidate in layer [d - 1]: the link goes to the
    head of [find_similar_fragments] on that layer. *)
Lemma store_links_parent (m : MemoryRecursionManager)
      (fid : string) (now : R) (c : string) (cv : ScrollVector)
      (imp : R) (td : option Z) (layer pl : RecursionLayer)
      (parent : MemoryFragment) (rest : list MemoryFragment) :
  let d := effective_depth m c cv td in
  dict_get Z.eqb d (recursion_layers m) = Some layer ->
  (layer_size layer < max_fragments layer)%Z ->
  ~ In fid (dict_keys (fragments layer)) ->
  (forall f, In f (dict_values (fragments layer)) ->
             _calculate_vector_similarity cv (context_vector f) < 0.7) ->
  (0 < d)%Z ->
  dict_get Z.eqb (d - 1)%Z (recursion_layers m) = Some pl ->
  find_similar_fragments pl cv (Some 0.6) = parent :: rest ->
  store_memory_fragment m fid now c cv imp td =
    (set_layers m
       (link
          (dict_set Z.eqb d
             (set_fragments layer
                (fragments layer ++ [(fid, new_fragment fid now c cv imp)]))
             (recursion_layers m))
          d fid (d - 1)%Z (fragment_id parent)),
     Returned fid).
Proof.
  intros d Hget Hroom Hfresh Hsame Hpos Hgp Hcand.
  unfold store_memory_fragment. fold d.
  change (mkMemoryFragment fid c cv now 0 imp [] [])
    with (new_fragment fid now c cv imp).
  set (fr := new_fragment fid now c cv imp).
  rewrite Hget, (add_fragment_room layer fr Hroom). simpl bind.
  change (fragment_id fr) with fid.
  rewrite (dict_keys_set_new String.eqb string_eqb_spec fid fr (fragments layer) Hfresh).
  set (l' := set_fragments layer (fragments layer ++ [(fid, fr)])).
  unfold _create_recursive_connections. simpl recursion_layers.
  rewrite (dict_get_set_same Z.eqb Z_eqb_spec).
  change (context_vector fr) with cv. change (fragment_id fr) with fid.
  assert (Hsim : find_similar_fragments l' cv (Some 0.7) = [fr]).
  { apply (find_similar_only_new layer fr 0.7); [lra|lra|exact Hsame]. }
  rewrite Hsim. simpl firstn. simpl fold_left.
  change (fragment_id fr) with fid. rewrite String.eqb_refl. simpl negb.
  apply Z.ltb_lt in Hpos as Hpos'. rewrite Hpos'.
  rewrite (dict_get_set_other Z.eqb Z_eqb_spec) by lia.
  rewrite Hgp, Hcand. reflexivity.
Qed.

Definition near_x : ScrollVector := mkScrollVector (-0.75) 0 0 0 0.

Lemma similarity_zero_unit : _calculate_vector_similarity zero_vector unit_x = 0.8.
Proof.
  unfold _calculate_vector_similarity.
  rewrite (magnitude_of_sumsq _ 1); [|lra|unfold sumsq; simpl; lra].
  rewrite Rmax_right; lra.
Qed.

Lemma similarity_zero_near : _calculate_vector_similarity zero_vector near_x = 0.85.
Proof.
  unfold _calculate_vector_similarity.
  rewrite (magnitude_of_sumsq _ 0.75); [|lra|unfold sumsq; simpl; lra].
  rewrite Rmax_right; lra.
Qed.

Lemma similarity_unit_near : _calculate_vector_similarity unit_x near_x = 0.65.
Proof.
  unfold _calculate_vector_similarity.
  rewrite (magnitude_of_sumsq _ 1.75); [|lra|unfold sumsq; simpl; lra].
  rewrite Rmax_right; lra.
Qed.

(** Layer 0 of the scenario: the closer fragment of importance 0.5 stored
    first, the farther one of importance 1 stored second. *)
Definition closer_fragment : MemoryFragment := new_fragment "frag_close" 0 "c" near_x 0.5.
Definition weightier_fragment : MemoryFragment := new_fragment "frag_heavy" 0 "h" unit_x 1.

Definition two_parents_layer : RecursionLayer :=
  set_fragments (initial_layer 0.5 0)
    [("frag_close", closer_fragment); ("frag_heavy", weightier_fragment)].

Definition two_parents_manager : MemoryRecursionManager :=
  set_layers default_manager
    (dict_set Z.eqb 0%Z two_parents_layer (recursion_layers default_manager)).

Lemma two_parents_reachable :
  fst (store_memory_fragment
         (fst (store_memory_fragment default_manager "frag_close" 0 "c" near_x 0.5
                                     (Some 0%Z)))
         "frag_heavy" 0 "h" unit_x 1 (Some 0%Z))
  = two_parents_manager.
Proof.
  rewrite (store_without_links default_manager "frag_close" 0 "c" near_x 0.5
             (Some 0%Z) (initial_layer 0.5 0));
    [ | reflexivity | reflexivity | simpl; tauto | simpl; tauto
      | intros H; discriminate H ].
  cbn [fst].
  rewrite (store_without_links _ _ _ _ _ _ _
             (set_fragments (initial_layer 0.5 0) [("frag_close", closer_fragment)]));
    [ reflexivity | reflexivity | reflexivity
      | simpl; intros [H|[]]; discriminate H
      | simpl; intros f [<-|[]]; simpl context_vector;
        rewrite similarity_unit_near; lra
      | intros H; discriminate H ].
Qed.

Lemma two_parents_candidates :
  find_similar_fragments two_parents_layer zero_vector (Some 0.6)
  = [weightier_fragment; closer_fragment].
Proof.
  unfold find_similar_fragments. rewrite threshold_or_nonzero by lra.
  rewrite forallb_filter_id.
  - unfold sorted_desc. simpl.
    assert (E : Rleb 1 0.5 = false) by (apply Rleb_false; lra).
    rewrite E. reflexivity.
  - simpl. rewrite similarity_zero_near, similarity_zero_unit.
    assert (E1 : Rleb 0.6 0.85 = true) by (apply Rleb_true; lra).
    assert (E2 : Rleb 0.6 0.8 = true) by (apply Rleb_true; lra).
    rewrite E1, E2. reflexivity.
Qed.

Definition fragment_of (m : MemoryRecursionManager) (d : Z) (fid : string)
  : option MemoryFragment :=
  match dict_get Z.eqb d (recursion_layers m) with
  | Some l => dict_get String.eqb fid (fragments l)
  | None => None
  end.

(** C7, at the failing input: a fragment stored at the origin in layer 1,
    when layer 0 holds a fragment of similarity 0.85 and importance 0.5 and
    one of similarity 0.8 and importance 1, is linked to the second, the
    less similar of the two. *)
Theorem C7_parent_link_by_importance :
  let m := fst (store_memory_fragment two_parents_manager "frag_new" 0 "n"
                                      zero_vector 1 (Some 1%Z)) in
  _calculate_vector_similarity zero_vector (context_vector weightier_fragment)
  < _calculate_vector_similarity zero_vector (context_vector closer_fragment) /\
  option_map parent_fragments (fragment_of m 1 "frag_new") = Some ["frag_heavy"] /\
  option_map child_fragments (fragment_of m 0 "frag_heavy") = Some ["frag_new"] /\
  option_map child_fragments (fragment_of m 0 "frag_close") = Some [].
Proof.
  intros m. split.
  - simpl context_vector. rewrite similarity_zero_unit, similarity_zero_near. lra.
  - unfold m.
    rewrite (store_links_parent _ _ _ _ _ _ _ (initial_layer 0.5 1) two_parents_layer
               weightier_fragment [closer_fragment]);
      [ | reflexivity | reflexivity | simpl; tauto | simpl; tauto | reflexivity
        | reflexivity | exact two_parents_candidates ].
    cbn [fst]. repeat split; reflexivity.
Qed.

(** *** The recursive search on an empty store *)

(** The fallback of [_compute_next_iteration]: decay towards the origin. *)
Definition decay_step (v : ScrollVector) : ScrollVector :=
  mkScrollVector (x v * 0.95) (y v * 0.95) (z v * 0.95)
                 (temporal v * 0.95) (symbolic v * 0.95).

Definition all_empty (m : MemoryRecursionManager) : Prop :=
  forall d l, In (d, l) (recursion_layers m) -> fragments l = [].

Section LoopEquations.
Variable retrieve_time : nat -> R.
Variable store_time : nat -> R.
Variable store_id : nat -> string.
Variable content_str : Z -> ScrollVector -> string.

Let loop := recursion_loop retrieve_time store_time store_id content_str.

Definition loop_guard (state : RecursionState) : bool :=
  ((iteration state <? max_iterations state)%Z && (status state =? "running"))%bool.

Lemma loop_exit (fuel pass : nat) (m : MemoryRecursionManager) (state : RecursionState) :
  loop_guard state = false -> loop fuel pass m state = Some (m, state, None).
Proof.
  unfold loop_guard, loop. intros H. destruct fuel; cbn [recursion_loop]; now rewrite H.
Qed.

Lemma loop_converge (fuel pass : nat) (m m1 : MemoryRecursionManager)
      (state : RecursionState) (memories : list MemoryFragment) :
  loop_guard state = true ->
  retrieve_memory_fragments m (retrieve_time pass) (current_vector state) 5 0.3
    = (m1, memories) ->
  magnitude (vector_diff
               (_compute_next_iteration (current_vector state) memories
                                        (computation_type state))
               (current_vector state))
    < convergence_threshold state ->
  loop (S fuel) pass m state = Some (m1, set_status state "converged", None).
Proof.
  unfold loop_guard, loop. intros Hg Hr Hd. cbn [recursion_loop].
  rewrite Hg, Hr. apply Rltb_true in Hd. now rewrite Hd.
Qed.

Lemma loop_step (fuel pass : nat) (m m1 m2 : MemoryRecursionManager)
      (state : RecursionState) (memories : list MemoryFragment) (r : string) :
  loop_guard state = true ->
  retrieve_memory_fragments m (retrieve_time pass) (current_vector state) 5 0.3
    = (m1, memories) ->
  let next_vector :=
    _compute_next_iteration (current_vector state) memories (computation_type state) in
  convergence_threshold state
    <= magnitude (vector_diff next_vector (current_vector state)) ->
  store_memory_fragment m1 (store_id pass) (store_time pass)
    (content_str (iteration (advance state next_vector)) next_vector)
    next_vector 0.5 None = (m2, Returned r) ->
  loop (S fuel) pass m state = loop fuel (S pass) m2 (advance state next_vector).
Proof.
  intros Hg Hr next_vector Hd Hs. unfold loop_guard in Hg. unfold loop.
  cbn [recursion_loop].
  rewrite Hg, Hr. apply Rltb_false in Hd. fold next_vector. rewrite Hd.
  now rewrite Hs.
Qed.
End LoopEquations.

Lemma set_layers_same (m : MemoryRecursionManager) :
  set_layers m (recursion_layers m) = m.
Proof. destruct m; reflexivity. Qed.

Lemma find_similar_empty (l : RecursionLayer) (q : ScrollVector) (t : option R) :
  fragments l = [] -> find_similar_fragments l q t = [].
Proof. intros E. unfold find_similar_fragments. rewrite E. reflexivity. Qed.

Lemma collect_candidates_empty (m : MemoryRecursionManager) (q : ScrollVector) (t : R) :
  all_empty m -> collect_candidates m q t = [].
Proof.
  unfold all_empty, collect_candidates.
  induction (recursion_layers m) as [|[d l] ls IH]; intros H; simpl; [reflexivity|].
  rewrite (find_similar_empty l q (Some t)) by (apply (H d); now left).
  simpl. apply IH. intros d' l' Hin. apply (H d'). now right.
Qed.

Lemma py_slice_to_nil {A : Type} (n : Z) : py_slice_to n (@nil A) = [].
Proof. unfold py_slice_to. destruct (0 <=? n)%Z; apply firstn_nil. Qed.

(** A retrieval on an empty store finds nothing and changes nothing. *)
Lemma retrieve_empty (m : MemoryRecursionManager) (now : R) (q : ScrollVector)
      (k : Z) (t : R) :
  all_empty m -> retrieve_memory_fragments m now q k t = (m, []).
Proof.
  intros H. unfold retrieve_memory_fragments.
  rewrite (collect_candidates_empty m q t H).
  change (sorted_desc _ []) with (@nil (Z * MemoryFragment)).
  rewrite py_slice_to_nil. simpl. now rewrite set_layers_same.
Qed.

Lemma flat_map_set_single {V B : Type} (g : Z * V -> list B) (k : Z) (v : V)
      (d : dict Z V) :
  In k (dict_keys d) -> (forall e, In e d -> g e = []) ->
  flat_map g (dict_set Z.eqb k v d) = g (k, v).
Proof.
  induction d as [|[k' v'] t IH]; simpl; [intros []|].
  intros Hk Hnil. destruct (Z.eqb k k') eqn:E.
  - apply Z.eqb_eq in E. subst k'. simpl.
    assert (Ht : flat_map g t = []).
    { clear - Hnil. induction t as [|e t IH]; simpl; [reflexivity|].
      rewrite (Hnil e) by (right; now left). simpl. apply IH.
      intros e' [He|He]; apply Hnil; [now left|right; now right]. }
    rewrite Ht. apply app_nil_r.
  - simpl. rewrite (Hnil (k', v')) by now left. simpl.
    apply IH.
    + destruct Hk as [Hk|Hk]; [|exact Hk]. subst. rewrite Z.eqb_refl in E. discriminate.
    + intros e He. apply Hnil. now right.
Qed.

(** The store as the first pass of the search leaves it: one fragment, in
    one layer. *)
Definition single_fragment_store (m : MemoryRecursionManager) (d : Z)
           (layer : RecursionLayer) (fr : MemoryFragment) : MemoryRecursionManager :=
  set_layers m
    (dict_set Z.eqb d (set_fragments layer [(fragment_id fr, fr)])
              (recursion_layers m)).

Lemma retrieve_single (m : MemoryRecursionManager) (d : Z) (layer : RecursionLayer)
      (fr : MemoryFragment) (now : R) (t : R) :
  all_empty m -> In d (dict_keys (recursion_layers m)) ->
  t <> 0 -> t <= 1 ->
  exists m3,
    retrieve_memory_fragments (single_fragment_store m d layer fr) now
                              (context_vector fr) 5 t
    = (m3, [update_access now fr]).
Proof.
  intros Hempty Hd Ht0 Ht1. unfold retrieve_memory_fragments.
  assert (Hc : collect_candidates (single_fragment_store m d layer fr)
                                  (context_vector fr) t = [(d, fr)]).
  { unfold collect_candidates, single_fragment_store. simpl recursion_layers.
    rewrite flat_map_set_single.
    - simpl fst. simpl snd. rewrite find_similar_all.
      + reflexivity.
      + exact Ht0.
      + simpl. intros f [<-|[]]. now rewrite similarity_self.
      + simpl. repeat constructor.
    - exact Hd.
    - intros [d' l'] Hin. simpl.
      now rewrite (find_similar_empty l' _ _ (Hempty d' l' Hin)). }
  rewrite Hc. eexists. reflexivity.
Qed.

Lemma compute_next_no_memory (v : ScrollVector) :
  _compute_next_iteration v [] "field_convergence" = decay_step v.
Proof. reflexivity. Qed.

Lemma Rsum_single (a : R) : Rsum [a] = a.
Proof. unfold Rsum; simpl. ring. Qed.

(** With the current vector itself as the only memory, of positive weight,
    the weighted centre is the current vector and the step does not move. *)
Lemma compute_next_self (v : ScrollVector) (f : MemoryFragment) :
  context_vector f = v -> 0 < importance f ->
  _compute_next_iteration v [f] "field_convergence" = v.
Proof.
  intros Hcv Hw. unfold _compute_next_iteration.
  change ("field_convergence" =? "field_convergence") with true. cbv iota.
  cbn [map]. rewrite !Rsum_single.
  apply Rltb_true in Hw as Hb. rewrite Hb. rewrite Hcv.
  destruct v as [a b c d e]; simpl. f_equal; field; lra.
Qed.

Lemma update_access_importance_pos (now : R) (f : MemoryFragment) :
  0 < importance f -> 0 < importance (update_access now f).
Proof.
  intros H. simpl. apply Rmult_lt_0_compat; [exact H|].
  apply Rlt_le_trans with 0.1; [lra|apply Rmax_l].
Qed.

Lemma vector_diff_self (v : ScrollVector) : magnitude (vector_diff v v) = 0.
Proof.
  apply magnitude_zero_iff. unfold vector_diff, zero_vector. f_equal; ring.
Qed.

Lemma decay_step_magnitude (v : ScrollVector) :
  magnitude (decay_step v) = 0.95 * magnitude v.
Proof. unfold decay_step. apply (magnitude_scale 0.95 v). lra. Qed.

Lemma decay_step_diff (v : ScrollVector) :
  magnitude (vector_diff (decay_step v) v) = 0.05 * magnitude v.
Proof.
  apply magnitude_of_sumsq.
  - pose proof (magnitude_nonneg v). lra.
  - replace (0.05 * magnitude v * (0.05 * magnitude v))
      with (0.0025 * (magnitude v * magnitude v)) by lra.
    rewrite magnitude_sqr. unfold sumsq, vector_diff, decay_step. simpl. lra.
Qed.

(** The run of a [field_convergence] search on a store without fragments,
    case by case. *)
Lemma field_convergence_run
        (retrieve_time store_time : nat -> R) (store_id : nat -> string)
        (content_str : Z -> ScrollVector -> string)
        (m : MemoryRecursionManager) (rid : string) (v : ScrollVector)
        (N : Z) (fuel : nat) :
  wf_manager m -> (1 <= max_recursion_depth m)%Z -> all_empty m ->
  (2 <= fuel)%nat ->
  let s0 := start_recursive_computation rid v "field_convergence" N in
  let v1 := decay_step v in
  exists m' st,
    _execute_recursive_computation retrieve_time store_time store_id content_str
                                   fuel m s0 = Some (m', st, None) /\
    magnitude v1 = 0.95 * magnitude v /\
    ((N <= 0)%Z -> st = set_status s0 "max_iterations_reached") /\
    ((1 <= N)%Z -> 0.05 * magnitude v < 1e-6 -> st = set_status s0 "converged") /\
    (N = 1%Z -> 1e-6 <= 0.05 * magnitude v ->
     st = set_status (advance s0 v1) "max_iterations_reached" /\
     magnitude v1 < magnitude v) /\
    ((2 <= N)%Z -> 1e-6 <= 0.05 * magnitude v ->
     st = set_status (advance s0 v1) "converged" /\ magnitude v1 < magnitude v).
Proof.
  intros Hwf Hmax Hempty Hfuel s0 v1.
  destruct fuel as [|[|fuel]]; try lia.
  pose proof (decay_step_magnitude v) as Hmag. fold v1 in Hmag.
  assert (Hless : 1e-6 <= 0.05 * magnitude v -> magnitude v1 < magnitude v)
    by (intros H; lra).
  unfold _execute_recursive_computation.
  destruct (Z.le_gt_cases N 0) as [HN|HN].
  { (* no pass at all *)
    rewrite loop_exit.
    - exists m, (set_status s0 "max_iterations_reached").
      split; [reflexivity|]. split; [exact Hmag|].
      split; [reflexivity|]. repeat split; intros; lia.
    - unfold loop_guard. simpl. apply andb_false_intro1. apply Z.ltb_ge. exact HN. }
  assert (Hg0 : loop_guard s0 = true).
  { unfold loop_guard. simpl. apply andb_true_intro. split; [|reflexivity].
    apply Z.ltb_lt. lia. }
  pose proof (retrieve_empty m (retrieve_time 0%nat) v 5 0.3 Hempty) as Hr0.
  destruct (Rlt_dec (0.05 * magnitude v) 1e-6) as [Hsmall|Hbig].
  { (* the first step is already below the threshold *)
    rewrite (loop_converge retrieve_time store_time store_id content_str
               (S fuel) 0 m m s0 [] Hg0 Hr0).
    - exists m, (set_status s0 "converged").
      split; [reflexivity|]. split; [exact Hmag|].
      split; [intros; lia|]. split; [reflexivity|].
      split; intros; lra.
    - simpl current_vector. simpl computation_type.
      rewrite compute_next_no_memory, decay_step_diff. exact Hsmall. }
  apply Rnot_lt_le in Hbig.
  (* the first pass takes the step and stores the vector *)
  set (c := content_str (iteration (advance s0 v1)) v1).
  set (d := effective_depth m c v1 None).
  assert (Hd : (0 <= d < max_recursion_depth m)%Z).
  { unfold d, effective_depth.
    pose proof (optimal_depth_range m c v1 Hmax). lia. }
  destruct Hwf as [Hnd [Hkeys Hok]].
  assert (Hkey : In d (dict_keys (recursion_layers m))) by now apply Hkeys.
  destruct (dict_get_of_key d (recursion_layers m) Hkey) as [layer [Hget Hin]].
  pose proof (Hempty d layer Hin) as Hlayer.
  destruct (Hok d layer Hin) as [_ [_ Hcap]].
  set (fr := new_fragment (store_id 0%nat) (store_time 0%nat) c v1 0.5).
  assert (Hstore :
    store_memory_fragment m (store_id 0%nat) (store_time 0%nat) c v1 0.5 None
    = (single_fragment_store m d layer fr, Returned (store_id 0%nat))).
  { rewrite (store_without_links m _ _ c v1 0.5 None layer).
    - fold d. rewrite Hlayer. reflexivity.
    - exact Hget.
    - unfold layer_size. rewrite Hlayer. simpl. lia.
    - rewrite Hlayer. simpl. tauto.
    - rewrite Hlayer. simpl. tauto.
    - fold d. intros Hpos.
      destruct (dict_get_of_key (d - 1)%Z (recursion_layers m)) as [pl [Hgp Hinp]].
      + apply Hkeys. lia.
      + exists pl. split; [exact Hgp|].
        rewrite (Hempty _ pl Hinp). simpl. tauto. }
  rewrite (loop_step retrieve_time store_time store_id content_str
             (S fuel) 0 m m (single_fragment_store m d layer fr) s0 []
             (store_id 0%nat) Hg0 Hr0).
  2:{ simpl current_vector. simpl computation_type.
      rewrite compute_next_no_memory, decay_step_diff. exact Hbig. }
  2:{ simpl current_vector. simpl computation_type.
      rewrite compute_next_no_memory. exact Hstore. }
  simpl current_vector. simpl computation_type. rewrite compute_next_no_memory.
  fold v1. set (s1 := advance s0 v1).
  destruct (Z.eq_dec N 1) as [HN1|HN1].
  { (* a single pass allowed *)
    rewrite loop_exit.
    - exists (single_fragment_store m d layer fr), (set_status s1 "max_iterations_reached").
      split; [reflexivity|]. split; [exact Hmag|].
      split; [intros; lia|]. split; [intros; lra|].
      split; [intros; split; [reflexivity|now apply Hless]|intros; lia].
    - unfold loop_guard. simpl. apply andb_false_intro1. apply Z.ltb_ge. lia. }
  (* the second pass finds the stored vector and stops *)
  assert (Hg1 : loop_guard s1 = true).
  { unfold loop_guard. simpl. apply andb_true_intro. split; [|reflexivity].
    apply Z.ltb_lt. lia. }
  destruct (retrieve_single m d layer fr (retrieve_time 1%nat) 0.3 Hempty Hkey)
    as [m3 Hr1]; [lra|lra|].
  rewrite (loop_converge retrieve_time store_time store_id content_str
             fuel 1 (single_fragment_store m d layer fr) m3 s1
             [update_access (retrieve_time 1%nat) fr] Hg1 Hr1).
  - exists m3, (set_status s1 "converged").
    split; [reflexivity|]. split; [exact Hmag|].
    split; [intros; lia|]. split; [intros; lra|].
    split; [intros; lia|intros; split; [reflexivity|now apply Hless]].
  - simpl current_vector. simpl computation_type.
    rewrite compute_next_self.
    + rewrite vector_diff_self. simpl. lra.
    + reflexivity.
    + apply update_access_importance_pos. simpl. lra.
Qed.

(** C1 (amended): a [field_convergence] search started on a store without
    fragments (with at least one layer) always ends, and runs at most one
    decay step.  With [max_iterations <= 0] nothing is done
    ([max_iterations_reached]).  Otherwise the first pass computes the
    vector scaled by 0.95; if that step is shorter than 1e-6 the search is
    [converged] at once; if not, the vector is taken (its magnitude is 0.95
    times the former one, strictly less) and persisted.  The second pass
    retrieves that fragment, the weighted centre is the current vector, the
    step is 0 and the status is [converged]; with [max_iterations = 1] there
    is no second pass and the status is [max_iterations_reached]. *)
Theorem C1_field_convergence_from_empty_store
        (retrieve_time store_time : nat -> R) (store_id : nat -> string)
        (content_str : Z -> ScrollVector -> string)
        (m : MemoryRecursionManager) (rid : string) (v : ScrollVector)
        (N : Z) (fuel : nat) :
  wf_manager m -> (1 <= max_recursion_depth m)%Z -> all_empty m ->
  (2 <= fuel)%nat ->
  let s0 := start_recursive_computation rid v "field_convergence" N in
  let v1 := decay_step v in
  exists m' st,
    _execute_recursive_computation retrieve_time store_time store_id content_str
                                   fuel m s0 = Some (m', st, None) /\
    magnitude v1 = 0.95 * magnitude v /\
    ((N <= 0)%Z -> st = set_status s0 "max_iterations_reached") /\
    ((1 <= N)%Z -> 0.05 * magnitude v < 1e-6 -> st = set_status s0 "converged") /\
    (N = 1%Z -> 1e-6 <= 0.05 * magnitude v ->
     st = set_status (advance s0 v1) "max_iterations_reached" /\
     magnitude v1 < magnitude v) /\
    ((2 <= N)%Z -> 1e-6 <= 0.05 * magnitude v ->
     st = set_status (advance s0 v1) "converged" /\ magnitude v1 < magnitude v).
Proof.
  apply field_convergence_run.
Qed.

(** The search in the words of the specification: every iteration scales
    the vector by 0.95, until the step is shorter than 1e-6 ([converged]) or
    the allowed iterations are used up ([max_iterations_reached]). *)
Fixpoint spec_decay_search (n : nat) (k : Z) (v : ScrollVector)
  : Z * ScrollVector * string :=
  match n with
  | O => (k, v, "max_iterations_reached")
  | S n' =>
    if Rltb (magnitude (vector_diff (decay_step v) v)) 1e-6
    then (k, v, "converged")
    else spec_decay_search n' (k + 1)%Z (decay_step v)
  end.

Definition quiet_clock : nat -> R := fun _ => 0.
Definition pass_id : nat -> string := fun _ => "frag_pass".
Definition pass_content : Z -> ScrollVector -> string := fun _ _ => "pass".

Lemma default_manager_all_empty : all_empty default_manager.
Proof. intros d l. apply new_manager_empty. Qed.

(** From the unit vector with two iterations allowed, the stated behaviour
    is two decay steps and [max_iterations_reached]; the code makes one
    step and ends [converged] at magnitude 0.95. *)
Lemma C1_field_convergence_counterexample :
  spec_decay_search 2 0 unit_x
    = (2%Z, decay_step (decay_step unit_x), "max_iterations_reached") /\
  exists m' st,
    _execute_recursive_computation quiet_clock quiet_clock pass_id pass_content 2
      default_manager (start_recursive_computation "rec" unit_x "field_convergence" 2)
    = Some (m', st, None) /\
    status st = "converged" /\ iteration st = 1%Z /\
    current_vector st = decay_step unit_x /\
    magnitude (current_vector st) = 0.95.
Proof.
  split.
  - cbn [spec_decay_search].
    rewrite !decay_step_diff, decay_step_magnitude, magnitude_unit_x.
    assert (E1 : Rltb (0.05 * 1) 1e-6 = false) by (apply Rltb_false; lra).
    assert (E2 : Rltb (0.05 * (0.95 * 1)) 1e-6 = false) by (apply Rltb_false; lra).
    rewrite E1, E2. reflexivity.
  - destruct (field_convergence_run quiet_clock quiet_clock pass_id pass_content
                default_manager "rec" unit_x 2 2 (new_manager_wf 10 30 0.5))
      as [m' [st [Hrun [Hmag [_ [_ [_ Hcase]]]]]]];
      [simpl; lia|exact default_manager_all_empty|lia|].
    destruct Hcase as [Hst _]; [lia|rewrite magnitude_unit_x; lra|].
    exists m', st. split; [exact Hrun|]. subst st.
    repeat split. simpl current_vector. rewrite Hmag, magnitude_unit_x. lra.
Qed.

Lemma C1_field_convergence_from_empty_store_witness :
  wf_manager default_manager /\ (1 <= max_recursion_depth default_manager)%Z /\
  all_empty default_manager /\ (2 <= 2)%nat /\
  exists m' st,
    _execute_recursive_computation quiet_clock quiet_clock pass_id pass_content 2
      default_manager (start_recursive_computation "rec" unit_x "field_convergence" 2)
    = Some (m', st, None) /\
    magnitude (decay_step unit_x) = 0.95 * magnitude unit_x.
Proof.
  pose proof (new_manager_wf 10 30 0.5) as Hwf.
  assert (Hmax : (1 <= max_recursion_depth default_manager)%Z) by (simpl; lia).
  split; [exact Hwf|]. split; [exact Hmax|].
  split; [exact default_manager_all_empty|]. split; [exact (le_n 2)|].
  destruct (C1_field_convergence_from_empty_store quiet_clock quiet_clock pass_id
              pass_content default_manager "rec" unit_x 2 2 Hwf Hmax
              default_manager_all_empty (le_n 2))
    as [m' [st [Hrun [Hmag _]]]].
  exists m', st. split; assumption.
Defined.

(** ** mesh_orchestrator.py *)

Module Mesh.

Inductive MeshNodeState : Type :=
| INITIALIZING | ACTIVE | COMPUTING | SYNCHRONIZING | DORMANT | ERROR.

Definition MeshNodeState_eqb (a b : MeshNodeState) : bool :=
  match a, b with
  | INITIALIZING, INITIALIZING | ACTIVE, ACTIVE | COMPUTING, COMPUTING
  | SYNCHRONIZING, SYNCHRONIZING | DORMANT, DORMANT | ERROR, ERROR => true
  | _, _ => false
  end.

Record MeshNode : Type := mkMeshNode {
  node_id : string;
  position : ScrollVector;
  state : MeshNodeState;
  compute_capacity : R;
  field_affinity : R;
  last_heartbeat : R;
  assigned_tasks : list string
}.

Definition set_state (n : MeshNode) (s : MeshNodeState) : MeshNode :=
  mkMeshNode (node_id n) (position n) s (compute_capacity n) (field_affinity n)
             (last_heartbeat n) (assigned_tasks n).

Definition set_assigned_tasks (n : MeshNode) (ts : list string) : MeshNode :=
  mkMeshNode (node_id n) (position n) (state n) (compute_capacity n)
             (field_affinity n) (last_heartbeat n) ts.

(** [MeshNode.is_healthy], with the default timeout of 30 seconds. *)
Definition is_healthy (now : R) (n : MeshNode) : bool :=
  Rltb (now - last_heartbeat n) 30.

(** The dictionaries returned by [_compute_subtask]. *)
Inductive SubtaskResult : Type :=
| TransformResult (node : string) (transformed_vector : ScrollVector)
| ResonanceResult (node : string) (resonance_value : R)
| UnknownTaskType (node : string).

Definition result_node (r : SubtaskResult) : string :=
  match r with
  | TransformResult n _ | ResonanceResult n _ | UnknownTaskType n => n
  end.

(** The values a task's [result] takes. *)
Inductive TaskResult : Type :=
| NoResult
| AggregatedTransform (aggregated_transform : ScrollVector)
                      (contributing_nodes : list string)
| AggregatedResonance (total_resonance average_resonance : R)
                      (contributing_nodes : list string)
| RawResults (raw_results : list SubtaskResult)
| ErrorResult (error : exn).

Record MeshTask : Type := mkMeshTask {
  task_id : string;
  task_type : string;
  input_field : CodexDriftField;
  target_nodes : list string;
  priority : Z;
  task_created_at : R;
  status : string;
  result : TaskResult
}.

Record MeshOrchestrator : Type := mkMeshOrchestrator {
  nodes : dict string MeshNode;
  tasks : dict string MeshTask;
  orchestration_active : bool;
  max_nodes : Z;
  heartbeat_interval : R;
  task_timeout : R
}.

Definition set_nodes (o : MeshOrchestrator) (ns : dict string MeshNode)
  : MeshOrchestrator :=
  mkMeshOrchestrator ns (tasks o) (orchestration_active o) (max_nodes o)
                     (heartbeat_interval o) (task_timeout o).

Definition set_tasks (o : MeshOrchestrator) (ts : dict string MeshTask)
  : MeshOrchestrator :=
  mkMeshOrchestrator (nodes o) ts (orchestration_active o) (max_nodes o)
                     (heartbeat_interval o) (task_timeout o).

(** [MeshOrchestrator.__init__] with the configuration value [max_nodes]. *)
Definition new_orchestrator (max_nodes : Z) : MeshOrchestrator :=
  mkMeshOrchestrator [] [] false max_nodes 10 300.

(** [MeshOrchestrator._create_initial_topology] and [initialize_mesh]: the
    five core nodes are written without a look at [max_nodes]. *)
Definition core_positions : list ScrollVector :=
  [ mkScrollVector 0 0 0 0 0; mkScrollVector 1 0 0 0 0.5;
    mkScrollVector 0 1 0 0.5 0; mkScrollVector 0 0 1 0 0.8;
    mkScrollVector 0 0 0 1 0.3 ].

Definition core_node (now : R) (i : nat) (pos : ScrollVector) : MeshNode :=
  mkMeshNode ("core-" ++ DecimalString.NilZero.string_of_uint (Nat.to_uint i))%string
             pos ACTIVE 1.0 0.8 now [].

Fixpoint create_core_nodes (now : R) (i : nat) (ps : list ScrollVector)
         (ns : dict string MeshNode) : dict string MeshNode :=
  match ps with
  | [] => ns
  | pos :: ps' =>
    let node := core_node now i pos in
    create_core_nodes now (S i) ps' (dict_set String.eqb (node_id node) node ns)
  end.

Definition initialize_mesh (now : R) (o : MeshOrchestrator) : MeshOrchestrator :=
  let o1 := set_nodes o (create_core_nodes now 0 core_positions (nodes o)) in
  mkMeshOrchestrator (nodes o1) (tasks o1) true (max_nodes o1)
                     (heartbeat_interval o1) (task_timeout o1).

(** [MeshOrchestrator._calculate_position_resonance] *)
Definition _calculate_position_resonance (pos1 pos2 : ScrollVector) : R :=
  let diff := mkScrollVector (x pos1 - x pos2) (y pos1 - y pos2) (z pos1 - z pos2)
                (temporal pos1 - temporal pos2) (symbolic pos1 - symbolic pos2) in
  let distance := magnitude diff in
  1.0 / (1.0 + distance).

(** [MeshOrchestrator._integrate_node]: the scan of the other nodes computes
    the best resonance and its neighbours, which are dropped; the only effect
    is the state [ACTIVE] of the node. *)
Definition integration_scan (o : MeshOrchestrator) (node : MeshNode)
  : R * list string :=
  fold_left
    (fun (acc : R * list string) (existing : MeshNode) =>
       if negb (String.eqb (node_id existing) (node_id node)) then
         let resonance :=
           _calculate_position_resonance (position node) (position existing) in
         if Rltb (fst acc) resonance then (resonance, [node_id existing])
         else if Reqb resonance (fst acc)
              then (fst acc, snd acc ++ [node_id existing])
              else acc
       else acc)
    (dict_values (nodes o)) (0, []).

Definition _integrate_node (o : MeshOrchestrator) (nid : string) : MeshOrchestrator :=
  set_nodes o (dict_update String.eqb nid (fun n => set_state n ACTIVE) (nodes o)).

(** [MeshOrchestrator.add_mesh_node].  [nid] is the generated
    [node-<uuid prefix>]; the heartbeat of the new node is [now]. *)
Definition add_mesh_node (o : MeshOrchestrator) (nid : string) (now : R)
           (position : ScrollVector) (compute_capacity field_affinity : R)
  : MeshOrchestrator * outcome string :=
  if (max_nodes o <=? Z.of_nat (length (nodes o)))%Z then
    (o, Raised (RuntimeError "Maximum mesh node limit reached"))
  else
    let node := mkMeshNode nid position INITIALIZING compute_capacity
                           field_affinity now [] in
    let o1 := set_nodes o (dict_set String.eqb nid node (nodes o)) in
    (_integrate_node o1 nid, Returned nid).





(** *** Task placement and aggregation *)

(** [ScrollMathEngine.calculate_mesh_resonance] *)
Definition calculate_mesh_resonance (field1 field2 : CodexDriftField) : R :=
  let grad1 := compute_field_gradient field1 in
  let grad2 := compute_field_gradient field2 in
  Rabs (x grad1 * x grad2 + y grad1 * y grad2 + z grad1 * z grad2 +
        temporal grad1 * temporal grad2 + symbolic grad1 * symbolic grad2).

(** The score of [_select_task_nodes]. *)
Definition node_score (input_field : CodexDriftField) (node : MeshNode) : R :=
  let field_gradient := compute_field_gradient input_field in
  let position_affinity :=
    _calculate_position_resonance (position node) field_gradient in
  field_affinity node * position_affinity * compute_capacity node.

Definition available_nodes (o : MeshOrchestrator) (now : R) : list MeshNode :=
  filter (fun node => MeshNodeState_eqb (state node) ACTIVE && is_healthy now node)
         (dict_values (nodes o)).

(** [MeshOrchestrator._select_task_nodes] *)
Definition _select_task_nodes (o : MeshOrchestrator) (now : R)
           (input_field : CodexDriftField) (task_type : string) : list string :=
  let node_scores :=
    map (fun node => (node_id node, node_score input_field node))
        (available_nodes o now) in
  let node_scores := sorted_desc snd node_scores in
  map fst (firstn 3 node_scores).


(** [MeshOrchestrator._compute_subtask] (the list of fields that
    [create_drift_field] keeps in the engine is not part of the model). *)
Definition _compute_subtask (now : R) (task : MeshTask) (node : MeshNode)
  : SubtaskResult :=
  if task_type task =? "field_transform" then
    TransformResult (node_id node)
                    (compute_5d_transform (input_field task) (position node))
  else if task_type task =? "resonance_analysis" then
    let test_field := mkCodexDriftField [position node] 0.5 1.0 0.95 now in
    ResonanceResult (node_id node)
                    (calculate_mesh_resonance (input_field task) test_field)
  else UnknownTaskType (node_id node).

(** [r["transformed_vector"]] and [r["resonance_value"]]: a missing key
    raises. *)
Definition transformed_vector_of (r : SubtaskResult) : outcome ScrollVector :=
  match r with TransformResult _ v => Returned v | _ => Raised KeyError end.

Definition resonance_value_of (r : SubtaskResult) : outcome R :=
  match r with ResonanceResult _ v => Returned v | _ => Raised KeyError end.

Fixpoint collect {A B : Type} (f : A -> outcome B) (l : list A) : outcome (list B) :=
  match l with
  | [] => Returned []
  | a :: t => do b <- f a; do bs <- collect f t; Returned (b :: bs)
  end.

(** The component-wise arithmetic mean. *)
Definition mean_vector (vs : list ScrollVector) : ScrollVector :=
  let n := INR (length vs) in
  mkScrollVector (Rsum (map x vs) / n) (Rsum (map y vs) / n) (Rsum (map z vs) / n)
                 (Rsum (map temporal vs) / n) (Rsum (map symbolic vs) / n).

(** [MeshOrchestrator._aggregate_subtask_results] *)
Definition _aggregate_subtask_results (task_type : string)
           (results : list SubtaskResult) : outcome TaskResult :=
  if task_type =? "field_transform" then
    match results with
    | [] => Returned NoResult
    | _ =>
      do vs <- collect transformed_vector_of results;
      Returned (AggregatedTransform (mean_vector vs) (map result_node results))
    end
  else if task_type =? "resonance_analysis" then
    do vs <- collect resonance_value_of results;
    let total_resonance := Rsum vs in
    Returned (AggregatedResonance total_resonance
                (match results with
                 | [] => 0
                 | _ => total_resonance / INR (length results)
                 end)
                (map result_node results))
  else Returned (RawResults results).

(** [list.remove]: the first occurrence goes. *)
Fixpoint remove_first (s : string) (l : list string) : list string :=
  match l with
  | [] => []
  | a :: t => if String.eqb a s then t else a :: remove_first s t
  end.

(** The node after its subtask: marked [COMPUTING] with the task appended,
    then back to [ACTIVE] with the task removed. *)
Definition after_subtask (tid : string) (node : MeshNode) : MeshNode :=
  let node1 := set_assigned_tasks (set_state node COMPUTING)
                                  (assigned_tasks node ++ [tid]) in
  set_assigned_tasks (set_state node1 ACTIVE)
                     (remove_first tid (assigned_tasks node1)).

(** The [for node_id in task.target_nodes] loop of [_execute_mesh_task]. *)
Fixpoint run_subtasks (now : R) (task : MeshTask) (targets : list string)
         (ns : dict string MeshNode) : dict string MeshNode * list SubtaskResult :=
  match targets with
  | [] => (ns, [])
  | nid :: rest =>
    match dict_get String.eqb nid ns with
    | Some node =>
      let r := _compute_subtask now task node in
      let (ns', rs) :=
        run_subtasks now task rest
                     (dict_set String.eqb nid (after_subtask (task_id task) node) ns) in
      (ns', r :: rs)
    | None => run_subtasks now task rest ns
    end
  end.

Definition finish_task (t : MeshTask) (st : string) (r : TaskResult) : MeshTask :=
  mkMeshTask (task_id t) (task_type t) (input_field t) (target_nodes t)
             (priority t) (task_created_at t) st r.

(** [MeshOrchestrator._execute_mesh_task]: the task object is the one kept
    in [tasks], where its status and result are written. *)
Definition _execute_mesh_task (o : MeshOrchestrator) (now : R) (task : MeshTask)
  : MeshOrchestrator * MeshTask :=
  let (ns, subtask_results) := run_subtasks now task (target_nodes task) (nodes o) in
  let task' :=
    match _aggregate_subtask_results (task_type task) subtask_results with
    | Returned r => finish_task task "completed" r
    | Raised e => finish_task task "failed" (ErrorResult e)
    end in
  (set_tasks (set_nodes o ns)
             (dict_update String.eqb (task_id task) (fun _ => task') (tasks o)),
   task').

(** The registry is keyed by the node identifiers. *)
Definition wf_nodes (ns : dict string MeshNode) : Prop :=
  NoDup (dict_keys ns) /\ forall k n, In (k, n) ns -> node_id n = k.


Lemma MeshNodeState_eqb_eq (a b : MeshNodeState) :
  MeshNodeState_eqb a b = true <-> a = b.
Proof. destruct a, b; simpl; split; intros H; try reflexivity; discriminate. Qed.

Lemma available_nodes_In (o : MeshOrchestrator) (now : R) (n : MeshNode) :
  In n (available_nodes o now) <->
  In n (dict_values (nodes o)) /\ state n = ACTIVE /\ now - last_heartbeat n < 30.
Proof.
  unfold available_nodes. rewrite filter_In, andb_true_iff, MeshNodeState_eqb_eq.
  unfold is_healthy. rewrite Rltb_true. tauto.
Qed.


(** Filtering a list whose images under [img] are pairwise distinct keeps
    them so. *)
Lemma filter_keeps_distinct_images {X Y : Type} (keep : X -> bool) (img : X -> Y)
      (xs : list X) :
  NoDup (map img xs) -> NoDup (map img (filter keep xs)).
Proof.
  induction xs as [|a t IH]; simpl; intros H; [constructor|].
  inversion H as [|? ? Hnot Hnd]; subst.
  destruct (keep a); simpl; [|now apply IH].
  constructor; [|now apply IH].
  intros Hin. apply Hnot. apply in_map_iff in Hin as [b [Hb Hin]].
  apply in_map_iff. exists b. split; [exact Hb|]. apply filter_In in Hin. tauto.
Qed.


Definition node_scores (o : MeshOrchestrator) (now : R) (f : CodexDriftField)
  : list (string * R) :=
  sorted_desc snd
    (map (fun node => (node_id node, node_score f node)) (available_nodes o now)).









Lemma strongly_sorted_weaken {A : Type} (r1 r2 : A -> A -> Prop) (l : list A) :
  (forall a b, r1 a b -> r2 a b) -> StronglySorted r1 l -> StronglySorted r2 l.
Proof.
  intros Himp. induction 1 as [|a t Ht IH Ha]; constructor; [exact IH|].
  rewrite Forall_forall in *. intros b Hb. apply Himp, Ha, Hb.
Qed.




Definition core_mesh : MeshOrchestrator := initialize_mesh 0 (new_orchestrator 100).

Lemma core_mesh_wf : wf_nodes (nodes core_mesh).
Proof.
  split.
  - simpl. repeat constructor; simpl; intuition discriminate.
  - simpl. intros k n Hin.
    repeat (destruct Hin as [E|Hin]; [inversion E; subst; reflexivity|]).
    contradiction.
Qed.

Definition unit_field : CodexDriftField := mkCodexDriftField [unit_x] 1.0 1.0 0.95 0.


End Mesh.

(** ** agent_activator.py *)

Module Agents.

Inductive AgentState : Type :=
| DORMANT | INITIALIZING | ACTIVE | COMPUTING | COMMUNICATING | LEARNING
| ERROR | TERMINATED.

Inductive AgentCapability : Type :=
| SCROLLMATH_COMPUTATION | FIELD_ANALYSIS | PATTERN_RECOGNITION
| MESH_COORDINATION | MEMORY_PROCESSING | SYMBOLIC_REASONING
| RECURSIVE_LEARNING | CLUSTER_COMMUNICATION.

Record AgentProfile : Type := mkAgentProfile {
  agent_id : string;
  agent_type : string;
  capabilities : list AgentCapability;
  position : ScrollVector;
  activation_threshold : R;
  learning_rate : R;
  memory_capacity : Z;
  communication_range : R;
  priority_level : Z;
  creation_time : R
}.

(** A live agent.  The message queue, the local memory, the metrics and the
    learned patterns start empty and play no part in activation and
    eviction; they are left out. *)
Record Agent : Type := mkAgent {
  profile : AgentProfile;
  state : AgentState;
  task_history : list string;
  last_activity : R;
  activation_energy : R;
  custom_state : dict string unit
}.

(** [Agent.__init__] at time [now]. *)
Definition new_agent (p : AgentProfile) (now : R) : Agent :=
  mkAgent p DORMANT [] now 0.0 [].

(** [Agent._initialize_agent_systems] *)
Definition _initialize_agent_systems (a : Agent) : Agent :=
  mkAgent (profile a) (state a) (task_history a) (last_activity a)
    (activation_energy a)
    (fold_left
       (fun cs capability =>
          match capability with
          | SCROLLMATH_COMPUTATION => dict_set String.eqb "scrollmath_cache" tt cs
          | PATTERN_RECOGNITION => dict_set String.eqb "pattern_buffer" tt cs
          | MEMORY_PROCESSING => dict_set String.eqb "memory_index" tt cs
          | _ => cs
          end)
       (capabilities (profile a)) (custom_state a)).

Definition set_state (a : Agent) (s : AgentState) : Agent :=
  mkAgent (profile a) s (task_history a) (last_activity a) (activation_energy a)
          (custom_state a).

Definition set_last_activity (a : Agent) (t : R) : Agent :=
  mkAgent (profile a) (state a) (task_history a) t (activation_energy a)
          (custom_state a).

(** [Agent.activate]: nothing in the [try] block raises, the main loop is
    started and [True] is returned. *)
Definition activate (a : Agent) (now : R) : Agent * bool :=
  let a1 := set_state a INITIALIZING in
  let a2 := _initialize_agent_systems a1 in
  let a3 := set_state a2 ACTIVE in
  (set_last_activity a3 now, true).

(** [Agent.terminate] *)
Definition terminate (a : Agent) : Agent := set_state a TERMINATED.

Record AgentActivator : Type := mkAgentActivator {
  agents : dict string Agent;
  agent_profiles : dict string AgentProfile;
  max_agents : Z;
  message_broker_size : Z;
  agent_cleanup_interval : R
}.

Definition set_agents (a : AgentActivator) (ags : dict string Agent) : AgentActivator :=
  mkAgentActivator ags (agent_profiles a) (max_agents a) (message_broker_size a)
                   (agent_cleanup_interval a).


(** [AgentActivator.register_agent_profile]; [pid] is the generated
    [profile_<type>_<uuid prefix>], the other profile fields take their
    defaults. *)
Definition register_agent_profile (a : AgentActivator) (pid : string) (now : R)
           (agent_type : string) (capabilities : list AgentCapability)
           (position : ScrollVector) : AgentActivator * string :=
  let p := mkAgentProfile "" agent_type capabilities position 0.5 0.01 1000 10.0 1 now in
  (mkAgentActivator (agents a) (dict_set String.eqb pid p (agent_profiles a))
                    (max_agents a) (message_broker_size a) (agent_cleanup_interval a),
   pid).

(** [AgentActivator._remove_agent]: the agent is terminated and deleted. *)
Definition _remove_agent (ags : dict string Agent) (aid : string) : dict string Agent :=
  if dict_mem String.eqb aid ags then dict_remove String.eqb aid ags else ags.

(** The loop of [_cleanup_inactive_agents] over the agents sorted by
    activity. *)
Fixpoint cleanup_loop (items : list (string * Agent)) (removed_count count : Z)
         (ags : dict string Agent) : dict string Agent :=
  match items with
  | [] => ags
  | (aid, _) :: rest =>
    if (count <=? removed_count)%Z then ags
    else cleanup_loop rest (removed_count + 1)%Z count (_remove_agent ags aid)
  end.

(** [AgentActivator._cleanup_inactive_agents] *)
Definition _cleanup_inactive_agents (ags : dict string Agent) (count : Z)
  : dict string Agent :=
  match ags with
  | [] => ags
  | _ =>
    let agents_by_activity := sorted_asc (fun item => last_activity (snd item)) ags in
    cleanup_loop agents_by_activity 0 count ags
  end.

(** [AgentActivator.activate_agent]; [aid] is the generated
    [agent_<uuid prefix>]. *)
Definition activate_agent (a : AgentActivator) (profile_id aid : string) (now : R)
  : AgentActivator * option string :=
  match dict_get String.eqb profile_id (agent_profiles a) with
  | None => (a, None)
  | Some p =>
    let ags :=
      if (max_agents a <=? Z.of_nat (length (agents a)))%Z
      then _cleanup_inactive_agents (agents a) 1
      else agents a in
    let agent_profile :=
      mkAgentProfile aid (agent_type p) (capabilities p) (position p)
        (activation_threshold p) (learning_rate p) (memory_capacity p)
        (communication_range p) (priority_level p) (creation_time p) in
    let (agent, success) := activate (new_agent agent_profile now) now in
    if success then (set_agents a (dict_set String.eqb aid agent ags), Some aid)
    else (set_agents a ags, None)
  end.

(** What happens between two suspension points: an activation, or one cycle
    of an agent's main loop, which refreshes its [last_activity]. *)
Inductive event : Type :=
| Activation (profile_id aid : string) (now : R)
| MainLoopCycle (aid : string) (now : R).

Definition step (a : AgentActivator) (e : event) : AgentActivator :=
  match e with
  | Activation pid aid now => fst (activate_agent a pid aid now)
  | MainLoopCycle aid now =>
    set_agents a (dict_update String.eqb aid (fun ag => set_last_activity ag now)
                              (agents a))
  end.

Definition run (es : list event) (a : AgentActivator) : AgentActivator :=
  fold_left step es a.


(** *** The population cap *)

Lemma Rleb_asc_total {A : Type} (key : A -> R) (a b : A) :
  Rleb (key a) (key b) = false -> Rleb (key b) (key a) = true.
Proof. rewrite Rleb_false, Rleb_true. lra. Qed.

(** The head of an ascending sort has the least key. *)
Lemma sorted_asc_head {A : Type} (key : A -> R) (l : list A) (h : A) (t : list A) :
  sorted_asc key l = h :: t ->
  In h l /\ forall a, In a l -> key h <= key a.
Proof.
  intros E.
  pose proof (py_sorted_sorted (fun a b => Rleb (key a) (key b))
                (Rleb_asc_total key) (Rleb_asc_trans key) l) as Hs.
  unfold sorted_asc in E. rewrite E in Hs.
  split.
  - apply (py_sorted_In (fun a b => Rleb (key a) (key b))). rewrite E. now left.
  - intros a Ha.
    apply (py_sorted_In (fun a b => Rleb (key a) (key b))) in Ha. rewrite E in Ha.
    destruct Ha as [<-|Ha]; [lra|].
    inversion Hs as [|? ? _ Hall]; subst.
    rewrite Forall_forall in Hall. apply Rleb_true. now apply Hall.
Qed.

Lemma sorted_asc_nonempty {A : Type} (key : A -> R) (l : list A) :
  l <> [] -> exists h t, sorted_asc key l = h :: t.
Proof.
  intros Hne. destruct (sorted_asc key l) as [|h t] eqn:E; [|eauto].
  exfalso. apply Hne. apply length_zero_iff_nil.
  rewrite <- (py_sorted_length (fun a b => Rleb (key a) (key b)) l).
  unfold sorted_asc in E. now rewrite E.
Qed.

Lemma dict_mem_string_keys {V : Type} (k : string) (d : dict string V) :
  In k (dict_keys d) -> dict_mem String.eqb k d = true.
Proof.
  intros H. unfold dict_mem.
  destruct (dict_get String.eqb k d) eqn:E; [reflexivity|].
  apply (dict_get_None_keys String.eqb string_eqb_spec) in E. contradiction.
Qed.

(** [_cleanup_inactive_agents(1)] on a registry that is not empty deletes
    one agent, of least [last_activity]. *)
Lemma cleanup_one (ags : dict string Agent) :
  ags <> [] ->
  exists vid victim,
    In (vid, victim) ags /\
    (forall aid ag, In (aid, ag) ags -> last_activity victim <= last_activity ag) /\
    _cleanup_inactive_agents ags 1 = dict_remove String.eqb vid ags.
Proof.
  intros Hne.
  destruct (sorted_asc_nonempty (fun item : string * Agent => last_activity (snd item))
              ags Hne) as [[vid victim] [t E]].
  destruct (sorted_asc_head _ _ _ _ E) as [Hin Hmin].
  exists vid, victim. split; [exact Hin|]. split.
  - intros aid ag H. exact (Hmin (aid, ag) H).
  - unfold _cleanup_inactive_agents. destruct ags as [|e ags']; [contradiction|].
    rewrite E. cbn [cleanup_loop]. change (1 <=? 0)%Z with false. cbv iota.
    assert (Hrm : _remove_agent (e :: ags') vid = dict_remove String.eqb vid (e :: ags')).
    { unfold _remove_agent. rewrite dict_mem_string_keys; [reflexivity|].
      eapply In_dict_keys, Hin. }
    rewrite Hrm. destruct t as [|[aid2 ag2] t']; reflexivity.
Qed.

Definition activated_agent (p : AgentProfile) (aid : string) (now : R) : Agent :=
  fst (activate
         (new_agent
            (mkAgentProfile aid (agent_type p) (capabilities p) (position p)
               (activation_threshold p) (learning_rate p) (memory_capacity p)
               (communication_range p) (priority_level p) (creation_time p))
            now)
         now).

Lemma activate_agent_room (a : AgentActivator) (pid aid : string) (now : R)
      (p : AgentProfile) :
  dict_get String.eqb pid (agent_profiles a) = Some p ->
  (Z.of_nat (length (agents a)) < max_agents a)%Z ->
  activate_agent a pid aid now
  = (set_agents a (dict_set String.eqb aid (activated_agent p aid now) (agents a)),
     Some aid).
Proof.
  intros Hp Hroom. unfold activate_agent. rewrite Hp.
  apply Z.leb_gt in Hroom. rewrite Hroom. reflexivity.
Qed.

Lemma activate_agent_full (a : AgentActivator) (pid aid : string) (now : R)
      (p : AgentProfile) :
  dict_get String.eqb pid (agent_profiles a) = Some p ->
  (max_agents a <= Z.of_nat (length (agents a)))%Z ->
  agents a <> [] ->
  exists vid victim,
    In (vid, victim) (agents a) /\
    (forall id ag, In (id, ag) (agents a) ->
                   last_activity victim <= last_activity ag) /\
    activate_agent a pid aid now
    = (set_agents a
         (dict_set String.eqb aid (activated_agent p aid now)
                   (dict_remove String.eqb vid (agents a))),
       Some aid).
Proof.
  intros Hp Hfull Hne.
  destruct (cleanup_one (agents a) Hne) as [vid [victim [Hin [Hmin Hc]]]].
  exists vid, victim. split; [exact Hin|]. split; [exact Hmin|].
  unfold activate_agent. rewrite Hp.
  apply Z.leb_le in Hfull. rewrite Hfull, Hc. reflexivity.
Qed.

(** The registry while activations with fresh identifiers go on: its keys
    are among the identifiers handed out so far ([seen]) and it holds as
    many agents as were activated, up to the cap. *)
Definition registry_inv (a : AgentActivator) (seen : list string) : Prop :=
  NoDup (dict_keys (agents a)) /\
  (forall aid, In aid (dict_keys (agents a)) -> In aid seen) /\
  Z.of_nat (length (agents a)) = Z.min (Z.of_nat (length seen)) (max_agents a).


Lemma step_activation_inv (a : AgentActivator) (seen : list string)
      (pid aid : string) (now : R) :
  (1 <= max_agents a)%Z ->
  dict_mem String.eqb pid (agent_profiles a) = true ->
  ~ In aid seen ->
  registry_inv a seen ->
  registry_inv (step a (Activation pid aid now)) (aid :: seen) /\
  max_agents (step a (Activation pid aid now)) = max_agents a /\
  agent_profiles (step a (Activation pid aid now)) = agent_profiles a.
Proof.
  intros Hmax Hpid Hfresh [Hnd [Hsub Hlen]].
  unfold dict_mem in Hpid.
  destruct (dict_get String.eqb pid (agent_profiles a)) as [p|] eqn:Hp;
    [clear Hpid|discriminate].
  assert (Hnew : ~ In aid (dict_keys (agents a))) by (intros H; apply Hfresh, Hsub, H).
  simpl step.
  destruct (Z.lt_ge_cases (Z.of_nat (length (agents a))) (max_agents a)) as [Hroom|Hfull].
  - rewrite (activate_agent_room a pid aid now p Hp Hroom).
    unfold registry_inv. cbn [fst set_agents agents max_agents agent_profiles].
    split; [|split; reflexivity]. split; [|split].
    + apply dict_set_NoDup; [apply string_eqb_spec|exact Hnd].
    + intros k Hk. apply dict_set_keys_incl in Hk as [->|Hk]; [now left|right; auto].
    + rewrite (dict_set_length_new String.eqb string_eqb_spec) by exact Hnew.
      simpl length. lia.
  - assert (Hne : agents a <> []).
    { intros E. rewrite E in Hfull. simpl in Hfull. lia. }
    destruct (activate_agent_full a pid aid now p Hp Hfull Hne)
      as [vid [victim [Hin [_ Hact]]]].
    rewrite Hact.
    unfold registry_inv. cbn [fst set_agents agents max_agents agent_profiles].
    split; [|split; reflexivity]. split; [|split].
    + apply dict_set_NoDup; [apply string_eqb_spec|]. now apply dict_remove_NoDup.
    + intros k Hk. apply dict_set_keys_incl in Hk as [->|Hk]; [now left|].
      right. apply Hsub. eapply dict_remove_keys_incl, Hk.
    + rewrite (dict_set_length_new String.eqb string_eqb_spec).
      * pose proof (dict_remove_length String.eqb string_eqb_spec vid (agents a)
                      (In_dict_keys _ _ _ Hin)) as Hr.
        simpl length. lia.
      * intros Hk. apply Hnew. eapply dict_remove_keys_incl, Hk.
Qed.







End Agents.

(** * Further properties of the capsule core *)

(** ** scrollmath_engine.py, continued *)















(** ** memory_recursion_manager.py, continued *)







(** X7: [update_access] counts the access and, for a fragment of non-negative
    importance read at or after its creation, scales the importance by a
    factor between 0.1 and 1; from 90 days of age on the factor is 0.1. *)
Theorem update_access_decay (now : R) (f : MemoryFragment) :
  0 <= importance f -> timestamp f <= now ->
  access_count (update_access now f) = (access_count f + 1)%Z /\
  0.1 * importance f <= importance (update_access now f) <= importance f /\
  (90 * 86400 <= now - timestamp f ->
   importance (update_access now f) = 0.1 * importance f).
Proof.
  intros Himp Hage. simpl. split; [reflexivity|].
  set (factor := Rmax 0.1 (1.0 - (now - timestamp f) / 86400 * 0.01)).
  assert (Hlo : 0.1 <= factor) by apply Rmax_l.
  assert (Hhi : factor <= 1) by (apply Rmax_lub; lra).
  split; [split; nra|].
  intros Hold. unfold factor. rewrite Rmax_left; lra.
Qed.

Lemma update_access_decay_witness :
  0 <= importance fragment_a /\ timestamp fragment_a <= 100 * 86400 /\
  importance (update_access (100 * 86400) fragment_a) = 0.1 * importance fragment_a.
Proof.
  assert (H1 : 0 <= importance fragment_a) by (simpl; lra).
  assert (H2 : timestamp fragment_a <= 100 * 86400) by (simpl; lra).
  split; [exact H1|]. split; [exact H2|].
  apply (proj2 (proj2 (update_access_decay (100 * 86400) fragment_a H1 H2))).
  simpl. lra.
Defined.










(** X9: The slice [[:max_results]] with a limit of 0 returns nothing and leaves
    the store as it was; with a negative limit [-k] it returns all the
    candidates but the [k] last, as Python slices do. *)
Theorem retrieve_limit_edges
        (m : MemoryRecursionManager) (now : R) (q : ScrollVector)
        (max_results : Z) (t : R) :
  (max_results = 0%Z -> retrieve_memory_fragments m now q max_results t = (m, [])) /\
  ((max_results < 0)%Z ->
   length (snd (retrieve_memory_fragments m now q max_results t))
   = (length (collect_candidates m q t) - Z.to_nat (- max_results))%nat).
Proof.
  unfold retrieve_memory_fragments. split.
  - intros ->. unfold py_slice_to. simpl. now rewrite set_layers_same.
  - intros Hneg. cbn [snd]. rewrite length_map. unfold py_slice_to.
    apply Z.leb_gt in Hneg as Hneg'. rewrite Hneg'.
    rewrite length_firstn. unfold sorted_desc. rewrite py_sorted_length. lia.
Qed.

(** *** Stores, in general *)

(** Whatever the linking step does to the layers is a sequence of links. *)
Lemma create_connections_inv (P : dict Z RecursionLayer -> Prop)
      (m : MemoryRecursionManager) (fr : MemoryFragment) (d : Z) :
  (forall ls k fid od oid, P ls -> P (link ls k fid od oid)) ->
  P (recursion_layers m) ->
  P (recursion_layers (fst (_create_recursive_connections m fr d))).
Proof.
  intros Hlink HP. unfold _create_recursive_connections.
  destruct (dict_get Z.eqb d (recursion_layers m)) as [cl|]; [|exact HP].
  set (similar := firstn 3 _).
  change (fold_left _ similar (recursion_layers m))
    with (link_similar d (fragment_id fr) similar (recursion_layers m)).
  assert (H1 : P (link_similar d (fragment_id fr) similar (recursion_layers m))).
  { apply link_similar_inv; [|exact HP]. intros ls od oid H. now apply Hlink. }
  destruct (0 <? d)%Z; [|exact H1].
  destruct (dict_get Z.eqb (d - 1)%Z _) as [pl|]; [|exact H1].
  destruct (find_similar_fragments pl (context_vector fr) (Some 0.6)) as [|p rest];
    [exact H1|].
  simpl. now apply Hlink.
Qed.

(** The three ways a store goes: [add_fragment] raises and nothing changes;
    the depth is no key and only the linking step runs (and raises); or the
    fragment is put into its layer and linked. *)
Lemma store_shape (m : MemoryRecursionManager)
      (fid : string) (now : R) (c : string) (cv : ScrollVector)
      (imp : R) (td : option Z) :
  let fr := new_fragment fid now c cv imp in
  let d := effective_depth m c cv td in
  (exists e, store_memory_fragment m fid now c cv imp td = (m, Raised e)) \/
  (dict_get Z.eqb d (recursion_layers m) = None /\
   fst (store_memory_fragment m fid now c cv imp td)
   = fst (_create_recursive_connections m fr d)) \/
  (exists layer l' b,
     dict_get Z.eqb d (recursion_layers m) = Some layer /\
     add_fragment layer fr = Returned (l', b) /\
     fst (store_memory_fragment m fid now c cv imp td)
     = fst (_create_recursive_connections
              (set_layers m (dict_set Z.eqb d l' (recursion_layers m))) fr d)).
Proof.
  intros fr d. unfold store_memory_fragment. fold d.
  change (mkMemoryFragment fid c cv now 0 imp [] []) with fr.
  destruct (dict_get Z.eqb d (recursion_layers m)) as [layer|] eqn:Hget.
  - destruct (add_fragment layer fr) as [[l' b]|e] eqn:Hadd; simpl.
    + right. right. exists layer, l', b. split; [reflexivity|]. split; [exact Hadd|].
      now destruct (_create_recursive_connections _ fr d).
    + left. eauto.
  - right. left. split; [reflexivity|].
    now destruct (_create_recursive_connections m fr d).
Qed.

(** The capacity of each layer, by key. *)
Definition layer_caps (ls : dict Z RecursionLayer) : list (Z * Z) :=
  map (fun kl => (fst kl, max_fragments (snd kl))) ls.

Lemma update_fragment_caps (ls : dict Z RecursionLayer) (d : Z) (fid : string)
      (g : MemoryFragment -> MemoryFragment) :
  layer_caps (update_fragment ls d fid g) = layer_caps ls.
Proof.
  unfold update_fragment, update_layer, layer_caps.
  induction ls as [|[k l] t IH]; simpl; [reflexivity|].
  destruct (Z.eqb d k); simpl; [reflexivity|now rewrite IH].
Qed.

Lemma dict_set_caps (ls : dict Z RecursionLayer) (d : Z) (layer l' : RecursionLayer) :
  dict_get Z.eqb d ls = Some layer -> max_fragments l' = max_fragments layer ->
  layer_caps (dict_set Z.eqb d l' ls) = layer_caps ls.
Proof.
  unfold layer_caps. induction ls as [|[k l] t IH]; simpl; [discriminate|].
  destruct (Z.eqb d k) eqn:E; simpl.
  - intros [= ->] Hcap. now rewrite Hcap.
  - intros Hget Hcap. now rewrite IH.
Qed.

Lemma add_fragment_cap (l l' : RecursionLayer) (f : MemoryFragment) (b : bool) :
  add_fragment l f = Returned (l', b) -> max_fragments l' = max_fragments l.
Proof.
  unfold add_fragment.
  destruct (max_fragments l <=? Z.of_nat (length (fragments l)))%Z.
  - destruct (min_by eviction_key (dict_values (fragments l))) as [v|e]; simpl;
      [|discriminate].
    destruct (dict_del String.eqb (fragment_id v) (fragments l)) as [frs|e]; simpl;
      [|discriminate].
    intros [= <- _]. reflexivity.
  - simpl. intros [= <- _]. reflexivity.
Qed.

Lemma store_keeps_caps (m : MemoryRecursionManager)
      (fid : string) (now : R) (c : string) (cv : ScrollVector)
      (imp : R) (td : option Z) :
  layer_caps (recursion_layers (fst (store_memory_fragment m fid now c cv imp td)))
  = layer_caps (recursion_layers m).
Proof.
  assert (Hlink : forall ls0 ls k f od oid,
             layer_caps ls = layer_caps ls0 ->
             layer_caps (link ls k f od oid) = layer_caps ls0).
  { intros ls0 ls k f od oid H. unfold link. now rewrite !update_fragment_caps. }
  destruct (store_shape m fid now c cv imp td)
    as [[e He]|[[_ He]|[layer [l' [b [Hget [Hadd He]]]]]]]; rewrite He.
  - reflexivity.
  - apply (create_connections_inv (fun ls => layer_caps ls = layer_caps (recursion_layers m)));
      [apply Hlink|reflexivity].
  - apply (create_connections_inv (fun ls => layer_caps ls = layer_caps (recursion_layers m)));
      [apply Hlink|].
    simpl. apply (dict_set_caps _ _ layer l' Hget).
    apply (add_fragment_cap layer l' _ b Hadd).
Qed.

Lemma store_keeps_wf (m : MemoryRecursionManager)
      (fid : string) (now : R) (c : string) (cv : ScrollVector)
      (imp : R) (td : option Z) :
  wf_manager m ->
  wf_manager (fst (store_memory_fragment m fid now c cv imp td)) /\
  max_recursion_depth (fst (store_memory_fragment m fid now c cv imp td))
  = max_recursion_depth m.
Proof.
  intros Hwf.
  destruct (Z.le_gt_cases 0 (effective_depth m c cv td)) as [H1|H1];
    [destruct (Z.lt_ge_cases (effective_depth m c cv td) (max_recursion_depth m))
       as [H2|H2]|].
  - destruct (store_at_valid_depth m fid now c cv imp td Hwf (conj H1 H2))
      as [m' [Hs [Hwf' [Hmax _]]]].
    rewrite Hs. auto.
  - rewrite (store_at_missing_depth m fid now c cv imp td Hwf) by lia. auto.
  - rewrite (store_at_missing_depth m fid now c cv imp td Hwf) by lia. auto.
Qed.

(** One call of [store_memory_fragment]. *)
Record StoreCall : Type := mkStoreCall {
  call_id : string;
  call_time : R;
  call_content : string;
  call_vector : ScrollVector;
  call_importance : R;
  call_depth : option Z
}.

(** A sequence of calls, each on the manager the former one left (also
    when it raised). *)
Definition run_stores (m : MemoryRecursionManager) (calls : list StoreCall)
  : MemoryRecursionManager :=
  fold_left
    (fun m c => fst (store_memory_fragment m (call_id c) (call_time c)
                       (call_content c) (call_vector c) (call_importance c)
                       (call_depth c)))
    calls m.

Lemma run_stores_inv (calls : list StoreCall) (m : MemoryRecursionManager) :
  wf_manager m ->
  wf_manager (run_stores m calls) /\
  layer_caps (recursion_layers (run_stores m calls)) = layer_caps (recursion_layers m).
Proof.
  revert m. induction calls as [|c calls IH]; intros m Hwf; [split; auto|].
  unfold run_stores. cbn [fold_left].
  destruct (store_keeps_wf m (call_id c) (call_time c) (call_content c)
              (call_vector c) (call_importance c) (call_depth c) Hwf) as [Hwf1 _].
  destruct (IH _ Hwf1) as [Hwf2 Hcaps]. split; [exact Hwf2|].
  unfold run_stores in Hcaps. rewrite Hcaps. apply store_keeps_caps.
Qed.

(** X10: Whatever is stored into a manager as constructed, with whatever depths
    and identifiers, the layers stay the ones of depths
    [0 .. max_recursion_depth - 1] and layer [d] never holds more than
    [max(100, 1000 - 100 d)] fragments. *)
Theorem stores_respect_layer_capacity
        (max_depth : Z) (lifetime threshold : R) (calls : list StoreCall)
        (d : Z) (l : RecursionLayer) :
  In (d, l) (recursion_layers (run_stores (new_manager max_depth lifetime threshold) calls)) ->
  (0 <= d < max_depth)%Z /\
  max_fragments l = Z.max 100 (1000 - d * 100) /\
  (Z.of_nat (length (fragments l)) <= Z.max 100 (1000 - d * 100))%Z.
Proof.
  intros Hin.
  destruct (run_stores_inv calls (new_manager max_depth lifetime threshold)
              (new_manager_wf max_depth lifetime threshold)) as [Hwf Hcaps].
  assert (Hcap : max_fragments l = Z.max 100 (1000 - d * 100)).
  { assert (Hc : In (d, max_fragments l)
                    (layer_caps (recursion_layers
                       (run_stores (new_manager max_depth lifetime threshold) calls)))).
    { unfold layer_caps. apply in_map_iff. exists (d, l). auto. }
    rewrite Hcaps in Hc. unfold layer_caps in Hc. simpl in Hc.
    rewrite map_map in Hc. apply in_map_iff in Hc as [n [E _]].
    simpl in E. inversion E; subst. reflexivity. }
  destruct Hwf as [_ [Hkeys Hok]].
  destruct (Hok d l Hin) as [_ [Hsize _]].
  split; [|split; [exact Hcap|]].
  - assert (Hmax : max_recursion_depth
                     (run_stores (new_manager max_depth lifetime threshold) calls)
                   = max_depth).
    { clear. generalize (new_manager_wf max_depth lifetime threshold).
      change max_depth with (max_recursion_depth (new_manager max_depth lifetime threshold))
        at 3.
      generalize (new_manager max_depth lifetime threshold).
      induction calls as [|c calls IH]; intros m Hwf; [reflexivity|].
      unfold run_stores. cbn [fold_left].
      destruct (store_keeps_wf m (call_id c) (call_time c) (call_content c)
                  (call_vector c) (call_importance c) (call_depth c) Hwf) as [Hwf1 Hm].
      rewrite <- Hm. apply (IH _ Hwf1). }
    rewrite <- Hmax. apply Hkeys. eapply In_dict_keys, Hin.
  - unfold layer_size in Hsize. rewrite <- Hcap. exact Hsize.
Qed.

Lemma stores_respect_layer_capacity_witness :
  exists l,
    In (0%Z, l) (recursion_layers
                   (run_stores default_manager
                      [mkStoreCall "frag_close" 0 "c" near_x 0.5 (Some 0%Z)])) /\
    (Z.of_nat (length (fragments l)) <= Z.max 100 (1000 - 0 * 100))%Z.
Proof.
  assert (Hin : In (0%Z, set_fragments (initial_layer 0.5 0)
                          [("frag_close", closer_fragment)])
                   (recursion_layers
                      (run_stores default_manager
                         [mkStoreCall "frag_close" 0 "c" near_x 0.5 (Some 0%Z)]))).
  { unfold run_stores. cbn [fold_left call_id call_time call_content call_vector
                            call_importance call_depth].
    rewrite (store_without_links default_manager "frag_close" 0 "c" near_x 0.5
               (Some 0%Z) (initial_layer 0.5 0));
      [ | reflexivity | reflexivity | simpl; tauto | simpl; tauto
        | intros H; discriminate H ].
    cbn [fst]. left. reflexivity. }
  eexists. split; [exact Hin|].
  exact (proj2 (proj2 (stores_respect_layer_capacity 10 30 0.5 _ 0 _ Hin))).
Defined.

(** A fragment satisfying [Q] sits under [fid] in layer [d]. *)
Definition holds_with (Q : MemoryFragment -> Prop) (ls : dict Z RecursionLayer)
           (d : Z) (fid : string) : Prop :=
  exists l f, In (d, l) ls /\ In (fid, f) (fragments l) /\ Q f.

Lemma update_fragment_holds_with (Q : MemoryFragment -> Prop)
      (ls : dict Z RecursionLayer) (d0 : Z) (k0 : string)
      (g : MemoryFragment -> MemoryFragment) (d : Z) (fid : string) :
  (forall f, Q f -> Q (g f)) ->
  holds_with Q ls d fid -> holds_with Q (update_fragment ls d0 k0 g) d fid.
Proof.
  intros Hg [l [f [Hl [Hf HQ]]]].
  destruct (dict_update_In_keep Z.eqb d0
              (fun l => set_fragments l (dict_update String.eqb k0 g (fragments l)))
              d l ls Hl) as [l' [Hl' [E|E]]]; subst l'.
  - exists l, f. auto.
  - destruct (dict_update_In_keep String.eqb k0 g fid f (fragments l) Hf)
      as [f' [Hf' [E|E]]]; subst f'.
    + eexists; exists f. split; [exact Hl'|]. simpl. auto.
    + eexists; exists (g f). split; [exact Hl'|]. simpl. auto.
Qed.

(** What a link leaves alone in a fragment. *)
Definition stored_as (now : R) (c : string) (cv : ScrollVector) (imp : R)
           (f : MemoryFragment) : Prop :=
  content f = c /\ context_vector f = cv /\ timestamp f = now /\
  access_count f = 0%Z /\ importance f = imp.

Lemma link_keeps_stored_as (now : R) (c : string) (cv : ScrollVector) (imp : R)
      (ls : dict Z RecursionLayer) (k : Z) (fid0 : string) (od : Z) (oid : string)
      (d : Z) (fid : string) :
  holds_with (stored_as now c cv imp) ls d fid ->
  holds_with (stored_as now c cv imp) (link ls k fid0 od oid) d fid.
Proof.
  intros H. unfold link.
  apply update_fragment_holds_with; [intros f Hf; exact Hf|].
  apply update_fragment_holds_with; [intros f Hf; exact Hf|exact H].
Qed.

(** X11: Store, then look up by identifier: after a store at a depth that
    exists, the layer of that depth holds under the returned identifier a
    fragment with the stored content, vector, time and importance and no
    access yet, whatever was there under that identifier before. *)
Theorem store_then_lookup
        (m : MemoryRecursionManager) (fid : string) (now : R) (c : string)
        (cv : ScrollVector) (imp : R) (td : option Z) :
  wf_manager m ->
  (0 <= effective_depth m c cv td < max_recursion_depth m)%Z ->
  exists m' f,
    store_memory_fragment m fid now c cv imp td = (m', Returned fid) /\
    fragment_of m' (effective_depth m c cv td) fid = Some f /\
    content f = c /\ context_vector f = cv /\ timestamp f = now /\
    access_count f = 0%Z /\ importance f = imp.
Proof.
  intros Hwf Hd.
  destruct (store_at_valid_depth m fid now c cv imp td Hwf Hd)
    as [m' [Hs [Hwf' [_ _]]]].
  set (d := effective_depth m c cv td) in *.
  assert (Hh : holds_with (stored_as now c cv imp) (recursion_layers m') d fid).
  { destruct (store_shape m fid now c cv imp td)
      as [[e He]|[[Hnone _]|[layer [l' [b [Hget [Hadd He]]]]]]].
    - rewrite Hs in He. discriminate.
    - fold d in Hnone. destruct Hwf as [_ [Hkeys _]].
      apply (dict_get_None_keys Z.eqb Z_eqb_spec) in Hnone.
      exfalso. apply Hnone, Hkeys, Hd.
    - fold d in Hget, He. rewrite Hs in He. simpl in He. rewrite He.
      apply (create_connections_inv
               (fun ls => holds_with (stored_as now c cv imp) ls d fid)).
      + intros ls k f0 od oid H. now apply link_keeps_stored_as.
      + exists l', (new_fragment fid now c cv imp). split; [|split].
        * simpl. apply (dict_set_In Z.eqb Z_eqb_spec).
        * apply (add_fragment_stores layer l' _ b Hadd).
        * repeat split. }
  destruct Hh as [l [f [Hl [Hf HQ]]]].
  exists m', f. split; [exact Hs|].
  destruct Hwf' as [Hnd [_ Hok]].
  destruct (Hok d l Hl) as [[Hndl _] _].
  split; [|exact HQ].
  unfold fragment_of.
  rewrite (In_dict_get Z.eqb Z_eqb_spec d l (recursion_layers m') Hnd Hl).
  apply (In_dict_get String.eqb string_eqb_spec fid f (fragments l) Hndl Hf).
Qed.

Lemma store_then_lookup_witness :
  wf_manager default_manager /\
  (0 <= effective_depth default_manager "x" zero_vector (Some 3%Z)
   < max_recursion_depth default_manager)%Z /\
  exists m' f,
    store_memory_fragment default_manager "frag_x" 7 "x" zero_vector 1 (Some 3%Z)
    = (m', Returned "frag_x") /\
    fragment_of m' (effective_depth default_manager "x" zero_vector (Some 3%Z)) "frag_x"
    = Some f /\ content f = "x".
Proof.
  pose proof (new_manager_wf 10 30 0.5) as Hwf.
  assert (Hd : (0 <= effective_depth default_manager "x" zero_vector (Some 3%Z)
                < max_recursion_depth default_manager)%Z)
    by (unfold effective_depth; simpl; lia).
  split; [exact Hwf|]. split; [exact Hd|].
  destruct (store_then_lookup default_manager "frag_x" 7 "x" zero_vector 1
              (Some 3%Z) Hwf Hd) as [m' [f [Hs [Hf [Hc _]]]]].
  exists m', f. auto.
Defined.

(** *** The background cleanup *)

(** The condition of [_background_cleanup] on one fragment: older than the
    lifetime, importance below 0.1 and fewer than 2 accesses. *)
Definition expired (m : MemoryRecursionManager) (now : R) (f : MemoryFragment) : bool :=
  (Rltb (timestamp f) (now - fragment_lifetime_days m * 86400)
   && Rltb (importance f) 0.1 && (access_count f <? 2)%Z)%bool.

(** One layer of a sweep: the identifiers to remove are collected first and
    deleted afterwards (they are keys of the dictionary they were read
    from). *)
Definition sweep_layer (m : MemoryRecursionManager) (now : R) (l : RecursionLayer)
  : RecursionLayer :=
  let fragments_to_remove :=
    map fst (filter (fun kf => expired m now (snd kf)) (fragments l)) in
  set_fragments l
    (fold_left (fun d k => dict_remove String.eqb k d) fragments_to_remove (fragments l)).

(** One pass of the [while True] loop of [_background_cleanup]. *)
Definition cleanup_sweep (m : MemoryRecursionManager) (now : R) : MemoryRecursionManager :=
  set_layers m (map (fun kl => (fst kl, sweep_layer m now (snd kl))) (recursion_layers m)).

Lemma dict_remove_absent {V : Type} (k : string) (d : dict string V) :
  ~ In k (dict_keys d) -> dict_remove String.eqb k d = d.
Proof.
  induction d as [|[k' v] t IH]; simpl; [reflexivity|].
  intros H. destruct (String.eqb k k') eqn:E.
  - apply String.eqb_eq in E. subst. exfalso. apply H. now left.
  - rewrite IH; [reflexivity|]. intros Hk. apply H. now right.
Qed.

(** Deleting the keys of the entries that satisfy [p], one after the other,
    leaves the entries that do not, in their order. *)
Lemma remove_selected_keys {V : Type} (p : string * V -> bool) (d : dict string V) :
  NoDup (dict_keys d) ->
  fold_left (fun d k => dict_remove String.eqb k d) (map fst (filter p d)) d
  = filter (fun kv => negb (p kv)) d.
Proof.
  induction d as [|[k v] t IH]; intros Hnd; [reflexivity|].
  inversion Hnd as [|? ? Hnot Hnd']; subst.
  assert (Hpush : forall ks,
             (forall k', In k' ks -> k' <> k) ->
             fold_left (fun d k => dict_remove String.eqb k d) ks ((k, v) :: t)
             = (k, v) :: fold_left (fun d k => dict_remove String.eqb k d) ks t).
  { intros ks. generalize t. induction ks as [|k' ks IHk]; intros t0 Hks; [reflexivity|].
    simpl. assert (E : String.eqb k' k = false).
    { apply String.eqb_neq. apply Hks. now left. }
    rewrite E. apply IHk. intros k2 Hk2. apply Hks. now right. }
  simpl. destruct (p (k, v)) eqn:Ep; simpl.
  - rewrite String.eqb_refl. now apply IH.
  - rewrite Hpush.
    + now rewrite IH.
    + intros k' Hk' ->. apply Hnot. apply in_map_iff in Hk' as [[k2 v2] [E Hin]].
      simpl in E. subst k2. apply filter_In in Hin as [Hin _].
      eapply In_dict_keys, Hin.
Qed.

(** X12: A sweep removes from every layer exactly the fragments that are at once
    older than the lifetime, of importance below 0.1 and accessed fewer than
    2 times, keeps the others in their order, and leaves the store well
    formed; a fragment accessed twice is never removed. *)
Theorem cleanup_sweep_spec (m : MemoryRecursionManager) (now : R) :
  wf_manager m ->
  wf_manager (cleanup_sweep m now) /\
  (forall d l', In (d, l') (recursion_layers (cleanup_sweep m now)) ->
     exists l, In (d, l) (recursion_layers m) /\
               fragments l'
               = filter (fun kf => negb (expired m now (snd kf))) (fragments l)) /\
  (forall d l k f, In (d, l) (recursion_layers m) -> In (k, f) (fragments l) ->
     (2 <= access_count f)%Z ->
     exists l', In (d, l') (recursion_layers (cleanup_sweep m now)) /\
                In (k, f) (fragments l')).
Proof.
  intros Hwf. destruct Hwf as [Hnd [Hkeys Hok]].
  assert (Hsweep : forall d l, In (d, l) (recursion_layers m) ->
            fragments (sweep_layer m now l)
            = filter (fun kf => negb (expired m now (snd kf))) (fragments l)).
  { intros d l Hl. unfold sweep_layer. simpl.
    apply (remove_selected_keys (fun kf => expired m now (snd kf))).
    apply (Hok d l Hl). }
  split; [|split].
  - split; [|split].
    + unfold cleanup_sweep, dict_keys. simpl. rewrite map_map. simpl. exact Hnd.
    + intros d. unfold cleanup_sweep, dict_keys. simpl. rewrite map_map. simpl.
      apply Hkeys.
    + intros d l' Hin. unfold cleanup_sweep in Hin. simpl in Hin.
      apply in_map_iff in Hin as [[k l] [E Hl]]. simpl in E. inversion E; subst.
      destruct (Hok d l Hl) as [[Hndl Hid] [Hsize Hcap]].
      assert (Hsub : forall e, In e (fragments (sweep_layer m now l)) ->
                               In e (fragments l)).
      { intros e He. rewrite (Hsweep d l Hl) in He. apply filter_In in He. tauto. }
      split; [split|split].
      * rewrite (Hsweep d l Hl). unfold dict_keys.
        apply (Mesh.filter_keeps_distinct_images
                 (fun kf : string * MemoryFragment => negb (expired m now (snd kf))) fst).
        exact Hndl.
      * intros k f Hkf. apply Hid, Hsub, Hkf.
      * unfold layer_size in *. rewrite (Hsweep d l Hl).
        pose proof (filter_length_le
                      (fun kf : string * MemoryFragment => negb (expired m now (snd kf)))
                      (fragments l)).
        simpl max_fragments. lia.
      * exact Hcap.
  - intros d l' Hin. unfold cleanup_sweep in Hin. simpl in Hin.
    apply in_map_iff in Hin as [[k l] [E Hl]]. simpl in E. inversion E; subst.
    exists l. split; [exact Hl|]. now apply (Hsweep d).
  - intros d l k f Hl Hf Hacc. exists (sweep_layer m now l). split.
    + unfold cleanup_sweep. simpl. apply in_map_iff. exists (d, l). auto.
    + rewrite (Hsweep d l Hl). apply filter_In. split; [exact Hf|].
      unfold expired. simpl.
      assert (E : (access_count f <? 2)%Z = false) by (apply Z.ltb_ge; lia).
      rewrite E, andb_false_r. reflexivity.
Qed.

Definition one_store : list StoreCall :=
  [mkStoreCall "frag_close" 0 "c" near_x 0.5 (Some 0%Z)].

Lemma cleanup_sweep_spec_witness :
  wf_manager (run_stores default_manager one_store) /\
  wf_manager (cleanup_sweep (run_stores default_manager one_store) 1).
Proof.
  pose proof (proj1 (run_stores_inv one_store default_manager
                       (new_manager_wf 10 30 0.5))) as Hwf.
  split; [exact Hwf|].
  exact (proj1 (cleanup_sweep_spec (run_stores default_manager one_store) 1 Hwf)).
Defined.

(** *** The analysis of the store *)

(** The counters of [analyze_memory_patterns] ([fragments_by_depth] is keyed
    by the depth itself rather than by its decimal string). *)
Record MemoryAnalysis : Type := mkMemoryAnalysis {
  total_fragments : Z;
  fragments_by_depth : dict Z Z;
  importance_low : Z;
  importance_medium : Z;
  importance_high : Z;
  temporal_recent : Z;
  temporal_old : Z;
  temporal_ancient : Z;
  connectivity_isolated : Z;
  connectivity_connected : Z;
  connectivity_hubs : Z
}.

Definition empty_analysis : MemoryAnalysis :=
  mkMemoryAnalysis 0 [] 0 0 0 0 0 0 0 0 0.

(** The body of the loop over the fragments of a layer. *)
Definition classify_fragment (now : R) (a : MemoryAnalysis) (f : MemoryFragment)
  : MemoryAnalysis :=
  let age_hours := (now - timestamp f) / 3600 in
  let total_connections :=
    (length (parent_fragments f) + length (child_fragments f))%nat in
  mkMemoryAnalysis
    (total_fragments a) (fragments_by_depth a)
    (if Rltb (importance f) 0.3 then importance_low a + 1 else importance_low a)%Z
    (if Rltb (importance f) 0.3 then importance_medium a
     else if Rltb (importance f) 0.7 then importance_medium a + 1
          else importance_medium a)%Z
    (if Rltb (importance f) 0.3 then importance_high a
     else if Rltb (importance f) 0.7 then importance_high a
          else importance_high a + 1)%Z
    (if Rltb age_hours 24 then temporal_recent a + 1 else temporal_recent a)%Z
    (if Rltb age_hours 24 then temporal_old a
     else if Rltb age_hours 168 then temporal_old a + 1 else temporal_old a)%Z
    (if Rltb age_hours 24 then temporal_ancient a
     else if Rltb age_hours 168 then temporal_ancient a
          else temporal_ancient a + 1)%Z
    (if (total_connections =? 0)%nat then connectivity_isolated a + 1
     else connectivity_isolated a)%Z
    (if (total_connections =? 0)%nat then connectivity_connected a
     else if (total_connections <=? 3)%nat then connectivity_connected a + 1
          else connectivity_connected a)%Z
    (if (total_connections =? 0)%nat then connectivity_hubs a
     else if (total_connections <=? 3)%nat then connectivity_hubs a
          else connectivity_hubs a + 1)%Z.

(** The body of the loop over the layers. *)
Definition analyze_layer (now : R) (a : MemoryAnalysis) (kl : Z * RecursionLayer)
  : MemoryAnalysis :=
  let fragment_count := Z.of_nat (length (fragments (snd kl))) in
  let a1 :=
    mkMemoryAnalysis
      (total_fragments a + fragment_count)%Z
      (dict_set Z.eqb (fst kl) fragment_count (fragments_by_depth a))
      (importance_low a) (importance_medium a) (importance_high a)
      (temporal_recent a) (temporal_old a) (temporal_ancient a)
      (connectivity_isolated a) (connectivity_connected a) (connectivity_hubs a) in
  fold_left (classify_fragment now) (dict_values (fragments (snd kl))) a1.

(** [MemoryRecursionManager.analyze_memory_patterns] *)
Definition analyze_memory_patterns (m : MemoryRecursionManager) (now : R)
  : MemoryAnalysis :=
  fold_left (analyze_layer now) (recursion_layers m) empty_analysis.

(** Each distribution counts every fragment once. *)
Definition balanced (a : MemoryAnalysis) (extra : Z) : Prop :=
  (importance_low a + importance_medium a + importance_high a
   = total_fragments a + extra)%Z /\
  (temporal_recent a + temporal_old a + temporal_ancient a
   = total_fragments a + extra)%Z /\
  (connectivity_isolated a + connectivity_connected a + connectivity_hubs a
   = total_fragments a + extra)%Z.

Lemma classify_fragment_balanced (now : R) (a : MemoryAnalysis) (f : MemoryFragment)
      (k : Z) :
  balanced a k -> balanced (classify_fragment now a f) (k + 1) /\
  total_fragments (classify_fragment now a f) = total_fragments a.
Proof.
  intros [H1 [H2 H3]]. unfold balanced, classify_fragment. simpl.
  repeat split.
  - destruct (Rltb (importance f) 0.3); [|destruct (Rltb (importance f) 0.7)]; lia.
  - destruct (Rltb ((now - timestamp f) / 3600) 24);
      [|destruct (Rltb ((now - timestamp f) / 3600) 168)]; lia.
  - destruct (_ =? 0)%nat; [|destruct (_ <=? 3)%nat]; lia.
Qed.

Lemma classify_all_balanced (now : R) (fs : list MemoryFragment) (a : MemoryAnalysis)
      (k : Z) :
  balanced a k ->
  balanced (fold_left (classify_fragment now) fs a) (k + Z.of_nat (length fs)) /\
  total_fragments (fold_left (classify_fragment now) fs a) = total_fragments a.
Proof.
  revert a k. induction fs as [|f fs IH]; intros a k Hb.
  - simpl. rewrite Z.add_0_r. auto.
  - cbn [fold_left]. destruct (classify_fragment_balanced now a f k Hb) as [Hb1 Ht1].
    destruct (IH _ _ Hb1) as [Hb2 Ht2]. split.
    + replace (k + Z.of_nat (length (f :: fs)))%Z
        with (k + 1 + Z.of_nat (length fs))%Z by (simpl length; lia).
      exact Hb2.
    + now rewrite Ht2.
Qed.

Lemma analyze_layers_balanced (now : R) (ls : dict Z RecursionLayer) (a : MemoryAnalysis) :
  balanced a 0 ->
  balanced (fold_left (analyze_layer now) ls a) 0 /\
  total_fragments (fold_left (analyze_layer now) ls a)
  = (total_fragments a
     + Z.of_nat (list_sum (map (fun kl => length (fragments (snd kl))) ls)))%Z.
Proof.
  revert a. induction ls as [|[d l] ls IH]; intros a Hb.
  - simpl. rewrite Z.add_0_r. auto.
  - cbn [fold_left].
    assert (Hl : balanced (analyze_layer now a (d, l)) 0 /\
                 total_fragments (analyze_layer now a (d, l))
                 = (total_fragments a + Z.of_nat (length (fragments l)))%Z).
    { unfold analyze_layer. cbn [fst snd].
      match goal with |- context [fold_left _ _ ?a1] =>
        destruct (classify_all_balanced now (dict_values (fragments l)) a1
                    (- Z.of_nat (length (fragments l)))) as [Hb1 Ht1] end.
      - destruct Hb as [H1 [H2 H3]]. unfold balanced. simpl. lia.
      - unfold dict_values in Hb1. rewrite length_map in Hb1.
        rewrite Z.add_opp_diag_l in Hb1. split; [exact Hb1|].
        rewrite Ht1. reflexivity. }
    destruct Hl as [Hb1 Ht1]. destruct (IH _ Hb1) as [Hb2 Ht2].
    split; [exact Hb2|]. rewrite Ht2, Ht1. simpl map. simpl list_sum. lia.
Qed.

(** X13: In the analysis of a store the total is the number of stored fragments,
    and each of the three distributions (importance, age, connectivity)
    spreads exactly that total over its three classes. *)
Theorem analysis_counts_every_fragment_once (m : MemoryRecursionManager) (now : R) :
  let a := analyze_memory_patterns m now in
  total_fragments a
  = Z.of_nat (list_sum (map (fun kl => length (fragments (snd kl)))
                            (recursion_layers m))) /\
  (importance_low a + importance_medium a + importance_high a = total_fragments a)%Z /\
  (temporal_recent a + temporal_old a + temporal_ancient a = total_fragments a)%Z /\
  (connectivity_isolated a + connectivity_connected a + connectivity_hubs a
   = total_fragments a)%Z.
Proof.
  intros a. unfold a, analyze_memory_patterns.
  destruct (analyze_layers_balanced now (recursion_layers m) empty_analysis)
    as [[H1 [H2 H3]] Ht].
  - unfold balanced. simpl. lia.
  - rewrite Ht. simpl total_fragments. rewrite Ht in H1, H2, H3.
    simpl total_fragments in H1, H2, H3. lia.
Qed.

(** *** Recursive computations of the other types *)

Lemma vector_diff_self_magnitude (v : ScrollVector) :
  magnitude (vector_diff v v) = 0.
Proof.
  apply magnitude_zero_iff. unfold vector_diff, zero_vector. f_equal; ring.
Qed.


Section OtherComputations.
Variable retrieve_time : nat -> R.
Variable store_time : nat -> R.
Variable store_id : nat -> string.
Variable content_str : Z -> ScrollVector -> string.

Let run := _execute_recursive_computation retrieve_time store_time store_id content_str.
Let loop := recursion_loop retrieve_time store_time store_id content_str.

(** X14: A computation type other than the two known ones is the identity step:
    with at least one iteration allowed, the task makes one retrieval for
    the initial vector, finds no movement and ends as converged at iteration
    0, with nothing stored and the history holding the initial vector only. *)
Theorem unknown_computation_type_converges_at_once
        (m : MemoryRecursionManager) (rid : string) (v : ScrollVector)
        (ty : string) (n : Z) (fuel : nat) :
  ty <> "field_convergence" -> ty <> "spiral_drift" -> (1 <= n)%Z ->
  exists state,
    run (S fuel) m (start_recursive_computation rid v ty n)
    = Some (fst (retrieve_memory_fragments m (retrieve_time 0%nat) v 5 0.3),
            state, None) /\
    status state = "converged" /\ iteration state = 0%Z /\
    current_vector state = v /\ history state = [v].
Proof.
  intros H1 H2 Hn.
  set (s0 := start_recursive_computation rid v ty n).
  exists (set_status s0 "converged").
  split; [|repeat split].
  unfold run, _execute_recursive_computation.
  destruct (retrieve_memory_fragments m (retrieve_time 0%nat) v 5 0.3)
    as [m1 mem] eqn:Er.
  assert (Hnext : _compute_next_iteration (current_vector s0) mem (computation_type s0) = v).
  { unfold _compute_next_iteration. cbn [s0 start_recursive_computation
      current_vector computation_type].
    apply String.eqb_neq in H1, H2. now rewrite H1, H2. }
  rewrite (loop_converge retrieve_time store_time store_id content_str
             fuel 0 m m1 s0 mem).
  - reflexivity.
  - unfold loop_guard. cbn [s0 start_recursive_computation iteration
      max_iterations status].
    apply andb_true_intro. split; [apply Z.ltb_lt; lia | reflexivity].
  - exact Er.
  - rewrite Hnext. cbn [s0 start_recursive_computation current_vector
      convergence_threshold].
    rewrite vector_diff_self_magnitude. lra.
Qed.



End OtherComputations.

Lemma unknown_computation_type_converges_at_once_witness :
  exists state,
    _execute_recursive_computation quiet_clock quiet_clock pass_id pass_content 1
      default_manager (start_recursive_computation "rec_0_other" unit_x "other" 3)
    = Some (fst (retrieve_memory_fragments default_manager (quiet_clock 0%nat)
                   unit_x 5 0.3),
            state, None) /\
    status state = "converged" /\ iteration state = 0%Z /\
    current_vector state = unit_x /\ history state = [unit_x].
Proof.
  apply (unknown_computation_type_converges_at_once
           quiet_clock quiet_clock pass_id pass_content
           default_manager "rec_0_other" unit_x "other" 3 0).
  - discriminate.
  - discriminate.
  - lia.
Defined.


(** ** Further properties of the mesh orchestrator *)

Module MeshOps.
Import Mesh.

(** *** Scores *)

Lemma position_resonance_range (p q : ScrollVector) :
  0 < _calculate_position_resonance p q <= 1 /\
  (p = q -> _calculate_position_resonance p q = 1).
Proof.
  unfold _calculate_position_resonance.
  set (d := mkScrollVector _ _ _ _ _).
  pose proof (magnitude_nonneg d) as Hd.
  split; [split|].
  - apply Rdiv_lt_0_compat; lra.
  - apply (Rmult_le_reg_r (1.0 + magnitude d)); [lra|].
    unfold Rdiv. rewrite Rmult_assoc, Rinv_l by lra. lra.
  - intros ->.
    replace (magnitude d) with 0; [lra|]. symmetry.
    apply magnitude_zero_iff. unfold d, zero_vector. f_equal; ring.
Qed.

(** X16: The score [_select_task_nodes] gives a node with non-negative affinity
    and capacity lies between 0 and [field_affinity * compute_capacity],
    and reaches that bound when the node sits at the gradient of the
    field. *)
Theorem node_score_bound (f : CodexDriftField) (n : MeshNode) :
  0 <= field_affinity n -> 0 <= compute_capacity n ->
  0 <= node_score f n <= field_affinity n * compute_capacity n /\
  (position n = compute_field_gradient f ->
   node_score f n = field_affinity n * compute_capacity n).
Proof.
  intros Ha Hc. unfold node_score.
  destruct (position_resonance_range (position n) (compute_field_gradient f))
    as [[H0 H1] He].
  set (r := _calculate_position_resonance _ _) in *.
  split; [split|].
  - apply Rmult_le_pos; [apply Rmult_le_pos|]; lra.
  - pose proof (Rmult_le_pos _ _ Ha Hc) as Hac.
    replace (field_affinity n * r * compute_capacity n)
      with (field_affinity n * compute_capacity n * r) by ring.
    rewrite <- (Rmult_1_r (field_affinity n * compute_capacity n)) at 2.
    apply Rmult_le_compat_l; [exact Hac|exact H1].
  - intros E. rewrite (He E). ring.
Qed.

Lemma node_score_bound_witness :
  0 <= node_score unit_field (core_node 0 1 unit_x)
    <= field_affinity (core_node 0 1 unit_x) * compute_capacity (core_node 0 1 unit_x).
Proof.
  apply (node_score_bound unit_field (core_node 0 1 unit_x)); simpl; lra.
Defined.




(** *** The heartbeat monitor *)

(** One pass of the [while] loop of [_heartbeat_monitor] at time [now]. *)
Definition heartbeat_pass (o : MeshOrchestrator) (now : R) : MeshOrchestrator :=
  set_nodes o
    (map (fun kn : string * MeshNode =>
            (fst kn, if is_healthy now (snd kn) then snd kn
                     else set_state (snd kn) ERROR))
         (nodes o)).

(** X18: A pass of the monitor removes no node: those whose heartbeat is 30
    seconds old or older are set to [ERROR], the others are left as they
    are; and whatever the time of a later selection, no node that missed
    the heartbeat at the pass is selected for a task. *)
Theorem heartbeat_pass_marks_and_keeps (o : MeshOrchestrator) (now : R) :
  dict_keys (nodes (heartbeat_pass o now)) = dict_keys (nodes o) /\
  (forall k n, In (k, n) (nodes o) ->
     In (k, if Rltb (now - last_heartbeat n) 30 then n else set_state n ERROR)
        (nodes (heartbeat_pass o now))) /\
  (forall later f tt nid,
     In nid (_select_task_nodes (heartbeat_pass o now) later f tt) ->
     exists n, In n (dict_values (nodes o)) /\ node_id n = nid /\
               state n = ACTIVE /\ now - last_heartbeat n < 30 /\
               later - last_heartbeat n < 30).
Proof.
  split; [|split].
  - unfold heartbeat_pass, dict_keys. simpl. rewrite map_map. reflexivity.
  - intros k n Hin. unfold heartbeat_pass. simpl.
    apply in_map_iff. exists (k, n). split; [reflexivity|exact Hin].
  - intros later f tt nid Hin. unfold _select_task_nodes in Hin.
    apply in_map_iff in Hin as [p [Hp Hin]]. apply firstn_In in Hin.
    apply sorted_desc_In in Hin. apply in_map_iff in Hin as [n' [Ep Hav]].
    subst p. simpl in Hp. subst nid.
    apply available_nodes_In in Hav as [Hval [Hact Hh]].
    unfold heartbeat_pass, dict_values in Hval. simpl in Hval.
    rewrite map_map in Hval. apply in_map_iff in Hval as [[k n] [E Hkn]].
    simpl in E. unfold is_healthy in E.
    destruct (Rltb (now - last_heartbeat n) 30) eqn:Eh.
    + subst n'. exists n. split; [|split; [reflexivity|split; [exact Hact|split]]].
      * apply In_dict_values. eauto.
      * now apply Rltb_true.
      * exact Hh.
    + subst n'. simpl in Hact. discriminate.
Qed.

(** *** Executing a task *)

Lemma remove_first_appended (tid : string) (l : list string) :
  ~ In tid l -> remove_first tid (l ++ [tid]) = l.
Proof.
  induction l as [|a t IH]; simpl; intros H.
  - now rewrite String.eqb_refl.
  - destruct (String.eqb a tid) eqn:E.
    + apply String.eqb_eq in E. subst. exfalso. apply H. now left.
    + rewrite IH; [reflexivity|]. intros Hin. apply H. now right.
Qed.

(** What a pass over the targets may change in a node. *)
Definition same_node_but_state_and_tasks (n n' : MeshNode) : Prop :=
  node_id n' = node_id n /\ position n' = position n /\
  compute_capacity n' = compute_capacity n /\ field_affinity n' = field_affinity n /\
  last_heartbeat n' = last_heartbeat n.

Lemma run_subtasks_nodes (now : R) (task : MeshTask) (targets : list string) :
  forall (ns : dict string MeshNode),
    dict_keys (fst (run_subtasks now task targets ns)) = dict_keys ns /\
    forall nid n,
      dict_get String.eqb nid ns = Some n ->
      exists n',
        dict_get String.eqb nid (fst (run_subtasks now task targets ns)) = Some n' /\
        same_node_but_state_and_tasks n n' /\
        (In nid targets -> state n' = ACTIVE) /\
        (~ In nid targets -> n' = n) /\
        (~ In (task_id task) (assigned_tasks n) -> assigned_tasks n' = assigned_tasks n).
Proof.
  induction targets as [|t rest IH]; intros ns.
  - simpl. split; [reflexivity|]. intros nid n Hget. exists n.
    split; [exact Hget|]. split; [repeat split|].
    split; [intros []|]. split; reflexivity.
  - cbn [run_subtasks]. destruct (dict_get String.eqb t ns) as [node|] eqn:Et.
    + set (ns1 := dict_set String.eqb t (after_subtask (task_id task) node) ns).
      destruct (run_subtasks now task rest ns1) as [ns' rs] eqn:Er.
      cbn [fst]. destruct (IH ns1) as [Hkeys Hnodes]. rewrite Er in Hkeys, Hnodes.
      cbn [fst] in Hkeys, Hnodes.
      split.
      * rewrite Hkeys. unfold ns1.
        apply (dict_keys_set_mem String.eqb string_eqb_spec).
        apply (dict_get_In String.eqb string_eqb_spec) in Et.
        change t with (fst (t, node)). apply in_map, Et.
      * intros nid n Hget. destruct (String.eqb nid t) eqn:E.
        -- apply String.eqb_eq in E. subst nid.
           rewrite Et in Hget. injection Hget as <-.
           destruct (Hnodes t (after_subtask (task_id task) node))
             as [n' [Hg [Hsame [Hin [Hout Htasks]]]]].
           { unfold ns1. apply (dict_get_set_same String.eqb string_eqb_spec). }
           exists n'. split; [exact Hg|].
           destruct Hsame as [S1 [S2 [S3 [S4 S5]]]].
           split; [repeat split; assumption|].
           split; [|split].
           ++ intros _. destruct (in_dec string_dec t rest) as [Hr|Hr].
              ** now apply Hin.
              ** rewrite (Hout Hr). reflexivity.
           ++ intros Hno. exfalso. apply Hno. now left.
           ++ intros Hno.
              assert (Ha : assigned_tasks (after_subtask (task_id task) node)
                           = assigned_tasks node).
              { simpl. now apply remove_first_appended. }
              rewrite Htasks; [exact Ha|]. now rewrite Ha.
        -- apply String.eqb_neq in E.
           destruct (Hnodes nid n) as [n' [Hg [Hsame [Hin [Hout Htasks]]]]].
           { unfold ns1.
             now rewrite (dict_get_set_other String.eqb string_eqb_spec) by exact E. }
           exists n'. split; [exact Hg|]. split; [exact Hsame|].
           split; [|split].
           ++ intros [H|H]; [congruence|now apply Hin].
           ++ intros Hno. apply Hout. intros H. apply Hno. now right.
           ++ exact Htasks.
    + destruct (IH ns) as [Hkeys Hnodes]. split; [exact Hkeys|].
      intros nid n Hget.
      destruct (Hnodes nid n Hget) as [n' [Hg [Hsame [Hin [Hout Htasks]]]]].
      exists n'. split; [exact Hg|]. split; [exact Hsame|].
      split; [|split].
      * intros [H|H]; [subst; congruence|now apply Hin].
      * intros Hno. apply Hout. intros H. apply Hno. now right.
      * exact Htasks.
Qed.

(** X19: Executing a task registers and removes no node and touches only the
    state and the task list of the nodes: every registered target is left
    [ACTIVE], whatever its state was before, every other node is left as it
    was, and a node that did not already list the task keeps its task
    list. *)
Theorem execute_leaves_targets_active
        (o : MeshOrchestrator) (now : R) (task : MeshTask) :
  let o' := fst (_execute_mesh_task o now task) in
  dict_keys (nodes o') = dict_keys (nodes o) /\
  forall nid n,
    dict_get String.eqb nid (nodes o) = Some n ->
    exists n',
      dict_get String.eqb nid (nodes o') = Some n' /\
      same_node_but_state_and_tasks n n' /\
      (In nid (target_nodes task) -> state n' = ACTIVE) /\
      (~ In nid (target_nodes task) -> n' = n) /\
      (~ In (task_id task) (assigned_tasks n) -> assigned_tasks n' = assigned_tasks n).
Proof.
  intros o'. unfold o', _execute_mesh_task.
  pose proof (run_subtasks_nodes now task (target_nodes task) (nodes o)) as H.
  destruct (run_subtasks now task (target_nodes task) (nodes o)) as [ns rs].
  cbn [fst set_tasks set_nodes nodes] in *. exact H.
Qed.

(** *** Shutdown *)



Definition count {A : Type} (p : A -> bool) (l : list A) : Z :=
  Z.of_nat (length (filter p l)).





(** *** Growth of the registry *)

Record NodeCall : Type := mkNodeCall {
  new_id : string;
  new_time : R;
  new_position : ScrollVector;
  new_capacity : R;
  new_affinity : R
}.

(** A sequence of [add_mesh_node] calls, failed ones included. *)
Definition run_adds (calls : list NodeCall) (o : MeshOrchestrator) : MeshOrchestrator :=
  fold_left
    (fun o c => fst (add_mesh_node o (new_id c) (new_time c) (new_position c)
                                   (new_capacity c) (new_affinity c)))
    calls o.

Lemma add_mesh_node_inv (o : MeshOrchestrator) (c : NodeCall) (bound : Z) :
  let o' := fst (add_mesh_node o (new_id c) (new_time c) (new_position c)
                               (new_capacity c) (new_affinity c)) in
  wf_nodes (nodes o) -> (max_nodes o <= bound)%Z ->
  (Z.of_nat (length (nodes o)) <= bound)%Z ->
  wf_nodes (nodes o') /\ max_nodes o' = max_nodes o /\
  (Z.of_nat (length (nodes o')) <= bound)%Z /\
  ((max_nodes o <= Z.of_nat (length (nodes o)))%Z -> o' = o).
Proof.
  intros o' Hwf Hb Hl. unfold o', add_mesh_node.
  destruct (max_nodes o <=? Z.of_nat (length (nodes o)))%Z eqn:E.
  - cbn [fst]. auto.
  - cbn [fst]. apply Z.leb_gt in E.
    split; [|split; [reflexivity|split]].
    + unfold _integrate_node. cbn [nodes set_nodes]. destruct Hwf as [Hnd Hid]. split.
      * rewrite (dict_keys_update String.eqb).
        apply dict_set_NoDup; [apply string_eqb_spec|exact Hnd].
      * intros k n Hin.
        assert (Hset : forall k n, In (k, n) (dict_set String.eqb (new_id c)
                         (mkMeshNode (new_id c) (new_position c) INITIALIZING
                            (new_capacity c) (new_affinity c) (new_time c) [])
                         (nodes o)) -> node_id n = k).
        { intros k0 n0 H0.
          apply (dict_set_In_inv String.eqb string_eqb_spec) in H0 as [H0|H0].
          - inversion H0. reflexivity.
          - now apply Hid. }
        apply (dict_update_In_inv String.eqb string_eqb_spec) in Hin
          as [Hin|[v [Hin Ekn]]].
        -- now apply Hset.
        -- inversion Ekn; subst. simpl. now apply Hset.
    + unfold _integrate_node. cbn [nodes set_nodes].
      rewrite (dict_update_length String.eqb).
      pose proof (dict_set_length_le String.eqb (new_id c)
                    (mkMeshNode (new_id c) (new_position c) INITIALIZING
                       (new_capacity c) (new_affinity c) (new_time c) [])
                    (nodes o)).
      lia.
    + intros H. lia.
Qed.

(** X21: However many nodes are added, the registry stays keyed by the node
    identifiers and never grows beyond the larger of [max_nodes] and the
    size it started with; a registry already at or above [max_nodes] is
    left untouched by every further call.  [initialize_mesh] does not look
    at [max_nodes]: on a new orchestrator it registers the five core nodes
    whatever the cap. *)
Theorem registry_growth_is_capped (calls : list NodeCall) (o : MeshOrchestrator) :
  wf_nodes (nodes o) ->
  wf_nodes (nodes (run_adds calls o)) /\
  (Z.of_nat (length (nodes (run_adds calls o)))
   <= Z.max (max_nodes o) (Z.of_nat (length (nodes o))))%Z /\
  ((max_nodes o <= Z.of_nat (length (nodes o)))%Z -> run_adds calls o = o) /\
  forall cap now,
    length (nodes (initialize_mesh now (new_orchestrator cap))) = 5%nat.
Proof.
  intros Hwf.
  set (bound := Z.max (max_nodes o) (Z.of_nat (length (nodes o)))).
  assert (H : forall cs o0,
             wf_nodes (nodes o0) -> (max_nodes o0 <= bound)%Z ->
             (Z.of_nat (length (nodes o0)) <= bound)%Z ->
             wf_nodes (nodes (run_adds cs o0)) /\
             (Z.of_nat (length (nodes (run_adds cs o0))) <= bound)%Z /\
             ((max_nodes o0 <= Z.of_nat (length (nodes o0)))%Z -> run_adds cs o0 = o0)).
  { induction cs as [|c cs IH]; intros o0 Hw Hm Hl.
    - simpl. auto.
    - unfold run_adds. cbn [fold_left].
      destruct (add_mesh_node_inv o0 c bound Hw Hm Hl) as [Hw1 [Hm1 [Hl1 Hsame]]].
      set (o1 := fst (add_mesh_node o0 (new_id c) (new_time c) (new_position c)
                                    (new_capacity c) (new_affinity c))) in *.
      destruct (IH o1 Hw1) as [Hw2 [Hl2 Hs2]]; [lia|exact Hl1|].
      fold (run_adds cs o1).
      split; [exact Hw2|]. split; [exact Hl2|].
      intros Hfull. rewrite (Hsame Hfull) in *. now apply Hs2. }
  destruct (H calls o Hwf) as [H1 [H2 H3]]; [unfold bound; lia|unfold bound; lia|].
  split; [exact H1|]. split; [exact H2|]. split; [exact H3|].
  intros cap now. reflexivity.
Qed.

Lemma registry_growth_is_capped_witness :
  wf_nodes (nodes (run_adds [mkNodeCall "node-1a2b3c4d" 1 unit_x 1.0 0.5] core_mesh)).
Proof.
  exact (proj1 (registry_growth_is_capped
                  [mkNodeCall "node-1a2b3c4d" 1 unit_x 1.0 0.5] core_mesh core_mesh_wf)).
Defined.

End MeshOps.

(** ** Further properties of the agents *)

Module AgentOps.
Import Agents.

(** [AgentMessage]; the content is not looked at by the broker. *)
Record AgentMessage : Type := mkAgentMessage {
  message_id : string;
  sender_id : string;
  receiver_id : option string;
  message_type : string;
  content : string;
  priority : Z;
  requires_response : bool
}.

Record PerformanceMetrics : Type := mkPerformanceMetrics {
  tasks_completed : Z;
  messages_processed : Z;
  learning_iterations : Z;
  errors_encountered : Z
}.

(** An agent with the fields that [Agent] leaves out: the message queue,
    the local memory and the performance metrics. *)
Record LiveAgent : Type := mkLiveAgent {
  core : Agent;
  local_memory : list MemoryFragment;
  message_queue : list AgentMessage;
  performance_metrics : PerformanceMetrics
}.

Definition set_core (a : LiveAgent) (c : Agent) : LiveAgent :=
  mkLiveAgent c (local_memory a) (message_queue a) (performance_metrics a).

Definition set_message_queue (a : LiveAgent) (q : list AgentMessage) : LiveAgent :=
  mkLiveAgent (core a) (local_memory a) q (performance_metrics a).

Definition set_local_memory (a : LiveAgent) (l : list MemoryFragment) : LiveAgent :=
  mkLiveAgent (core a) l (message_queue a) (performance_metrics a).

(** *** Activation energy *)

(** The slice [l[-n:]]. *)
Definition py_last {A : Type} (n : nat) (l : list A) : list A :=
  skipn (length l - n) l.

(** [Agent._update_activation_energy] *)
Definition _update_activation_energy (a : LiveAgent) : LiveAgent :=
  let base_energy := 0.5 in
  let message_factor := Rmin 0.3 (INR (length (message_queue a)) * 0.1) in
  let recent_tasks := length (py_last 10 (task_history (core a))) in
  let task_factor := Rmin 0.2 (INR recent_tasks * 0.02) in
  set_core a
    (mkAgent (profile (core a)) (state (core a)) (task_history (core a))
             (last_activity (core a)) (base_energy + message_factor + task_factor)
             (custom_state (core a))).

Lemma py_last_length {A : Type} (n : nat) (l : list A) :
  length (py_last n l) = Nat.min n (length l).
Proof. unfold py_last. rewrite length_skipn. lia. Qed.

(** X22: The activation energy an update leaves lies between 0.5 and 1.0: it is
    0.5 exactly when the queue and the task history are both empty, and 1.0
    exactly when at least 3 messages wait and at least 10 tasks were
    taken. *)
Theorem activation_energy_range (a : LiveAgent) :
  let e := activation_energy (core (_update_activation_energy a)) in
  0.5 <= e <= 1.0 /\
  (e = 0.5 <-> message_queue a = [] /\ task_history (core a) = []) /\
  (e = 1.0 <-> (3 <= length (message_queue a))%nat /\
               (10 <= length (task_history (core a)))%nat).
Proof.
  intros e. unfold e, _update_activation_energy.
  cbn [core set_core activation_energy]. rewrite py_last_length.
  set (q := length (message_queue a)). set (h := length (task_history (core a))).
  assert (Hq : 0 <= INR q) by apply pos_INR.
  assert (Hm : 0 <= INR (Nat.min 10 h)) by apply pos_INR.
  assert (Hq0 : q = 0%nat <-> message_queue a = []) by apply length_zero_iff_nil.
  assert (Hh0 : h = 0%nat <-> task_history (core a) = []) by apply length_zero_iff_nil.
  assert (I1 : INR 1 = 1) by reflexivity.
  assert (I2 : INR 2 = 2) by (simpl; lra).
  assert (I3 : INR 3 = 3) by (simpl; lra).
  assert (I9 : INR 9 = 9) by (simpl; lra).
  assert (I10 : INR 10 = 10) by (simpl; lra).
  assert (Hq1 : (1 <= q)%nat -> 1 <= INR q).
  { intros H. apply le_INR in H. rewrite I1 in H. exact H. }
  assert (Hq3 : (3 <= q)%nat -> 3 <= INR q).
  { intros H. apply le_INR in H. rewrite I3 in H. exact H. }
  assert (Hq2 : (q <= 2)%nat -> INR q <= 2).
  { intros H. apply le_INR in H. rewrite I2 in H. exact H. }
  assert (Hh1 : (1 <= h)%nat -> 1 <= INR (Nat.min 10 h)).
  { intros H. assert (H' : (1 <= Nat.min 10 h)%nat) by lia.
    apply le_INR in H'. rewrite I1 in H'. exact H'. }
  assert (Hh10 : (10 <= h)%nat -> INR (Nat.min 10 h) = 10).
  { intros H. replace (Nat.min 10 h) with 10%nat by lia. exact I10. }
  assert (Hh9 : (h <= 9)%nat -> INR (Nat.min 10 h) <= 9).
  { intros H. assert (H' : (Nat.min 10 h <= 9)%nat) by lia.
    apply le_INR in H'. rewrite I9 in H'. exact H'. }
  clear I1 I2 I3 I9 I10.
  unfold Rmin.
  destruct (Rle_dec 0.3 (INR q * 0.1)) as [Cq|Cq];
    destruct (Rle_dec 0.2 (INR (Nat.min 10 h) * 0.02)) as [Ch|Ch].
  - split; [lra|]. split.
    + split; [lra|]. intros [E1 E2]. apply Hq0 in E1. rewrite E1 in Cq. simpl in Cq. lra.
    + split; [|lra]. intros _. split.
      * destruct (Nat.le_gt_cases 3 q) as [H|H]; [exact H|].
        assert (H2 : INR q <= 2) by (apply Hq2; lia). lra.
      * destruct (Nat.le_gt_cases 10 h) as [H|H]; [exact H|].
        assert (H2 : INR (Nat.min 10 h) <= 9) by (apply Hh9; lia). lra.
  - assert (Hh : (h <= 9)%nat).
    { destruct (Nat.le_gt_cases 10 h) as [H|H]; [|lia].
      rewrite (Hh10 H) in Ch. lra. }
    split; [lra|]. split.
    + split; [lra|]. intros [E1 E2]. apply Hq0 in E1. rewrite E1 in Cq. simpl in Cq. lra.
    + split; [|lia]. intros E. specialize (Hh9 Hh). lra.
  - assert (Hq' : (q <= 2)%nat).
    { destruct (Nat.le_gt_cases 3 q) as [H|H]; [|lia]. specialize (Hq3 H). lra. }
    split; [lra|]. split.
    + split; [lra|]. intros [E1 E2]. apply Hh0 in E2. rewrite E2 in Ch. simpl in Ch. lra.
    + split; [|lia]. intros E. specialize (Hq2 Hq'). lra.
  - assert (Hq' : (q <= 2)%nat).
    { destruct (Nat.le_gt_cases 3 q) as [H|H]; [|lia]. specialize (Hq3 H). lra. }
    split; [lra|]. split.
    + split.
      * intros E. split.
        -- apply Hq0. destruct q as [|q']; [reflexivity|].
           assert (H1 : 1 <= INR (S q')) by (apply Hq1; lia). lra.
        -- apply Hh0. destruct h as [|h']; [reflexivity|].
           assert (H1 : 1 <= INR (Nat.min 10 (S h'))) by (apply Hh1; lia). lra.
      * intros [E1 E2]. apply Hq0 in E1. apply Hh0 in E2. rewrite E1, E2. simpl. lra.
    + split; [|lia]. intros E. specialize (Hq2 Hq'). lra.
Qed.

(** *** Learning *)




(** *** Local memory *)

Section MemoryProcessing.
(** The identifier generated for the fragment of the [i]-th item and the
    clock when it is built. *)
Variable local_id : nat -> string.
Variable local_time : nat -> R.

(** The loop of [_perform_memory_processing] from item [i] on. *)
Fixpoint memory_loop (memory_data : list string) (i : nat)
         (a : LiveAgent) (processed_count : Z) : LiveAgent * Z :=
  match memory_data with
  | [] => (a, processed_count)
  | item :: rest =>
    if (Z.of_nat (length (local_memory a)) <? memory_capacity (profile (core a)))%Z then
      let fragment :=
        mkMemoryFragment (local_id i) item (position (profile (core a)))
                         (local_time i) 0 1.0 [] [] in
      memory_loop rest (S i) (set_local_memory a (local_memory a ++ [fragment]))
                  (processed_count + 1)%Z
    else memory_loop rest (S i) a processed_count
  end.

(** [Agent._perform_memory_processing]: the agent, [processed_items] and
    [local_memory_size]. *)
Definition _perform_memory_processing (a : LiveAgent) (memory_data : list string)
  : LiveAgent * Z * Z :=
  let (a', processed_count) := memory_loop memory_data 0 a 0 in
  (a', processed_count, Z.of_nat (length (local_memory a'))).

Lemma memory_loop_spec (memory_data : list string) :
  forall (i : nat) (a : LiveAgent) (processed_count : Z),
    let r := memory_loop memory_data i a processed_count in
    let cap := memory_capacity (profile (core a)) in
    let size := Z.of_nat (length (local_memory a)) in
    core (fst r) = core a /\ message_queue (fst r) = message_queue a /\
    (exists added, local_memory (fst r) = local_memory a ++ added /\
                   snd r = (processed_count + Z.of_nat (length added))%Z) /\
    Z.of_nat (length (local_memory (fst r)))
    = Z.max size (Z.min cap (size + Z.of_nat (length memory_data))).
Proof.
  induction memory_data as [|item rest IH]; intros i a pc r cap size.
  - unfold r. simpl. split; [reflexivity|]. split; [reflexivity|]. split.
    + exists []. rewrite app_nil_r. split; [reflexivity|simpl; lia].
    + unfold size. lia.
  - unfold r. cbn [memory_loop]. fold cap. fold size.
    destruct (size <? cap)%Z eqn:E.
    + apply Z.ltb_lt in E.
      set (fr := mkMemoryFragment (local_id i) item (position (profile (core a)))
                                  (local_time i) 0 1.0 [] []).
      specialize (IH (S i) (set_local_memory a (local_memory a ++ [fr])) (pc + 1)%Z).
      cbv zeta in IH. cbn [core set_local_memory message_queue local_memory] in IH.
      destruct IH as [Hc [Hq [[added [Hm Hp]] Hlen]]].
      split; [exact Hc|]. split; [exact Hq|]. split.
      * exists (fr :: added). split.
        -- rewrite Hm, <- app_assoc. reflexivity.
        -- rewrite Hp. simpl length. lia.
      * rewrite Hlen. rewrite length_app. simpl length. fold cap. unfold size. lia.
    + apply Z.ltb_ge in E.
      specialize (IH (S i) a pc). cbv zeta in IH.
      destruct IH as [Hc [Hq [[added [Hm Hp]] Hlen]]].
      split; [exact Hc|]. split; [exact Hq|]. split.
      * exists added. split; [exact Hm|exact Hp].
      * rewrite Hlen. fold cap. fold size. simpl length. lia.
Qed.

(** X24: Memory processing only appends to the local memory, and only while it
    is below [memory_capacity]: a memory that starts within its capacity
    ends with [min(capacity, size + items)] fragments, [processed_items]
    is the number appended, the items beyond the capacity are dropped
    without an error, and nothing already held is evicted. *)
Theorem memory_processing_fills_to_capacity
        (a : LiveAgent) (memory_data : list string) :
  let r := _perform_memory_processing a memory_data in
  let a' := fst (fst r) in
  let cap := memory_capacity (profile (core a)) in
  let size := Z.of_nat (length (local_memory a)) in
  (size <= cap)%Z ->
  snd r = Z.min cap (size + Z.of_nat (length memory_data)) /\
  snd (fst r) = (snd r - size)%Z /\
  (exists added, local_memory a' = local_memory a ++ added /\
                 Z.of_nat (length added) = snd (fst r)) /\
  core a' = core a /\ message_queue a' = message_queue a.
Proof.
  intros r a' cap size Hsize. unfold a', r, _perform_memory_processing.
  pose proof (memory_loop_spec memory_data 0 a 0) as H. cbv zeta in H.
  destruct (memory_loop memory_data 0 a 0) as [a1 pc].
  cbn [fst snd] in *. fold cap in H. fold size in H.
  destruct H as [Hc [Hq [[added [Hm Hp]] Hlen]]].
  assert (Hadd : Z.of_nat (length (local_memory a1))
                 = (size + Z.of_nat (length added))%Z).
  { rewrite Hm, length_app. unfold size. lia. }
  split; [rewrite Hlen; lia|]. split; [lia|]. split; [|auto].
  exists added. split; [exact Hm|lia].
Qed.
End MemoryProcessing.

Definition idle_worker : LiveAgent :=
  mkLiveAgent
    (new_agent (mkAgentProfile "agent_00000001" "worker" [MEMORY_PROCESSING]
                               zero_vector 0.5 0.01 2 10.0 1 0) 0)
    [] [] (mkPerformanceMetrics 0 0 0 0).

Lemma memory_processing_fills_to_capacity_witness :
  snd (_perform_memory_processing (fun _ => "local_0a1b2c3d") (fun _ => 1)
                                  idle_worker ["a"; "b"; "c"])
  = Z.min 2 (0 + 3).
Proof.
  apply (memory_processing_fills_to_capacity (fun _ => "local_0a1b2c3d") (fun _ => 1)
           idle_worker ["a"; "b"; "c"]).
  simpl. lia.
Defined.

(** *** The message broker *)

(** [Agent.add_message] *)
Definition add_message (a : LiveAgent) (m : AgentMessage) : LiveAgent :=
  set_message_queue a (message_queue a ++ [m]).

(** [AgentActivator._deliver_message] on the registry of live agents. *)
Definition _deliver_message (ags : dict string LiveAgent) (m : AgentMessage)
  : dict string LiveAgent :=
  match receiver_id m with
  | None =>
    map (fun kv : string * LiveAgent =>
           (fst kv,
            if negb (agent_id (profile (core (snd kv))) =? sender_id m)
            then add_message (snd kv) m else snd kv))
        ags
  | Some r =>
    if dict_mem String.eqb r ags
    then dict_update String.eqb r (fun a => add_message a m) ags
    else ags
  end.

(** One cycle of [_message_broker_loop]: the broker is sorted by decreasing
    priority and emptied from the front. *)
Definition broker_cycle (ags : dict string LiveAgent) (message_broker : list AgentMessage)
  : dict string LiveAgent * list AgentMessage :=
  let sorted := sorted_desc (fun m => IZR (priority m)) message_broker in
  (fold_left _deliver_message sorted ags, []).

(** Whether the agent registered under [k] is a recipient of [m]. *)
Definition addressed (k : string) (a : LiveAgent) (m : AgentMessage) : bool :=
  match receiver_id m with
  | None => negb (agent_id (profile (core a)) =? sender_id m)
  | Some r => r =? k
  end.

Lemma dict_get_map_values {V : Type} (g : V -> V) (k : string) (d : dict string V) :
  dict_get String.eqb k (map (fun kv : string * V => (fst kv, g (snd kv))) d)
  = option_map g (dict_get String.eqb k d).
Proof.
  induction d as [|[k' v] t IH]; simpl; [reflexivity|].
  destruct (String.eqb k k'); [reflexivity|exact IH].
Qed.

Lemma deliver_one (ags : dict string LiveAgent) (m : AgentMessage)
      (k : string) (a : LiveAgent) :
  dict_get String.eqb k ags = Some a ->
  dict_get String.eqb k (_deliver_message ags m)
  = Some (if addressed k a m then add_message a m else a).
Proof.
  intros Hget. unfold _deliver_message, addressed.
  destruct (receiver_id m) as [r|].
  - destruct (String.eqb r k) eqn:E.
    + apply String.eqb_eq in E. subst r.
      unfold dict_mem. rewrite Hget.
      rewrite (dict_get_update_same String.eqb), Hget. reflexivity.
    + apply String.eqb_neq in E.
      destruct (dict_mem String.eqb r ags); [|exact Hget].
      rewrite (dict_get_update_other String.eqb string_eqb_spec); [exact Hget|].
      congruence.
  - rewrite (dict_get_map_values
               (fun a0 => if negb (agent_id (profile (core a0)) =? sender_id m)
                          then add_message a0 m else a0)).
    rewrite Hget. reflexivity.
Qed.

Lemma deliver_keys (ags : dict string LiveAgent) (m : AgentMessage) :
  dict_keys (_deliver_message ags m) = dict_keys ags.
Proof.
  unfold _deliver_message. destruct (receiver_id m) as [r|].
  - destruct (dict_mem String.eqb r ags); [|reflexivity].
    apply (dict_keys_update String.eqb).
  - unfold dict_keys. rewrite map_map. reflexivity.
Qed.

Lemma deliver_all (ms : list AgentMessage) :
  forall (ags : dict string LiveAgent) (k : string) (a : LiveAgent),
    dict_get String.eqb k ags = Some a ->
    dict_get String.eqb k (fold_left _deliver_message ms ags)
    = Some (set_message_queue a (message_queue a ++ filter (addressed k a) ms)) /\
    dict_keys (fold_left _deliver_message ms ags) = dict_keys ags.
Proof.
  induction ms as [|m rest IH]; intros ags k a Hget.
  - simpl. rewrite app_nil_r. split; [|reflexivity]. rewrite Hget. now destruct a.
  - cbn [fold_left filter].
    pose proof (deliver_one ags m k a Hget) as H1.
    destruct (IH _ _ _ H1) as [H2 H3]. rewrite H2, H3, deliver_keys.
    split; [|reflexivity]. f_equal.
    destruct (addressed k a m) eqn:E.
    + unfold add_message, set_message_queue. cbn [core local_memory message_queue
        performance_metrics].
      rewrite <- app_assoc. reflexivity.
    + reflexivity.
Qed.

(** The sort by decreasing priority is stable: the messages of one
    priority keep the order they were sent in. *)
Lemma priority_sort_stable (p : Z) (l : list AgentMessage) :
  filter (fun m => (priority m =? p)%Z) (sorted_desc (fun m => IZR (priority m)) l)
  = filter (fun m => (priority m =? p)%Z) l.
Proof.
  unfold sorted_desc.
  set (before := fun a b : AgentMessage => Rleb (IZR (priority b)) (IZR (priority a))).
  assert (Hins : forall a u,
             filter (fun m => (priority m =? p)%Z) (insert_sorted before a u)
             = filter (fun m => (priority m =? p)%Z) (a :: u)).
  { intros a u. induction u as [|b u IHu]; [reflexivity|].
    cbn [insert_sorted]. destruct (before a b) eqn:E; [reflexivity|].
    unfold before in E. apply Rleb_false in E. apply lt_IZR in E.
    cbn [filter] in *. rewrite IHu.
    destruct (priority a =? p)%Z eqn:Ea; [|reflexivity].
    apply Z.eqb_eq in Ea.
    assert (Eb : (priority b =? p)%Z = false) by (apply Z.eqb_neq; lia).
    rewrite Eb. reflexivity. }
  induction l as [|a t IH]; [reflexivity|].
  cbn [py_sorted fold_right]. fold (py_sorted before t).
  rewrite Hins. cbn [filter]. rewrite IH. reflexivity.
Qed.

(** X25: A cycle of the broker empties it and adds or removes no agent.  Each
    agent gets, behind what its queue already held, exactly the messages
    addressed to it (the direct ones under its key, and every broadcast it
    did not send itself), highest priority first and, at equal priority, in
    the order of sending; nothing else of the agent changes.  A direct
    message to an identifier that is not registered is dropped silently. *)
Theorem broker_cycle_delivers_by_priority
        (ags : dict string LiveAgent) (message_broker : list AgentMessage) :
  let r := broker_cycle ags message_broker in
  let sorted := sorted_desc (fun m => IZR (priority m)) message_broker in
  snd r = [] /\
  dict_keys (fst r) = dict_keys ags /\
  (forall k a, dict_get String.eqb k ags = Some a ->
     dict_get String.eqb k (fst r)
     = Some (set_message_queue a (message_queue a ++ filter (addressed k a) sorted))) /\
  Permutation message_broker sorted /\
  StronglySorted (fun m1 m2 => (priority m2 <= priority m1)%Z) sorted /\
  (forall p, filter (fun m => (priority m =? p)%Z) sorted
             = filter (fun m => (priority m =? p)%Z) message_broker).
Proof.
  intros r sorted. unfold r, broker_cycle. cbn [fst snd]. fold sorted.
  split; [reflexivity|]. split; [|split; [|split; [|split]]].
  - destruct ags as [|[k a] t]; [|].
    + clear. induction sorted as [|m ms IH]; [reflexivity|].
      cbn [fold_left]. unfold _deliver_message at 2.
      destruct (receiver_id m); exact IH.
    + apply (deliver_all sorted ((k, a) :: t) k a). simpl.
      now rewrite String.eqb_refl.
  - intros k a Hget. apply (deliver_all sorted ags k a Hget).
  - apply py_sorted_perm.
  - unfold sorted, sorted_desc.
    eapply Mesh.strongly_sorted_weaken;
      [|apply (py_sorted_sorted (fun a b : AgentMessage =>
                                   Rleb (IZR (priority b)) (IZR (priority a))))].
    + intros m1 m2 H. unfold ordered in H. apply Rleb_true in H. now apply le_IZR.
    + intros m1 m2 H. apply Rleb_false in H. apply Rleb_true. lra.
    + intros m1 m2 m3 H1 H2. apply Rleb_true in H1, H2. apply Rleb_true. lra.
  - intros p. apply priority_sort_stable.
Qed.

(** *** The lifecycle manager *)

Definition AgentState_eqb (s1 s2 : AgentState) : bool :=
  match s1, s2 with
  | DORMANT, DORMANT | INITIALIZING, INITIALIZING | ACTIVE, ACTIVE
  | COMPUTING, COMPUTING | COMMUNICATING, COMMUNICATING | LEARNING, LEARNING
  | ERROR, ERROR | TERMINATED, TERMINATED => true
  | _, _ => false
  end.

(** The test of [_agent_lifecycle_manager] *)
Definition inactive (current_time : R) (agent : Agent) : bool :=
  let time_since_activity := current_time - last_activity agent in
  (AgentState_eqb (state agent) ERROR
   || AgentState_eqb (state agent) TERMINATED
   || Rltb 3600 time_since_activity)%bool.

(** One pass of [_agent_lifecycle_manager] at [current_time]. *)
Definition lifecycle_pass (ags : dict string Agent) (current_time : R)
  : dict string Agent :=
  let inactive_agents :=
    map fst (filter (fun kv => inactive current_time (snd kv)) ags) in
  fold_left _remove_agent inactive_agents ags.

Lemma remove_agent_is_remove (ags : dict string Agent) (aid : string) :
  _remove_agent ags aid = dict_remove String.eqb aid ags.
Proof.
  unfold _remove_agent. unfold dict_mem.
  destruct (dict_get String.eqb aid ags) eqn:E; [reflexivity|].
  apply (dict_get_None_keys String.eqb string_eqb_spec) in E.
  symmetry. now apply dict_remove_absent.
Qed.

(** X26: A pass of the lifecycle manager removes exactly the agents in state
    [ERROR] or [TERMINATED] and those idle for more than an hour; the others
    stay, unchanged and in their order.  An agent seen within the last hour
    in any other state is never removed by it. *)
Theorem lifecycle_pass_spec (ags : dict string Agent) (current_time : R) :
  NoDup (dict_keys ags) ->
  lifecycle_pass ags current_time
  = filter (fun kv => negb (inactive current_time (snd kv))) ags /\
  NoDup (dict_keys (lifecycle_pass ags current_time)) /\
  forall aid a,
    In (aid, a) (lifecycle_pass ags current_time) <->
    In (aid, a) ags /\ state a <> ERROR /\ state a <> TERMINATED /\
    current_time - last_activity a <= 3600.
Proof.
  intros Hnd.
  assert (E : lifecycle_pass ags current_time
              = filter (fun kv => negb (inactive current_time (snd kv))) ags).
  { unfold lifecycle_pass.
    rewrite <- (remove_selected_keys
                  (fun kv : string * Agent => inactive current_time (snd kv)) ags Hnd).
    generalize (map fst (filter (fun kv : string * Agent =>
                                   inactive current_time (snd kv)) ags)).
    intros ks. generalize ags. induction ks as [|k ks IH]; intros d; [reflexivity|].
    cbn [fold_left]. rewrite remove_agent_is_remove. apply IH. }
  split; [exact E|]. rewrite E. split.
  - unfold dict_keys. now apply Mesh.filter_keeps_distinct_images.
  - intros aid a. rewrite filter_In. cbn [snd]. unfold inactive.
    rewrite negb_true_iff, !orb_false_iff, Rltb_false.
    assert (S1 : AgentState_eqb (state a) ERROR = false <-> state a <> ERROR)
      by (destruct (state a); simpl; split; intros; congruence).
    assert (S2 : AgentState_eqb (state a) TERMINATED = false <-> state a <> TERMINATED)
      by (destruct (state a); simpl; split; intros; congruence).
    rewrite S1, S2. tauto.
Qed.

Lemma lifecycle_pass_spec_witness :
  lifecycle_pass [("agent_00000001", core idle_worker)] 5000
  = filter (fun kv => negb (inactive 5000 (snd kv)))
           [("agent_00000001", core idle_worker)].
Proof.
  apply (lifecycle_pass_spec [("agent_00000001", core idle_worker)] 5000).
  repeat constructor. intros [].
Defined.

(** *** Swarms and clusters *)

Section Swarm.
(** The identifiers generated in pass [i] of the loop, [profile_<type>_<uuid
    prefix>] and the uuid prefix of [agent_<uuid prefix>], and the clock
    then. *)
Variable profile_id_of : nat -> string.
Variable agent_uuid : nat -> string.
Variable clock : nat -> R.

Definition agent_id_of (i : nat) : string := "agent_" ++ agent_uuid i.

Definition swarm_position (center_position : ScrollVector) (spread_radius : R)
           (count : Z) (i : nat) : ScrollVector :=
  let angle := (2 * PI * INR i) / IZR count in
  let radius := spread_radius * (0.5 + 0.5 * (INR i / IZR count)) in
  mkScrollVector (x center_position + radius * cos angle)
                 (y center_position + radius * sin angle)
                 (z center_position + (radius * 0.1 * sin (angle * 2)))
                 (temporal center_position)
                 (symbolic center_position + (INR i * 0.1)).

(** The body of the loop of [activate_agent_swarm]. *)
Definition swarm_step (agent_type : string) (count : Z)
           (capabilities : list AgentCapability)
           (center_position : ScrollVector) (spread_radius : R)
           (acc : AgentActivator * list string) (i : nat)
  : AgentActivator * list string :=
  let position := swarm_position center_position spread_radius count i in
  let reg :=
    register_agent_profile (fst acc) (profile_id_of i) (clock i)
      (agent_type ++ "_swarm_" ++ DecimalString.NilZero.string_of_uint (Nat.to_uint i))
      capabilities position in
  let act := activate_agent (fst reg) (snd reg) (agent_id_of i) (clock i) in
  match snd act with
  | Some agent_id =>
    if agent_id =? "" then (fst act, snd acc) else (fst act, snd acc ++ [agent_id])
  | None => (fst act, snd acc)
  end.

(** [AgentActivator.activate_agent_swarm] *)
Definition activate_agent_swarm (a : AgentActivator) (agent_type : string) (count : Z)
           (capabilities : list AgentCapability)
           (center_position : ScrollVector) (spread_radius : R)
  : AgentActivator * list string :=
  fold_left (swarm_step agent_type count capabilities center_position spread_radius)
            (seq 0 (Z.to_nat count)) (a, []).

(** The dictionary returned by [coordinate_cluster_activation]. *)
Inductive ClusterReport : Type :=
| ClusterActivated (pattern : string) (activated_agents : list string)
                   (cluster_size : Z)
| UnknownPattern (pattern : string).

Definition is_learning_capability (cap : AgentCapability) : bool :=
  match cap with
  | RECURSIVE_LEARNING | PATTERN_RECOGNITION | MEMORY_PROCESSING => true
  | _ => false
  end.

(** [AgentActivator.coordinate_cluster_activation] *)
Definition coordinate_cluster_activation (a : AgentActivator)
           (activation_pattern : string) (target_capabilities : list AgentCapability)
           (cluster_size : Z) : AgentActivator * ClusterReport :=
  if activation_pattern =? "distributed_computation" then
    let center := mkScrollVector 0 0 0 0 0 in
    let r := activate_agent_swarm a "compute_agent" cluster_size target_capabilities
                                  center 2.0 in
    (fst r, ClusterActivated activation_pattern (snd r) (Z.of_nat (length (snd r))))
  else if activation_pattern =? "learning_collective" then
    let learning_caps := filter is_learning_capability target_capabilities in
    let center := mkScrollVector 0 0 0 1 1 in
    let r := activate_agent_swarm a "learning_agent" cluster_size learning_caps
                                  center 1.5 in
    (fst r, ClusterActivated activation_pattern (snd r) (Z.of_nat (length (snd r))))
  else (a, UnknownPattern activation_pattern).

Lemma cleanup_loop_In (items : list (string * Agent)) :
  forall (removed_count count : Z) (ags : dict string Agent) (e : string * Agent),
    In e (cleanup_loop items removed_count count ags) -> In e ags.
Proof.
  induction items as [|[aid ag] rest IH]; intros rc c ags e H; [exact H|].
  cbn [cleanup_loop] in H. destruct (c <=? rc)%Z; [exact H|].
  apply IH in H. unfold _remove_agent in H.
  destruct (dict_mem String.eqb aid ags); [|exact H].
  eapply dict_remove_In, H.
Qed.

Lemma cleanup_In (ags : dict string Agent) (count : Z) (e : string * Agent) :
  In e (_cleanup_inactive_agents ags count) -> In e ags.
Proof.
  unfold _cleanup_inactive_agents. destruct ags as [|e0 t]; [auto|].
  apply cleanup_loop_In.
Qed.

(** What one pass of the loop does, in terms of [activate_agent]. *)
Lemma swarm_step_spec (agent_type : string) (count : Z)
      (capabilities : list AgentCapability) (center : ScrollVector) (spread : R)
      (acc : AgentActivator * list string) (i : nat) :
  let reg :=
    register_agent_profile (fst acc) (profile_id_of i) (clock i)
      (agent_type ++ "_swarm_" ++ DecimalString.NilZero.string_of_uint (Nat.to_uint i))
      capabilities (swarm_position center spread count i) in
  swarm_step agent_type count capabilities center spread acc i
  = (step (fst reg) (Activation (profile_id_of i) (agent_id_of i) (clock i)),
     snd acc ++ [agent_id_of i]) /\
  agents (fst reg) = agents (fst acc) /\ max_agents (fst reg) = max_agents (fst acc) /\
  dict_mem String.eqb (profile_id_of i) (agent_profiles (fst reg)) = true /\
  forall k ag,
    In (k, ag) (agents (step (fst reg)
                             (Activation (profile_id_of i) (agent_id_of i) (clock i)))) ->
    In (k, ag) (agents (fst acc)) \/
    (k = agent_id_of i /\ agent_id (profile ag) = k /\ state ag = ACTIVE /\
     Agents.capabilities (profile ag) = capabilities).
Proof.
  intros reg.
  assert (Hget : dict_get String.eqb (profile_id_of i) (agent_profiles (fst reg))
                 = Some (mkAgentProfile ""
                           (agent_type ++ "_swarm_"
                            ++ DecimalString.NilZero.string_of_uint (Nat.to_uint i))
                           capabilities (swarm_position center spread count i)
                           0.5 0.01 1000 10.0 1 (clock i))).
  { unfold reg, register_agent_profile. cbn [fst agent_profiles].
    apply (dict_get_set_same String.eqb string_eqb_spec). }
  split; [|split; [reflexivity|split; [reflexivity|split]]].
  - unfold swarm_step. fold reg. cbn [step].
    change (snd reg) with (profile_id_of i).
    unfold activate_agent. rewrite Hget. cbn [activate fst snd].
    unfold agent_id_of. cbn [String.append String.eqb]. reflexivity.
  - unfold dict_mem. now rewrite Hget.
  - intros k ag Hin. cbn [step] in Hin. unfold activate_agent in Hin.
    rewrite Hget in Hin. cbn [activate fst snd set_agents agents] in Hin.
    apply (dict_set_In_inv String.eqb string_eqb_spec) in Hin as [E|Hin].
    + right. inversion E; subst. cbn. auto.
    + left. change (agents (fst reg)) with (agents (fst acc)) in Hin.
      destruct (max_agents (fst reg) <=? Z.of_nat (length (agents (fst acc))))%Z;
        [eapply cleanup_In, Hin|exact Hin].
Qed.

Lemma swarm_fold (agent_type : string) (count : Z)
      (capabilities : list AgentCapability) (center : ScrollVector) (spread : R)
      (len : nat) :
  forall (s : nat) (acc : AgentActivator * list string),
    let r := fold_left (swarm_step agent_type count capabilities center spread)
                       (seq s len) acc in
    snd r = snd acc ++ map agent_id_of (seq s len) /\
    max_agents (fst r) = max_agents (fst acc) /\
    (forall k ag, In (k, ag) (agents (fst r)) ->
       In (k, ag) (agents (fst acc)) \/
       (In k (map agent_id_of (seq s len)) /\ agent_id (profile ag) = k /\
        state ag = ACTIVE /\ Agents.capabilities (profile ag) = capabilities)) /\
    (forall seen,
       (1 <= max_agents (fst acc))%Z -> registry_inv (fst acc) seen ->
       NoDup (map agent_id_of (seq s len)) ->
       (forall k, In k (map agent_id_of (seq s len)) -> ~ In k seen) ->
       registry_inv (fst r) (rev (map agent_id_of (seq s len)) ++ seen)).
Proof.
  induction len as [|len IH]; intros s acc r.
  - unfold r. simpl. rewrite app_nil_r. auto.
  - unfold r. cbn [seq fold_left map].
    destruct (swarm_step_spec agent_type count capabilities center spread acc s)
      as [Estep [Hags [Hmax [Hmem Hin]]]].
    set (reg := register_agent_profile _ _ _ _ _ _) in *.
    set (a1 := step (fst reg) (Activation (profile_id_of s) (agent_id_of s) (clock s)))
      in *.
    rewrite Estep.
    destruct (IH (S s) (a1, snd acc ++ [agent_id_of s])) as [H1 [H2 [H3 H4]]].
    cbn [fst snd] in H1, H2, H3, H4.
    assert (Hmax1 : max_agents a1 = max_agents (fst acc)).
    { unfold a1. cbn [step]. unfold activate_agent.
      destruct (dict_get String.eqb (profile_id_of s) (agent_profiles (fst reg)));
        [|exact Hmax].
      cbn [activate fst snd]. exact Hmax. }
    split; [|split; [|split]].
    + rewrite H1, <- app_assoc. reflexivity.
    + rewrite H2. exact Hmax1.
    + intros k ag Hk. destruct (H3 k ag Hk) as [Hk1|[Hk1 Hk2]].
      * destruct (Hin k ag Hk1) as [Hk0|[Ek Hrest]]; [now left|].
        right. split; [left; now symmetry|exact Hrest].
      * right. split; [now right|exact Hk2].
    + intros seen Hcap Hinv Hnd Hfresh.
      inversion Hnd as [|? ? Hnot Hnd']; subst.
      assert (Hinv0 : registry_inv (fst reg) seen).
      { destruct Hinv as [I1 [I2 I3]]. unfold registry_inv.
        rewrite Hags, Hmax. auto. }
      destruct (step_activation_inv (fst reg) seen (profile_id_of s) (agent_id_of s)
                  (clock s)) as [Hinv1 _].
      * rewrite Hmax. exact Hcap.
      * exact Hmem.
      * apply Hfresh. now left.
      * exact Hinv0.
      * fold a1 in Hinv1.
        specialize (H4 (agent_id_of s :: seen)).
        simpl rev. rewrite <- app_assoc. simpl app. apply H4.
        -- rewrite Hmax1. exact Hcap.
        -- exact Hinv1.
        -- exact Hnd'.
        -- intros k Hk [E|Hs].
           ++ subst k. contradiction.
           ++ apply (Hfresh k); [now right|exact Hs].
Qed.

(** X27: A swarm returns one identifier for every agent asked for, whatever the
    cap: every activation succeeds.  The agents registered afterwards are
    agents held before or agents of the swarm, active and with the swarm's
    capabilities.  From an empty registry, with a cap of at least 1 and
    distinct identifiers, only [min(count, max_agents)] of the returned
    identifiers are still registered when the call returns. *)
Theorem swarm_returns_every_identifier
        (a : AgentActivator) (agent_type : string) (count : Z)
        (capabilities : list AgentCapability) (center : ScrollVector) (spread : R) :
  let r := activate_agent_swarm a agent_type count capabilities center spread in
  let ids := map agent_id_of (seq 0 (Z.to_nat count)) in
  snd r = ids /\
  Z.of_nat (length (snd r)) = Z.max 0 count /\
  max_agents (fst r) = max_agents a /\
  (forall k ag, In (k, ag) (agents (fst r)) ->
     In (k, ag) (agents a) \/
     (In k ids /\ agent_id (profile ag) = k /\ state ag = ACTIVE /\
      Agents.capabilities (profile ag) = capabilities)) /\
  (agents a = [] -> (1 <= max_agents a)%Z -> NoDup ids ->
   Z.of_nat (length (agents (fst r))) = Z.min (Z.max 0 count) (max_agents a) /\
   forall k, In k (dict_keys (agents (fst r))) -> In k ids).
Proof.
  intros r ids. unfold r, activate_agent_swarm.
  destruct (swarm_fold agent_type count capabilities center spread
              (Z.to_nat count) 0 (a, [])) as [H1 [H2 [H3 H4]]].
  cbn [fst snd app] in H1, H2, H3, H4. fold ids in H1, H3, H4.
  assert (Hlen : Z.of_nat (length ids) = Z.max 0 count).
  { unfold ids. rewrite length_map, length_seq. lia. }
  split; [exact H1|]. split; [rewrite H1; exact Hlen|]. split; [exact H2|].
  split; [exact H3|].
  intros Hempty Hcap Hnd.
  destruct (H4 [] Hcap) as [I1 [I2 I3]].
  - unfold registry_inv. rewrite Hempty. simpl.
    split; [constructor|]. split; [intros k []|lia].
  - exact Hnd.
  - intros k _ [].
  - rewrite app_nil_r in I2, I3. rewrite length_rev in I3. split.
    + rewrite I3, H2. lia.
    + intros k Hk. apply in_rev. now apply I2.
Qed.

(** X28: An unknown activation pattern activates nothing and leaves the
    activator as it was.  A known pattern reports as [cluster_size] the
    number of agents asked for, whatever the cap allows to stay registered;
    and the agents a [learning_collective] adds carry, of the target
    capabilities, the learning ones only. *)
Theorem cluster_activation_report
        (a : AgentActivator) (pattern : string)
        (target_capabilities : list AgentCapability) (cluster_size : Z) :
  let r := coordinate_cluster_activation a pattern target_capabilities cluster_size in
  (pattern <> "distributed_computation" -> pattern <> "learning_collective" ->
   r = (a, UnknownPattern pattern)) /\
  (pattern = "distributed_computation" \/ pattern = "learning_collective" ->
   exists ids, snd r = ClusterActivated pattern ids (Z.max 0 cluster_size) /\
               Z.of_nat (length ids) = Z.max 0 cluster_size /\
               max_agents (fst r) = max_agents a) /\
  (pattern = "learning_collective" ->
   forall k ag, In (k, ag) (agents (fst r)) ->
     In (k, ag) (agents a) \/
     forall cap, In cap (Agents.capabilities (profile ag)) <->
                 In cap target_capabilities /\ is_learning_capability cap = true).
Proof.
  intros r. unfold r, coordinate_cluster_activation. split; [|split].
  - intros H1 H2. apply String.eqb_neq in H1, H2. now rewrite H1, H2.
  - intros [E|E]; subst pattern; cbn [String.eqb Ascii.eqb Bool.eqb];
      unfold activate_agent_swarm;
      match goal with
      | |- context [fold_left (swarm_step ?ty ?c ?caps ?ce ?sp) _ _] =>
        destruct (swarm_fold ty c caps ce sp (Z.to_nat c) 0 (a, []))
          as [H1 [H2 _]]
      end;
      cbn [fst snd app] in H1, H2;
      exists (map agent_id_of (seq 0 (Z.to_nat cluster_size)));
      cbn [fst snd]; rewrite H1, length_map, length_seq;
      (split; [f_equal; lia|split; [lia|exact H2]]).
  - intros E. subst pattern. cbn [String.eqb Ascii.eqb Bool.eqb fst].
    intros k ag Hin. unfold activate_agent_swarm in Hin.
    destruct (swarm_fold "learning_agent" cluster_size
                (filter is_learning_capability target_capabilities)
                (mkScrollVector 0 0 0 1 1) 1.5 (Z.to_nat cluster_size) 0 (a, []))
      as [_ [_ [Hags _]]].
    cbn [fst snd] in Hags.
    destruct (Hags k ag Hin) as [H|[_ [_ [_ Hcaps]]]]; [now left|].
    right. intros cap. rewrite Hcaps. apply filter_In.
Qed.
End Swarm.

End AgentOps.
